(** * Spectrum-sharing allocation engine

    A shallow embedding of the allocation engine of the spectrum-sharing
    simulator (core/spectrum_manager.py, models/assignment.py,
    models/environment.py, morphology/architecture_enumerator.py,
    core/metrics.py) and the properties of its admission, renewal and
    store operations.

    Conventions of the embedding.
    - Python [int] is [Z]; Python [float] is a binary64 primitive float, so
      [quality *= 0.7] is the very multiplication the interpreter performs.
    - An [Assignment] is a mutable object that the manager's [active] list
      and its per-square index alias.  Objects live in a heap indexed by
      their identity ([loc], what [id(...)] and [is] observe); the lists
      hold identities.
    - Exceptions are values of [result]; a call that raises leaves no
      manager behind, as the run stops there.
    - [environment.nodes] is the list that [Environment] builds (the
      manager also accepts a dict of nodes, which no environment of the
      repository provides).
    - Of the manager, the manual queue, [tick_housekeeping] and
      [_process_manual_batch] are left out: they call [process_arrivals] and
      [renew_assignments] and touch nothing else of the store.  Of the
      metrics collector, the counters that these two operations write and
      [compute_interference] are kept.  Of a request's trace, the kind of
      each message and the assignment it names are kept, not its text. *)

From Stdlib Require Import ZArith List Bool Lia PrimFloat QArith.
From stdpp Require Import base option list gmap strings.

Set Warnings "-inexact-float".
Set Default Proof Using "Type".

Local Open Scope Z_scope.

(** ** Python values *)

Inductive exn : Type :=
| IndexError
| ValueError (msg : string).

Inductive result (A : Type) : Type :=
| Ok (a : A)
| Raise (e : exn).
Arguments Ok {A} a.
Arguments Raise {A} e.

#[global] Instance result_ret : MRet result := fun A a => Ok a.
#[global] Instance result_bind : MBind result := fun A B k r =>
  match r with
  | Ok a => k a
  | Raise e => Raise e
  end.

(** [l[i]] on a Python list: a negative index counts from the end, an index
    out of range raises IndexError. *)
Definition py_index {A : Type} (l : list A) (i : Z) : result A :=
  let n := Z.of_nat (length l) in
  let j := if i <? 0 then i + n else i in
  if (0 <=? j) && (j <? n) then
    match l !! Z.to_nat j with
    | Some x => Ok x
    | None => Raise IndexError
    end
  else Raise IndexError.

(** An [int] or [float('inf')]: the type of [query_interval] and of a
    stored [next_check_tick]. *)
Inductive num : Type :=
| Fin (z : Z)
| Inf.

Definition num_eqb (a b : num) : bool :=
  match a, b with
  | Fin x, Fin y => x =? y
  | Inf, Inf => true
  | _, _ => false
  end.

Definition num_add (t : Z) (d : num) : num :=
  match d with
  | Fin z => Fin (t + z)
  | Inf => Inf
  end.

Definition option_eqb {A : Type} (eqb : A -> A -> bool) (a b : option A) : bool :=
  match a, b with
  | Some x, Some y => eqb x y
  | None, None => true
  | _, _ => false
  end.

(** ** config/parameters.py *)

Definition TOTAL_BANDWIDTH_MHZ : Z := 600.
Definition FREQ_BASE_MHZ : Z := 37000.

(** ** models/node.py and models/environment.py *)

Module Node.
Record t : Type := mk {
  node_id : Z;
  row : Z;
  col : Z;
  (** the set of covered squares, without repetition, listed in the order
      in which [generate_nodes] adds them; the interpreter may iterate the
      set in another order (the set is built once and never mutated) *)
  covered_squares : list Z
}.
End Node.

(** [Node.__init__]: [set(covered_squares)] drops repeated squares; the
    squares that remain are kept in the order of the list given.  On the
    1-square grid every node covers the one square 0, and the invariants of
    the store are proved for every environment whose nodes list their
    squares without repetition, in whatever order. *)
Definition Node_init (node_id row col : Z) (covered_squares : list Z) : Node.t :=
  Node.mk node_id row col (remove_dups covered_squares).

Module Environment.
Record t : Type := mk {
  squares_rows : Z;
  squares_cols : Z;
  nodes : list Node.t
}.
Definition num_nodes_rows (e : t) : Z := squares_rows e + 1.
Definition num_nodes_cols (e : t) : Z := squares_cols e + 1.
End Environment.

(** [range(n)] as a list of integers. *)
Definition range (n : Z) : list Z := map Z.of_nat (seq 0 (Z.to_nat n)).

(** [range(lo, hi)]. *)
Definition range2 (lo hi : Z) : list Z := map (fun k => lo + k) (range (hi - lo)).

Definition covered_at (squares_rows squares_cols r c : Z) : list Z :=
  (if (r <? squares_rows) && (c <? squares_cols) then [r * squares_cols + c] else [])
  ++ (if (0 <? r) && (c <? squares_cols) then [(r - 1) * squares_cols + c] else [])
  ++ (if (0 <? c) && (r <? squares_rows) then [r * squares_cols + (c - 1)] else [])
  ++ (if (0 <? r) && (0 <? c) then [(r - 1) * squares_cols + (c - 1)] else []).

(** [Environment.generate_nodes]: node ids run row by row. *)
Definition generate_nodes (squares_rows squares_cols : Z) : list Node.t :=
  flat_map (fun r =>
    map (fun c => Node_init (r * (squares_cols + 1) + c) r c
                    (covered_at squares_rows squares_cols r c))
        (range (squares_cols + 1)))
    (range (squares_rows + 1)).

Definition Environment_init (squares_rows squares_cols : Z) : Environment.t :=
  Environment.mk squares_rows squares_cols (generate_nodes squares_rows squares_cols).

(** [Environment.get_neighbors]: up, down, left, right. *)
Definition get_neighbors (e : Environment.t) (node_id : Z) : result (list Z) :=
  node ← py_index (Environment.nodes e) node_id;
  Ok (flat_map (fun d : Z * Z =>
        let nr := Node.row node + d.1 in
        let nc := Node.col node + d.2 in
        if (0 <=? nr) && (nr <? Environment.num_nodes_rows e)
           && (0 <=? nc) && (nc <? Environment.num_nodes_cols e)
        then let neighbor_id := nr * Environment.num_nodes_cols e + nc in
             if neighbor_id =? node_id then [] else [neighbor_id]
        else [])
      [(-1, 0); (1, 0); (0, -1); (0, 1)]).

(** ** morphology/architecture_enumerator.py *)

Module ArchitecturePolicy.
Record t : Type := mk {
  coordination_mode : string;
  licensing_mode : string;
  freq_plan : string;
  interference_mitigation : string;
  sensing_mode : string;
  pricing_mode : string;
  enforcement_mode : string;
  priority_mode : string
}.
End ArchitecturePolicy.
Import ArchitecturePolicy.

Definition str_eqb (a b : string) : bool := String.eqb a b.

Definition ArchitecturePolicy_repr (arch : ArchitecturePolicy.t) : string :=
  "<ArchitecturePolicy coord=" +:+ coordination_mode arch
  +:+ ", lic=" +:+ licensing_mode arch
  +:+ ", freq=" +:+ freq_plan arch
  +:+ ", int_mitg=" +:+ interference_mitigation arch
  +:+ ", sensing=" +:+ sensing_mode arch
  +:+ ", pricing=" +:+ pricing_mode arch
  +:+ ", enforce=" +:+ enforcement_mode arch
  +:+ ", prio=" +:+ priority_mode arch +:+ ">".

Definition is_feasible (arch : ArchitecturePolicy.t) : bool :=
  if str_eqb (licensing_mode arch) "Dynamic" && str_eqb (sensing_mode arch) "Database Only"
  then false
  else if str_eqb (licensing_mode arch) "Dynamic" && str_eqb (pricing_mode arch) "Auction Based"
  then false
  else if str_eqb (coordination_mode arch) "Decentralized"
          && str_eqb (pricing_mode arch) "Auction Based"
  then false
  else if str_eqb (priority_mode arch) "Exclusive"
          && (negb (str_eqb (licensing_mode arch) "Manual")
              || negb (str_eqb (coordination_mode arch) "Centralized"))
  then false
  else if str_eqb (licensing_mode arch) "Dynamic" && str_eqb (enforcement_mode arch) "Passive"
  then false
  else true.

Definition get_architecture_by_name
    (coord_mode licensing freq_plan interference sensing pricing enforcement priority : string)
    : result ArchitecturePolicy.t :=
  let arch := ArchitecturePolicy.mk coord_mode licensing freq_plan interference
                sensing pricing enforcement priority in
  if negb (is_feasible arch)
  then Raise (ValueError ("Infeasible architecture combination: " +:+ ArchitecturePolicy_repr arch))
  else Ok arch.

Definition COORDINATION_MODES : list string := ["Centralized"; "Decentralized"; "Hybrid"].
Definition LICENSING_MODES : list string := ["Manual"; "Semi-Dynamic"; "Dynamic"].
Definition FREQ_PLANS : list string := ["Large Blocks"; "Sub Channels"; "Freq Slicing"].
Definition INTERFERENCE_MITIGATIONS : list string :=
  ["No Mitigation"; "Power Control"; "Beamforming"; "Combination"].
Definition SENSING_MODES : list string :=
  ["Device Based"; "Infrastructure Sensors"; "Database Only"].
Definition PRICING_MODES : list string := ["No Cost"; "Usage Based"; "Auction Based"].
Definition ENFORCEMENT_MODES : list string := ["Active"; "Passive"].
Definition PRIORITY_MODES : list string := ["Hierarchical"; "Co-Primary"; "Exclusive"].

(** [itertools.product] over the eight dimensions, in its order. *)
Definition all_combinations : list ArchitecturePolicy.t :=
  c ← COORDINATION_MODES; l ← LICENSING_MODES; f ← FREQ_PLANS;
  i ← INTERFERENCE_MITIGATIONS; s ← SENSING_MODES; p ← PRICING_MODES;
  e ← ENFORCEMENT_MODES; pr ← PRIORITY_MODES;
  [ArchitecturePolicy.mk c l f i s p e pr].

Definition generate_all_architectures (apply_filter : bool) : list ArchitecturePolicy.t :=
  if apply_filter then List.filter is_feasible all_combinations else all_combinations.

(** ** models/assignment.py *)

Module Assignment.
Record t : Type := mk {
  assignment_id : Z;
  node_id : Z;
  freq_start : Z;
  freq_end : Z;
  device_type : string;
  quality : float;
  next_check_tick : option num;
  priority_tier : Z
}.

(** The [__eq__] that [@dataclass] generates: the tuples of fields are
    compared, floats by IEEE equality. *)
Definition eqb (a b : t) : bool :=
  (assignment_id a =? assignment_id b)
  && (node_id a =? node_id b)
  && (freq_start a =? freq_start b)
  && (freq_end a =? freq_end b)
  && String.eqb (device_type a) (device_type b)
  && PrimFloat.eqb (quality a) (quality b)
  && option_eqb num_eqb (next_check_tick a) (next_check_tick b)
  && (priority_tier a =? priority_tier b).

Definition set_quality (q : float) (a : t) : t :=
  mk (assignment_id a) (node_id a) (freq_start a) (freq_end a) (device_type a)
     q (next_check_tick a) (priority_tier a).

Definition set_next_check_tick (n : option num) (a : t) : t :=
  mk (assignment_id a) (node_id a) (freq_start a) (freq_end a) (device_type a)
     (quality a) n (priority_tier a).
End Assignment.

(** Object identities and the heap of [Assignment] objects. *)
Definition loc : Type := nat.
Definition heap : Type := loc -> Assignment.t.

Definition heap_update (h : heap) (l : loc) (f : Assignment.t -> Assignment.t) : heap :=
  fun l' => if Nat.eqb l' l then f (h l) else h l'.

(** [x == y] on two references, as [in], [list.remove] and [!=] use it:
    the same object, or equal fields. *)
Definition py_eq (h : heap) (x y : loc) : bool :=
  Nat.eqb x y || Assignment.eqb (h x) (h y).

(** [x in l] *)
Definition py_in (h : heap) (x : loc) (l : list loc) : bool :=
  existsb (fun y => py_eq h y x) l.

(** [l.remove(x)], called only after [x in l] succeeded: the first element
    equal to [x] goes. *)
Fixpoint py_remove (h : heap) (x : loc) (l : list loc) : list loc :=
  match l with
  | [] => []
  | y :: l' => if py_eq h y x then l' else y :: py_remove h x l'
  end.

Inductive relationship : Type :=
| rel_same
| rel_adjacent
| rel_opposite
| rel_none.

(** [this_node.covered_squares.intersection(other_node.covered_squares)] *)
Definition shared_squares (this_node other_node : Node.t) : list Z :=
  remove_dups (list_intersection (Node.covered_squares this_node)
                                 (Node.covered_squares other_node)).

Definition Zpair_eqb (p q : Z * Z) : bool := (p.1 =? q.1) && (p.2 =? q.2).

Section WithEnvironment.
Variable environment : Environment.t.

Definition conflicts_with (self other : Assignment.t) : result bool :=
  if (Assignment.freq_end self <=? Assignment.freq_start other)
     || (Assignment.freq_start self >=? Assignment.freq_end other)
  then Ok false
  else
    this_node ← py_index (Environment.nodes environment) (Assignment.node_id self);
    other_node ← py_index (Environment.nodes environment) (Assignment.node_id other);
    Ok (0 <? Z.of_nat (length (shared_squares this_node other_node))).

Definition get_node_relationship (self other : Assignment.t) : result relationship :=
  this_node ← py_index (Environment.nodes environment) (Assignment.node_id self);
  other_node ← py_index (Environment.nodes environment) (Assignment.node_id other);
  if Node.node_id this_node =? Node.node_id other_node then Ok rel_same
  else
    let shared := shared_squares this_node other_node in
    match shared with
    | [] => Ok rel_none
    | _ =>
      if (Z.of_nat (length (Environment.nodes environment)) =? 4)
         && (Z.of_nat (length shared) =? 1)
      then
        if existsb (Zpair_eqb (Node.node_id this_node, Node.node_id other_node))
             [(0, 3); (3, 0); (1, 2); (2, 1)]
        then Ok rel_opposite
        else Ok rel_adjacent
      else
        let manhattan_dist :=
          Z.abs (Node.row this_node - Node.row other_node)
          + Z.abs (Node.col this_node - Node.col other_node) in
        if manhattan_dist =? 1 then Ok rel_adjacent else Ok rel_opposite
    end.

(** [self.quality *= quality_factor; other.quality *= quality_factor] *)
Definition scale_both (h : heap) (self other : loc) (quality_factor : float) : heap :=
  let h1 := heap_update h self
              (fun a => Assignment.set_quality (Assignment.quality a * quality_factor)%float a) in
  heap_update h1 other
    (fun a => Assignment.set_quality (Assignment.quality a * quality_factor)%float a).

(** [Assignment.apply_mitigation]: the heap after the call and the value
    returned. *)
Definition apply_mitigation (arch_policy : ArchitecturePolicy.t)
    (h : heap) (self other : loc) : result (heap * bool) :=
  let mitigation := interference_mitigation arch_policy in
  if str_eqb mitigation "No Mitigation" then Ok (h, false)
  else
    relationship ← get_node_relationship (h self) (h other);
    if str_eqb mitigation "Power Control" then
      match relationship with
      | rel_opposite => Ok (scale_both h self other 0.7%float, true)
      | _ => Ok (h, false)
      end
    else if str_eqb mitigation "Beamforming" then
      match relationship with
      | rel_opposite => Ok (scale_both h self other 0.7%float, true)
      | _ => Ok (h, false)
      end
    else if str_eqb mitigation "Combination" then
      match relationship with
      | rel_opposite => Ok (scale_both h self other 0.7%float, true)
      | rel_adjacent => Ok (scale_both h self other 0.5%float, true)
      | _ => Ok (h, false)
      end
    else if str_eqb mitigation "Frequency Hopping" then Ok (h, false)
    else Ok (h, false).

End WithEnvironment.

(** ** core/metrics.py: the counters the engine writes *)

Module MetricsCollector.
Record t : Type := mk {
  coord_queries : float;
  requests_total : Z;
  requests_denied : Z;
  quality_sum : float;
  quality_count : Z;
  avg_quality_sum : float;
  avg_quality_count : Z
}.

(** [MetricsCollector.__init__] *)
Definition init : t := mk 0%float 0 0 0%float 0 0%float 0.

Definition add_quality_measurement (quality : float) (s : t) : t :=
  mk (coord_queries s) (requests_total s) (requests_denied s)
     (quality_sum s + quality)%float (quality_count s + 1)
     (avg_quality_sum s + quality)%float (avg_quality_count s + 1).

Definition add_coord_queries (cost : float) (s : t) : t :=
  mk (coord_queries s + cost)%float (requests_total s) (requests_denied s)
     (quality_sum s) (quality_count s) (avg_quality_sum s) (avg_quality_count s).

Definition incr_requests_total (s : t) : t :=
  mk (coord_queries s) (requests_total s + 1) (requests_denied s)
     (quality_sum s) (quality_count s) (avg_quality_sum s) (avg_quality_count s).

Definition incr_requests_denied (s : t) : t :=
  mk (coord_queries s) (requests_total s) (requests_denied s + 1)
     (quality_sum s) (quality_count s) (avg_quality_sum s) (avg_quality_count s).

(** [final_report]'s [Blocking_Prob], [requests_denied / max(1, requests_total)],
    as the exact quotient that the interpreter rounds to the nearest float. *)
Definition blocking_prob (s : t) : Q :=
  Qmake (requests_denied s) (Z.to_pos (Z.max 1 (requests_total s))).
End MetricsCollector.

(** ** models/request.py *)

(** What [add_trace] records: which message, about which assignment. *)
Inductive trace_event : Type :=
| Arrived
| Preempted (assignment_id : Z)
| ConflictRemains (assignment_id : Z)
| HigherPriorityNotMitigated (assignment_id : Z)
| Mitigated (assignment_id : Z)
| NotMitigated (assignment_id : Z)
| Granted (tick freq_start freq_end : Z)
| Denied (tick : Z).

Module SpectrumRequest.
Record t : Type := mk {
  req_id : Z;
  arrival_time : Z;
  node_id : Z;
  requested_bw : Z;
  device_type : string;
  is_assigned : bool;
  reject_reason : option string;
  trace : list trace_event;
  assigned_freq : option (Z * Z)
}.

(** [SpectrumRequest.__init__] *)
Definition init (req_id arrival_time node_id requested_bw : Z) (device_type : string) : t :=
  mk req_id arrival_time node_id requested_bw device_type false None [] None.

Definition granted (tr : list trace_event) (freq : Z * Z) (r : t) : t :=
  mk (req_id r) (arrival_time r) (node_id r) (requested_bw r) (device_type r)
     true None tr (Some freq).

Definition denied (tr : list trace_event) (r : t) : t :=
  mk (req_id r) (arrival_time r) (node_id r) (requested_bw r) (device_type r)
     false (Some "conflict or no candidates") tr (assigned_freq r).
End SpectrumRequest.

(** ** The [random] module

    The generator is the sequence of the draws it will deliver.
    [_randbelow(n)] takes the next draw modulo [n]; [random() < 0.5] holds
    when the next draw is even. *)
Definition rng : Type := list nat.

Definition randbelow (n : nat) (g : rng) : nat * rng :=
  match g with
  | [] => (0%nat, [])
  | x :: g' => (x `mod` n, g')%nat
  end.

Definition random_lt_half (g : rng) : bool * rng :=
  match g with
  | [] => (false, [])
  | x :: g' => (Nat.even x, g')
  end.

Definition swap {A : Type} (l : list A) (i j : nat) : list A :=
  match l !! i, l !! j with
  | Some a, Some b => <[j := a]> (<[i := b]> l)
  | _, _ => l
  end.

(** [random.shuffle]: for [i] from [len(x) - 1] down to [1], swap [x[i]]
    with [x[randbelow(i + 1)]]. *)
Fixpoint shuffle_from {A : Type} (i : nat) (l : list A) (g : rng) : list A * rng :=
  match i with
  | O => (l, g)
  | S i' => let '(j, g') := randbelow (S i) g in shuffle_from i' (swap l i j) g'
  end.

Definition shuffle {A : Type} (l : list A) (g : rng) : list A * rng :=
  shuffle_from (length l - 1) l g.

(** ** core/spectrum_manager.py *)

Module SpectrumManager.
Record t : Type := mk {
  (** the [Assignment] objects created so far *)
  objects : heap;
  next_loc : loc;
  (** [self.active] *)
  active : list loc;
  (** [self.square_to_assignments], a [defaultdict(list)] that the code
      only ever subscripts: the list found at each square *)
  square_to_assignments : Z -> list loc;
  next_assignment_id : Z;
  mitigated_conflicts : gset (Z * Z);
  metrics : MetricsCollector.t
}.

Definition with_objects (h : heap) (m : t) : t :=
  mk h (next_loc m) (active m) (square_to_assignments m) (next_assignment_id m)
     (mitigated_conflicts m) (metrics m).

Definition with_store (act : list loc) (idx : Z -> list loc) (m : t) : t :=
  mk (objects m) (next_loc m) act idx (next_assignment_id m)
     (mitigated_conflicts m) (metrics m).

Definition with_metrics (s : MetricsCollector.t) (m : t) : t :=
  mk (objects m) (next_loc m) (active m) (square_to_assignments m) (next_assignment_id m)
     (mitigated_conflicts m) s.

Definition with_mitigated (c : gset (Z * Z)) (m : t) : t :=
  mk (objects m) (next_loc m) (active m) (square_to_assignments m) (next_assignment_id m)
     c (metrics m).

Definition incr_next_assignment_id (m : t) : t :=
  mk (objects m) (next_loc m) (active m) (square_to_assignments m) (next_assignment_id m + 1)
     (mitigated_conflicts m) (metrics m).

(** A newly constructed [Assignment] object. *)
Definition alloc (a : Assignment.t) (m : t) : loc * t :=
  (next_loc m,
   mk (fun l => if Nat.eqb l (next_loc m) then a else objects m l) (S (next_loc m))
      (active m) (square_to_assignments m) (next_assignment_id m)
      (mitigated_conflicts m) (metrics m)).

(** [SpectrumManager.__init__] around a given metrics collector; no
    object exists yet, so the content of the heap is immaterial. *)
Definition init (s : MetricsCollector.t) : t :=
  mk (fun _ => Assignment.mk 0 0 0 0 "" 1%float None 0) 0%nat [] (fun _ => []) 0 ∅ s.
End SpectrumManager.
Import SpectrumManager.

Definition index_set (idx : Z -> list loc) (square : Z) (v : list loc) : Z -> list loc :=
  fun s => if s =? square then v else idx s.

Section Engine.
Variable environment : Environment.t.
Variable arch_policy : ArchitecturePolicy.t.
(** The order in which the interpreter iterates the set [neighbor_ids],
    given its elements. *)
Variable set_order : list Z -> list Z.

Definition query_interval : num :=
  if str_eqb (licensing_mode arch_policy) "Manual" then Inf
  else if str_eqb (licensing_mode arch_policy) "Semi-Dynamic" then Fin 1440
  else Fin 1.

Definition initial_query_cost : float :=
  if str_eqb (coordination_mode arch_policy) "Centralized" then 1.0%float
  else if str_eqb (coordination_mode arch_policy) "Decentralized" then 0.5%float
  else 0.75%float.

Definition renewal_query_cost : float := 0.5%float.

Definition band_partitions : gmap string (Z * Z) :=
  if str_eqb (priority_mode arch_policy) "Exclusive" then
    let total_band := TOTAL_BANDWIDTH_MHZ in
    <["5G" := (FREQ_BASE_MHZ, FREQ_BASE_MHZ + total_band / 3)]>
    (<["IoT" := (FREQ_BASE_MHZ + total_band / 3, FREQ_BASE_MHZ + 2 * (total_band / 3))]>
    (<["Federal" := (FREQ_BASE_MHZ + 2 * (total_band / 3), FREQ_BASE_MHZ + total_band)]> ∅))
  else ∅.

Definition _add_assignment (m : SpectrumManager.t) (assignment : loc) : result SpectrumManager.t :=
  let act := active m ++ [assignment] in
  node ← py_index (Environment.nodes environment) (Assignment.node_id (objects m assignment));
  Ok (with_store act
        (fold_left (fun idx square => index_set idx square (idx square ++ [assignment]))
                   (Node.covered_squares node) (square_to_assignments m))
        m).

Definition _remove_assignment (m : SpectrumManager.t) (assignment : loc)
    : result SpectrumManager.t :=
  let h := objects m in
  let act := if py_in h assignment (active m) then py_remove h assignment (active m)
             else active m in
  node ← py_index (Environment.nodes environment) (Assignment.node_id (h assignment));
  Ok (with_store act
        (fold_left (fun idx square =>
                      if py_in h assignment (idx square)
                      then index_set idx square (py_remove h assignment (idx square))
                      else idx)
                   (Node.covered_squares node) (square_to_assignments m))
        m).

Definition _get_priority_tier (device_type : string) : Z :=
  if str_eqb (priority_mode arch_policy) "Hierarchical" then
    if str_eqb device_type "Federal" then 0
    else if str_eqb device_type "5G" then 1
    else 2
  else 0.

(** The blocks [(start, start + block_size)] that the [while] loop appends:
    one for each multiple of [block_size] that leaves room for a block. *)
Definition blocks_between (block_size lo hi : Z) : list (Z * Z) :=
  map (fun k => (lo + k * block_size, lo + k * block_size + block_size))
      (range ((hi - lo) / block_size)).

Definition channel_runs (channel_size num_channels channels lo hi : Z) : list (Z * Z) :=
  flat_map (fun start_ch =>
              let freq_start := lo + start_ch * channel_size in
              let freq_end := freq_start + num_channels * channel_size in
              if freq_end <=? hi then [(freq_start, freq_end)] else [])
           (range (channels - num_channels + 1)).

Definition slices (requested_bw lo hi : Z) : list (Z * Z) :=
  map (fun freq_start => (freq_start, freq_start + requested_bw))
      (range2 lo (hi - requested_bw + 1)).

(** The candidates before [random.shuffle]. *)
Definition frequency_candidates (request : SpectrumRequest.t) : list (Z * Z) :=
  let requested_bw := SpectrumRequest.requested_bw request in
  let exclusive := str_eqb (priority_mode arch_policy) "Exclusive" in
  let part := band_partitions !! SpectrumRequest.device_type request in
  if str_eqb (freq_plan arch_policy) "Large Blocks" then
    let block_size := 200 in
    if exclusive then
      match part with
      | Some (lo, hi) => blocks_between block_size lo hi
      | None => []
      end
    else blocks_between block_size FREQ_BASE_MHZ (FREQ_BASE_MHZ + TOTAL_BANDWIDTH_MHZ)
  else if str_eqb (freq_plan arch_policy) "Sub Channels" then
    let channel_size := 40 in
    let num_channels := (requested_bw + channel_size - 1) / channel_size in
    let total_channels := TOTAL_BANDWIDTH_MHZ / channel_size in
    if exclusive then
      match part with
      | Some (lo, hi) =>
        channel_runs channel_size num_channels ((hi - lo) / channel_size) lo hi
      | None => []
      end
    else channel_runs channel_size num_channels total_channels
           FREQ_BASE_MHZ (FREQ_BASE_MHZ + TOTAL_BANDWIDTH_MHZ)
  else
    if exclusive then
      match part with
      | Some (lo, hi) => slices requested_bw lo hi
      | None => []
      end
    else slices requested_bw FREQ_BASE_MHZ (FREQ_BASE_MHZ + TOTAL_BANDWIDTH_MHZ).

Definition _generate_frequency_candidates (request : SpectrumRequest.t) (g : rng)
    : list (Z * Z) * rng :=
  shuffle (frequency_candidates request) g.

(** Centralized scope: every list of the index that some node's square
    reaches, in the order of the nodes. *)
Definition centralized_scope (m : SpectrumManager.t) : list loc :=
  flat_map (fun n => flat_map (square_to_assignments m) (Node.covered_squares n))
           (Environment.nodes environment).

(** One pass of the innermost decentralized loop: the assignments of a
    square made by node [n_id] that were not collected before. *)
Definition collect_own (m : SpectrumManager.t) (n_id : Z) (acc : list loc) (l : list loc)
    : list loc :=
  fold_left (fun acc assignment =>
               if (Assignment.node_id (objects m assignment) =? n_id)
                  && negb (existsb (Nat.eqb assignment) acc)
               then acc ++ [assignment] else acc)
            l acc.

Fixpoint decentralized_collect (m : SpectrumManager.t) (neighbor_ids : list Z)
    (acc : list loc) : result (list loc) :=
  match neighbor_ids with
  | [] => Ok acc
  | n_id :: rest =>
    n ← py_index (Environment.nodes environment) n_id;
    decentralized_collect m rest
      (fold_left (fun acc square => collect_own m n_id acc (square_to_assignments m square))
                 (Node.covered_squares n) acc)
  end.

(** Decentralized scope: the assignments made by the requesting node and
    by its direct neighbours. *)
Definition decentralized_scope (m : SpectrumManager.t) (node_id : Z) : result (list loc) :=
  neighbors ← get_neighbors environment node_id;
  decentralized_collect m (set_order (remove_dups (node_id :: neighbors))) [].

(** The re-check after a preemption: the first assignment of the list that
    still conflicts with the candidate. *)
Fixpoint first_conflict (h : heap) (temp : loc) (l : list loc) : result (option loc) :=
  match l with
  | [] => Ok None
  | other :: l' =>
    c ← conflicts_with environment (h temp) (h other);
    if c : bool then Ok (Some other) else first_conflict h temp l'
  end.

(** Lines [Preempt the lower-priority assignment] to the re-check: the
    manager without [assignment], the trace, and whether a conflict remains. *)
Definition preempt (possible_conflicts : list loc) (temp assignment : loc)
    (m : SpectrumManager.t) (tr : list trace_event)
    : result (SpectrumManager.t * list trace_event * bool) :=
  m' ← _remove_assignment m assignment;
  let tr' := tr ++ [Preempted (Assignment.assignment_id (objects m assignment))] in
  let possible_conflicts_updated :=
    List.filter (fun a => negb (py_eq (objects m') a assignment)) possible_conflicts in
  still ← first_conflict (objects m') temp possible_conflicts_updated;
  match still with
  | Some other =>
    Ok (m', tr' ++ [ConflictRemains (Assignment.assignment_id (objects m' other))], true)
  | None => Ok (m', tr', false)
  end.

Definition sorted_pair (a b : Z) : Z * Z := if a <=? b then (a, b) else (b, a).

(** The loop over [possible_conflicts] for one candidate: the manager and
    the trace when the loop ends, and the flag [conflict]. *)
Fixpoint check_conflicts (possible_conflicts : list loc) (temp : loc)
    (todo seen : list loc) (m : SpectrumManager.t) (tr : list trace_event)
    : result (SpectrumManager.t * list trace_event * bool) :=
  match todo with
  | [] => Ok (m, tr, false)
  | assignment :: todo' =>
    if existsb (Nat.eqb assignment) seen
    then check_conflicts possible_conflicts temp todo' seen m tr
    else
      let seen' := assignment :: seen in
      match conflicts_with environment (objects m temp) (objects m assignment) with
      | Raise e => Raise e
      | Ok false => check_conflicts possible_conflicts temp todo' seen' m tr
      | Ok true =>
        let temp_priority := Assignment.priority_tier (objects m temp) in
        let other_priority := Assignment.priority_tier (objects m assignment) in
        let other_id := Assignment.assignment_id (objects m assignment) in
        let hierarchical := str_eqb (priority_mode arch_policy) "Hierarchical" in
        if hierarchical && (temp_priority <? other_priority) then
          match preempt possible_conflicts temp assignment m tr with
          | Raise e => Raise e
          | Ok (m', tr', true) => Ok (m', tr', true)
          | Ok (m', tr', false) => check_conflicts possible_conflicts temp todo' seen' m' tr'
          end
        else if hierarchical && (temp_priority >? other_priority) then
          Ok (m, tr ++ [HigherPriorityNotMitigated other_id], true)
        else
          match (if negb (str_eqb (interference_mitigation arch_policy) "No Mitigation")
                 then apply_mitigation environment arch_policy (objects m) temp assignment
                 else Ok (objects m, false)) with
          | Raise e => Raise e
          | Ok (h', true) =>
            let m' := with_mitigated
                        ({[sorted_pair (Assignment.assignment_id (h' temp))
                                       (Assignment.assignment_id (h' assignment))]}
                         ∪ mitigated_conflicts m)
                        (with_objects h' m) in
            check_conflicts possible_conflicts temp todo' seen' m' (tr ++ [Mitigated other_id])
          | Ok (h', false) =>
            let m1 := with_objects h' m in
            if temp_priority <? other_priority then
              match preempt possible_conflicts temp assignment m1 tr with
              | Raise e => Raise e
              | Ok (m', tr', true) => Ok (m', tr', true)
              | Ok (m', tr', false) =>
                check_conflicts possible_conflicts temp todo' seen' m' tr'
              end
            else if temp_priority >? other_priority then
              Ok (m1, tr ++ [HigherPriorityNotMitigated other_id], true)
            else Ok (m1, tr ++ [NotMitigated other_id], true)
          end
      end
  end.

(** [possible_conflicts] for a candidate. *)
Definition possible_conflicts_of (use_centralized : bool) (m : SpectrumManager.t)
    (node_id : Z) : result (list loc) :=
  if use_centralized then Ok (centralized_scope m) else decentralized_scope m node_id.

(** The loop over the candidates of one request: the manager and the trace
    at its end, and the interval granted, if one was.  ([preempted_assignment]
    is [None] throughout the source, so the removal it guards never runs.) *)
Fixpoint try_candidates (request : SpectrumRequest.t) (current_tick : Z)
    (use_centralized : bool) (candidates : list (Z * Z))
    (m : SpectrumManager.t) (tr : list trace_event)
    : result (SpectrumManager.t * list trace_event * option (Z * Z)) :=
  match candidates with
  | [] => Ok (m, tr, None)
  | (freq_start, freq_end) :: rest =>
    let outside :=
      if str_eqb (priority_mode arch_policy) "Exclusive" then
        match band_partitions !! SpectrumRequest.device_type request with
        | Some (lo, hi) => negb ((lo <=? freq_start) && (freq_end <=? hi))
        | None => false
        end
      else false in
    if outside then try_candidates request current_tick use_centralized rest m tr
    else
      let new_assignment next_check :=
        Assignment.mk (next_assignment_id m) (SpectrumRequest.node_id request)
          freq_start freq_end (SpectrumRequest.device_type request) 1%float next_check
          (_get_priority_tier (SpectrumRequest.device_type request)) in
      let '(temp, m1) := alloc (new_assignment None) m in
      match py_index (Environment.nodes environment) (SpectrumRequest.node_id request) with
      | Raise e => Raise e
      | Ok _ =>
        match possible_conflicts_of use_centralized m1 (SpectrumRequest.node_id request) with
        | Raise e => Raise e
        | Ok possible_conflicts =>
          match check_conflicts possible_conflicts temp possible_conflicts [] m1 tr with
          | Raise e => Raise e
          | Ok (m2, tr2, true) =>
            try_candidates request current_tick use_centralized rest m2 tr2
          | Ok (m2, tr2, false) =>
            let '(granted, m3) :=
              match query_interval with
              | Inf => (temp, m2)
              | Fin _ => alloc (new_assignment (Some (num_add current_tick query_interval))) m2
              end in
            match _add_assignment m3 granted with
            | Raise e => Raise e
            | Ok m4 =>
              let s := MetricsCollector.add_quality_measurement
                         (Assignment.quality (objects m4 granted))
                         (MetricsCollector.add_coord_queries initial_query_cost
                            (MetricsCollector.incr_requests_total (metrics m4))) in
              Ok (with_metrics s (incr_next_assignment_id m4),
                  tr2 ++ [Granted current_tick freq_start freq_end],
                  Some (freq_start, freq_end))
            end
          end
        end
      end
  end.

(** One iteration of [process_arrivals]. *)
Definition process_request (request : SpectrumRequest.t) (current_tick : Z)
    (m : SpectrumManager.t) (g : rng)
    : result (SpectrumManager.t * SpectrumRequest.t * rng) :=
  let mode := coordination_mode arch_policy in
  let tr := SpectrumRequest.trace request ++ [Arrived] in
  let '(candidates, g1) := _generate_frequency_candidates request g in
  let '(use_centralized, g2) :=
    if str_eqb mode "Hybrid" then random_lt_half g1
    else (str_eqb mode "Centralized", g1) in
  '(m', tr', outcome) ← try_candidates request current_tick use_centralized candidates m tr;
  match outcome with
  | Some freq => Ok (m', SpectrumRequest.granted tr' freq request, g2)
  | None =>
    let s := MetricsCollector.incr_requests_denied
               (MetricsCollector.incr_requests_total (metrics m')) in
    Ok (with_metrics s m', SpectrumRequest.denied (tr' ++ [Denied current_tick]) request, g2)
  end.

Fixpoint process_arrivals (requests : list SpectrumRequest.t) (current_tick : Z)
    (m : SpectrumManager.t) (g : rng)
    : result (SpectrumManager.t * list SpectrumRequest.t * rng) :=
  match requests with
  | [] => Ok (m, [], g)
  | request :: rest =>
    '(m1, request', g1) ← process_request request current_tick m g;
    '(m2, rest', g2) ← process_arrivals rest current_tick m1 g1;
    Ok (m2, request' :: rest', g2)
  end.

(** The loop of [renew_assignments] over [possible_conflicts] for one
    assignment under review: the heap at its end and the flag [conflict]. *)
Fixpoint renew_check (assignment : loc) (todo seen : list loc) (h : heap)
    : result (heap * bool) :=
  match todo with
  | [] => Ok (h, false)
  | other :: todo' =>
    if Nat.eqb other assignment || existsb (Nat.eqb other) seen
    then renew_check assignment todo' seen h
    else
      let seen' := other :: seen in
      match conflicts_with environment (h assignment) (h other) with
      | Raise e => Raise e
      | Ok false => renew_check assignment todo' seen' h
      | Ok true =>
        match apply_mitigation environment arch_policy h assignment other with
        | Raise e => Raise e
        | Ok (h', true) => renew_check assignment todo' seen' h'
        | Ok (h', false) => Ok (h', true)
        end
      end
  end.

(** The assignment is reviewed at [current_tick]: its [next_check_tick] is
    not [None] and equals [current_tick]. *)
Definition is_due (current_tick : Z) (a : Assignment.t) : bool :=
  match Assignment.next_check_tick a with
  | None => false
  | Some n => num_eqb n (Fin current_tick)
  end.

(** The main loop of [renew_assignments] over [list(self.active)]: the
    manager at its end and [assignments_to_remove]. *)
Fixpoint renew_loop (current_tick : Z) (snapshot : list loc)
    (m : SpectrumManager.t) (assignments_to_remove : list loc)
    : result (SpectrumManager.t * list loc) :=
  match snapshot with
  | [] => Ok (m, assignments_to_remove)
  | assignment :: rest =>
    if negb (is_due current_tick (objects m assignment))
    then renew_loop current_tick rest m assignments_to_remove
    else
      match py_index (Environment.nodes environment)
              (Assignment.node_id (objects m assignment)) with
      | Raise e => Raise e
      | Ok node =>
        let possible_conflicts :=
          flat_map (square_to_assignments m) (Node.covered_squares node) in
        match renew_check assignment possible_conflicts [] (objects m) with
        | Raise e => Raise e
        | Ok (h', false) =>
          let h'' := heap_update h' assignment
                       (Assignment.set_next_check_tick
                          (Some (num_add current_tick query_interval))) in
          let s := if str_eqb (licensing_mode arch_policy) "Dynamic" then metrics m
                   else MetricsCollector.add_coord_queries renewal_query_cost (metrics m) in
          renew_loop current_tick rest (with_metrics s (with_objects h'' m))
            assignments_to_remove
        | Ok (h', true) =>
          renew_loop current_tick rest
            (with_metrics (MetricsCollector.incr_requests_denied (metrics m))
               (with_objects h' m))
            (assignments_to_remove ++ [assignment])
        end
      end
  end.

Fixpoint remove_all (l : list loc) (m : SpectrumManager.t) : result SpectrumManager.t :=
  match l with
  | [] => Ok m
  | assignment :: l' => m' ← _remove_assignment m assignment; remove_all l' m'
  end.

Definition renew_assignments (current_tick : Z) (m : SpectrumManager.t)
    : result SpectrumManager.t :=
  let is_dynamic := str_eqb (licensing_mode arch_policy) "Dynamic" in
  let s := if is_dynamic
           then fold_left (fun s _ => MetricsCollector.add_coord_queries renewal_query_cost s)
                          (active m) (metrics m)
           else metrics m in
  '(m', assignments_to_remove) ← renew_loop current_tick (active m) (with_metrics s m) [];
  remove_all assignments_to_remove m'.

End Engine.

(** * Properties *)

(** ** Feasibility of architecture policies *)

Lemma str_eqb_true (a b : string) : str_eqb a b = true <-> a = b.
Proof. apply String.eqb_eq. Qed.

Lemma str_eqb_false (a b : string) : str_eqb a b = false <-> a <> b.
Proof. apply String.eqb_neq. Qed.

Lemma str_eqb_refl (a : string) : str_eqb a a = true.
Proof. apply String.eqb_refl. Qed.

Lemma exclusive_infeasible (arch : ArchitecturePolicy.t) :
  priority_mode arch = "Exclusive" ->
  licensing_mode arch <> "Manual" \/ coordination_mode arch <> "Centralized" ->
  is_feasible arch = false.
Proof.
  intros Hp Hor. unfold is_feasible.
  repeat (match goal with
          | |- (if ?b then false else _) = false => destruct b eqn:?; [reflexivity|]
          end).
  rewrite Hp, str_eqb_refl in *.
  destruct Hor as [H | H]; apply str_eqb_false in H; rewrite H in *;
    simpl in *; try rewrite orb_true_r in *; discriminate.
Qed.

Lemma feasible_exclusive (arch : ArchitecturePolicy.t) :
  is_feasible arch = true ->
  priority_mode arch = "Exclusive" ->
  licensing_mode arch = "Manual" /\ coordination_mode arch = "Centralized".
Proof.
  intros Hf Hp.
  destruct (str_eqb (licensing_mode arch) "Manual") eqn:Hl;
    destruct (str_eqb (coordination_mode arch) "Centralized") eqn:Hc.
  - split; apply str_eqb_true; assumption.
  - rewrite exclusive_infeasible in Hf; [discriminate | assumption |].
    right. apply str_eqb_false. assumption.
  - rewrite exclusive_infeasible in Hf; [discriminate | assumption |].
    left. apply str_eqb_false. assumption.
  - rewrite exclusive_infeasible in Hf; [discriminate | assumption |].
    left. apply str_eqb_false. assumption.
Qed.

(** C7.  A policy with Exclusive priority whose licensing is not Manual or
    whose coordination is not Centralized is infeasible;
    [get_architecture_by_name] rejects it with a [ValueError] that names the
    combination, and returns every other policy only when [is_feasible]
    accepts it; every policy that [is_feasible] accepts, and every policy
    that [generate_all_architectures] keeps, has Manual licensing and
    Centralized coordination when its priority is Exclusive. *)
Theorem exclusive_priority_requires_manual_centralized :
  (forall arch : ArchitecturePolicy.t,
     priority_mode arch = "Exclusive" ->
     licensing_mode arch <> "Manual" \/ coordination_mode arch <> "Centralized" ->
     is_feasible arch = false)
  /\ (forall c l f i s p e : string,
        l <> "Manual" \/ c <> "Centralized" ->
        get_architecture_by_name c l f i s p e "Exclusive"
        = Raise (ValueError ("Infeasible architecture combination: "
                             +:+ ArchitecturePolicy_repr
                                   (ArchitecturePolicy.mk c l f i s p e "Exclusive"))))
  /\ (forall (c l f i s p e pr : string) (arch : ArchitecturePolicy.t),
        get_architecture_by_name c l f i s p e pr = Ok arch ->
        arch = ArchitecturePolicy.mk c l f i s p e pr /\ is_feasible arch = true)
  /\ (forall arch : ArchitecturePolicy.t,
        is_feasible arch = true ->
        priority_mode arch = "Exclusive" ->
        licensing_mode arch = "Manual" /\ coordination_mode arch = "Centralized")
  /\ Forall (fun arch => priority_mode arch = "Exclusive" ->
                         licensing_mode arch = "Manual"
                         /\ coordination_mode arch = "Centralized")
            (generate_all_architectures true).
Proof.
  split; [exact exclusive_infeasible|].
  split.
  { intros c l f i s p e Hor. unfold get_architecture_by_name.
    rewrite exclusive_infeasible; [reflexivity | reflexivity | exact Hor]. }
  split.
  { intros c l f i s p e pr arch. unfold get_architecture_by_name.
    destruct (is_feasible _) eqn:Hf; simpl; [|discriminate].
    intros [= <-]. split; [reflexivity | exact Hf]. }
  split; [exact feasible_exclusive|].
  unfold generate_all_architectures. apply List.Forall_forall.
  intros arch Hin. apply List.filter_In in Hin. destruct Hin as [_ Hf].
  apply feasible_exclusive. exact Hf.
Qed.

(** A rejected construction, evaluated. *)
Example exclusive_decentralized_rejected :
  get_architecture_by_name "Decentralized" "Manual" "Large Blocks" "No Mitigation"
    "Database Only" "No Cost" "Active" "Exclusive"
  = Raise (ValueError
      "Infeasible architecture combination: <ArchitecturePolicy coord=Decentralized, lic=Manual, freq=Large Blocks, int_mitg=No Mitigation, sensing=Database Only, pricing=No Cost, enforce=Active, prio=Exclusive>").
Proof. reflexivity. Qed.

(** The policy of tests/test_exclusive_partition.py is accepted. *)
Example exclusive_centralized_manual_accepted :
  get_architecture_by_name "Centralized" "Manual" "Large Blocks" "No Mitigation"
    "Database Only" "No Cost" "Active" "Exclusive"
  = Ok (ArchitecturePolicy.mk "Centralized" "Manual" "Large Blocks" "No Mitigation"
          "Database Only" "No Cost" "Active" "Exclusive").
Proof. reflexivity. Qed.

(** ** Interference mitigation *)

(** The 1-square grid of the tests: four nodes around one square. *)
Definition grid1 : Environment.t := Environment_init 1 1.

(** A fresh lease: quality 1.0, no renewal. *)
Definition lease (assignment_id node_id freq_start freq_end : Z) (device_type : string)
    (priority_tier : Z) : Assignment.t :=
  Assignment.mk assignment_id node_id freq_start freq_end device_type 1%float None priority_tier.

(** The heap whose object [i] is the [i]-th element of a list. *)
Definition heap_of (l : list Assignment.t) : heap :=
  fun i => nth i l (lease 0 0 0 0 "" 0).

Definition policy_with (mitigation priority licensing freq_plan : string)
    : ArchitecturePolicy.t :=
  ArchitecturePolicy.mk "Centralized" licensing freq_plan mitigation
    "Device Based" "No Cost" "Active" priority.

Lemma scale_both_self (h : heap) (self other : loc) (f : float) :
  self <> other ->
  scale_both h self other f self
  = Assignment.set_quality (Assignment.quality (h self) * f)%float (h self).
Proof.
  intros Hne. unfold scale_both, heap_update.
  destruct (Nat.eqb_spec self other) as [->|_]; [contradiction|].
  rewrite Nat.eqb_refl. reflexivity.
Qed.

Lemma scale_both_other (h : heap) (self other : loc) (f : float) :
  self <> other ->
  scale_both h self other f other
  = Assignment.set_quality (Assignment.quality (h other) * f)%float (h other).
Proof.
  intros Hne. unfold scale_both, heap_update.
  rewrite Nat.eqb_refl.
  destruct (Nat.eqb_spec other self) as [->|_]; [contradiction|]. reflexivity.
Qed.

Lemma scale_both_frame (h : heap) (self other l : loc) (f : float) :
  l <> self -> l <> other -> scale_both h self other f l = h l.
Proof.
  intros H1 H2. unfold scale_both, heap_update.
  destruct (Nat.eqb_spec l other) as [->|_]; [contradiction|].
  destruct (Nat.eqb_spec l self) as [->|_]; [contradiction|]. reflexivity.
Qed.

(** What [apply_mitigation] returns, by strategy and relationship. *)
Lemma apply_mitigation_table (environment : Environment.t) (arch_policy : ArchitecturePolicy.t)
    (h : heap) (self other : loc) (r : relationship) :
  interference_mitigation arch_policy <> "No Mitigation" ->
  get_node_relationship environment (h self) (h other) = Ok r ->
  apply_mitigation environment arch_policy h self other
  = let mitigation := interference_mitigation arch_policy in
    match r with
    | rel_opposite =>
      if str_eqb mitigation "Power Control" || str_eqb mitigation "Beamforming"
         || str_eqb mitigation "Combination"
      then Ok (scale_both h self other 0.7%float, true) else Ok (h, false)
    | rel_adjacent =>
      if negb (str_eqb mitigation "Power Control") && negb (str_eqb mitigation "Beamforming")
         && str_eqb mitigation "Combination"
      then Ok (scale_both h self other 0.5%float, true) else Ok (h, false)
    | _ => Ok (h, false)
    end.
Proof.
  intros Hno Hr. unfold apply_mitigation.
  apply str_eqb_false in Hno. rewrite Hno, Hr. cbn.
  set (mitigation := interference_mitigation arch_policy).
  destruct (str_eqb mitigation "Power Control"), (str_eqb mitigation "Beamforming"),
    (str_eqb mitigation "Combination"), (str_eqb mitigation "Frequency Hopping"), r;
    reflexivity.
Qed.

(** C1, counterexample.  On the 1-square grid nodes 0 and 3 are opposite.
    Under Beamforming two leases of equal tier coexist with both qualities
    multiplied by 0.7, which is not 0.8 times the original; under Power
    Control two leases of unequal tiers coexist as well, neither side being
    terminated. *)
Lemma beamforming_factor_and_unequal_tiers :
  let h := heap_of [lease 0 0 37000 37060 "5G" 0; lease 1 3 37000 37060 "5G" 0] in
  let h2 := heap_of [lease 0 0 37000 37060 "5G" 1; lease 1 3 37000 37060 "IoT" 2] in
  get_node_relationship grid1 (h 0%nat) (h 1%nat) = Ok rel_opposite
  /\ (exists h',
        apply_mitigation grid1 (policy_with "Beamforming" "Co-Primary" "Manual" "Freq Slicing")
          h 0%nat 1%nat = Ok (h', true)
        /\ Assignment.quality (h' 0%nat) = 0.7%float
        /\ Assignment.quality (h' 1%nat) = 0.7%float
        /\ PrimFloat.eqb (Assignment.quality (h' 0%nat))
             (0.8 * Assignment.quality (h 0%nat))%float = false)
  /\ (exists h',
        apply_mitigation grid1 (policy_with "Power Control" "Hierarchical" "Dynamic" "Freq Slicing")
          h2 0%nat 1%nat = Ok (h', true)
        /\ Assignment.quality (h' 0%nat) = 0.7%float
        /\ Assignment.quality (h' 1%nat) = 0.7%float).
Proof.
  cbv zeta. split; [reflexivity|]. split.
  - eexists. split; [reflexivity|]. repeat split; reflexivity.
  - eexists. split; [reflexivity|]. repeat split; reflexivity.
Qed.

(** C1, amended.  Under Power Control and under Beamforming, whatever the
    two priority tiers: when the nodes are opposite the call returns [True]
    and has multiplied the quality of both sides by 0.7, every other field
    and every other object being left as it was; for every other
    relationship (adjacent, same, none) it returns [False] and changes
    nothing.  No side is terminated on any path. *)
Theorem power_control_beamforming_mitigation
    (environment : Environment.t) (arch_policy : ArchitecturePolicy.t)
    (h : heap) (self other : loc) (r : relationship) :
  interference_mitigation arch_policy = "Power Control"
  \/ interference_mitigation arch_policy = "Beamforming" ->
  self <> other ->
  get_node_relationship environment (h self) (h other) = Ok r ->
  match r with
  | rel_opposite =>
    exists h',
      apply_mitigation environment arch_policy h self other = Ok (h', true)
      /\ h' self = Assignment.set_quality (Assignment.quality (h self) * 0.7)%float (h self)
      /\ h' other = Assignment.set_quality (Assignment.quality (h other) * 0.7)%float (h other)
      /\ (forall l, l <> self -> l <> other -> h' l = h l)
  | _ => apply_mitigation environment arch_policy h self other = Ok (h, false)
  end.
Proof.
  intros Hm Hne Hr.
  assert (Hno : interference_mitigation arch_policy <> "No Mitigation")
    by (destruct Hm as [-> | ->]; discriminate).
  rewrite (apply_mitigation_table _ _ _ _ _ _ Hno Hr). cbv zeta.
  destruct Hm as [-> | ->]; destruct r; cbn; try reflexivity;
    (eexists; split; [reflexivity|]; split; [|split]);
    auto using scale_both_self, scale_both_other, scale_both_frame.
Qed.

Lemma power_control_beamforming_mitigation_witness :
  let h := heap_of [lease 0 0 37000 37060 "5G" 1; lease 1 3 37000 37060 "IoT" 2] in
  let p := policy_with "Beamforming" "Hierarchical" "Dynamic" "Freq Slicing" in
  exists h',
    apply_mitigation grid1 p h 0%nat 1%nat = Ok (h', true)
    /\ h' 0%nat = Assignment.set_quality (Assignment.quality (h 0%nat) * 0.7)%float (h 0%nat)
    /\ h' 1%nat = Assignment.set_quality (Assignment.quality (h 1%nat) * 0.7)%float (h 1%nat)
    /\ (forall l, l <> 0%nat -> l <> 1%nat -> h' l = h l).
Proof.
  cbv zeta.
  apply (power_control_beamforming_mitigation grid1
           (policy_with "Beamforming" "Hierarchical" "Dynamic" "Freq Slicing")
           (heap_of [lease 0 0 37000 37060 "5G" 1; lease 1 3 37000 37060 "IoT" 2])
           0%nat 1%nat rel_opposite).
  - right. reflexivity.
  - discriminate.
  - reflexivity.
Defined.

(** C4, counterexample.  Under Combination, on the 1-square grid and with
    equal tiers: two leases of the same node do not coexist (the call
    returns [False] and changes nothing); two leases of adjacent nodes 0 and
    1 coexist with both qualities multiplied by 0.5, not 0.65; and two
    leases of opposite nodes with unequal tiers coexist with factor 0.7
    instead of failing. *)
Lemma combination_same_adjacent_unequal :
  let p := policy_with "Combination" "Co-Primary" "Manual" "Freq Slicing" in
  let h_same := heap_of [lease 0 0 37000 37060 "5G" 0; lease 1 0 37000 37060 "5G" 0] in
  let h_adj := heap_of [lease 0 0 37000 37060 "5G" 0; lease 1 1 37000 37060 "5G" 0] in
  let h_opp := heap_of [lease 0 0 37000 37060 "5G" 1; lease 1 3 37000 37060 "IoT" 2] in
  (get_node_relationship grid1 (h_same 0%nat) (h_same 1%nat) = Ok rel_same
   /\ exists h', apply_mitigation grid1 p h_same 0%nat 1%nat = Ok (h', false)
                 /\ Assignment.quality (h' 0%nat) = 1%float
                 /\ Assignment.quality (h' 1%nat) = 1%float)
  /\ (get_node_relationship grid1 (h_adj 0%nat) (h_adj 1%nat) = Ok rel_adjacent
      /\ exists h', apply_mitigation grid1 p h_adj 0%nat 1%nat = Ok (h', true)
                    /\ Assignment.quality (h' 0%nat) = 0.5%float
                    /\ Assignment.quality (h' 1%nat) = 0.5%float
                    /\ PrimFloat.eqb (Assignment.quality (h' 0%nat))
                         (0.65 * Assignment.quality (h_adj 0%nat))%float = false)
  /\ (get_node_relationship grid1 (h_opp 0%nat) (h_opp 1%nat) = Ok rel_opposite
      /\ exists h', apply_mitigation grid1 p h_opp 0%nat 1%nat = Ok (h', true)
                    /\ Assignment.quality (h' 0%nat) = 0.7%float
                    /\ Assignment.quality (h' 1%nat) = 0.7%float).
Proof.
  cbv zeta. repeat split; try reflexivity;
    (eexists; split; [reflexivity|]; repeat split; reflexivity).
Qed.

(** C4, amended.  Under Combination, whatever the two priority tiers and
    with no random choice (the result is a function of the heap and the two
    objects): opposite nodes coexist with both qualities multiplied by 0.7,
    adjacent nodes coexist with both qualities multiplied by 0.5, and for
    the same node (or nodes sharing no square) the call returns [False] and
    changes nothing. *)
Theorem combination_mitigation
    (environment : Environment.t) (arch_policy : ArchitecturePolicy.t)
    (h : heap) (self other : loc) (r : relationship) :
  interference_mitigation arch_policy = "Combination" ->
  self <> other ->
  get_node_relationship environment (h self) (h other) = Ok r ->
  let coexist quality_factor :=
    exists h',
      apply_mitigation environment arch_policy h self other = Ok (h', true)
      /\ h' self
         = Assignment.set_quality (Assignment.quality (h self) * quality_factor)%float (h self)
      /\ h' other
         = Assignment.set_quality (Assignment.quality (h other) * quality_factor)%float (h other)
      /\ (forall l, l <> self -> l <> other -> h' l = h l) in
  match r with
  | rel_opposite => coexist 0.7%float
  | rel_adjacent => coexist 0.5%float
  | _ => apply_mitigation environment arch_policy h self other = Ok (h, false)
  end.
Proof.
  intros Hm Hne Hr.
  assert (Hno : interference_mitigation arch_policy <> "No Mitigation")
    by (rewrite Hm; discriminate).
  rewrite (apply_mitigation_table _ _ _ _ _ _ Hno Hr). cbv zeta.
  rewrite Hm. destruct r; cbn; try reflexivity;
    (eexists; split; [reflexivity|]; split; [|split]);
    auto using scale_both_self, scale_both_other, scale_both_frame.
Qed.

Lemma combination_mitigation_witness :
  let h := heap_of [lease 0 0 37000 37060 "5G" 0; lease 1 1 37000 37060 "5G" 0] in
  let p := policy_with "Combination" "Co-Primary" "Manual" "Freq Slicing" in
  exists h',
    apply_mitigation grid1 p h 0%nat 1%nat = Ok (h', true)
    /\ h' 0%nat = Assignment.set_quality (Assignment.quality (h 0%nat) * 0.5)%float (h 0%nat)
    /\ h' 1%nat = Assignment.set_quality (Assignment.quality (h 1%nat) * 0.5)%float (h 1%nat)
    /\ (forall l, l <> 0%nat -> l <> 1%nat -> h' l = h l).
Proof.
  cbv zeta.
  apply (combination_mitigation grid1
           (policy_with "Combination" "Co-Primary" "Manual" "Freq Slicing")
           (heap_of [lease 0 0 37000 37060 "5G" 0; lease 1 1 37000 37060 "5G" 0])
           0%nat 1%nat rel_adjacent).
  - reflexivity.
  - discriminate.
  - reflexivity.
Defined.

(** ** The assignment store *)

(** Every reference held by the per-square index is a reference of
    [active]: the index has no dangling entry. *)
Definition index_sound (m : SpectrumManager.t) : Prop :=
  forall (square : Z) (l : loc), In l (square_to_assignments m square) -> In l (active m).

(** Two managers that hold the same store and differ in nothing else. *)
Definition same_manager (m m' : SpectrumManager.t) : Prop :=
  active m' = active m
  /\ (forall square, square_to_assignments m' square = square_to_assignments m square)
  /\ objects m' = objects m
  /\ next_loc m' = next_loc m
  /\ next_assignment_id m' = next_assignment_id m
  /\ mitigated_conflicts m' = mitigated_conflicts m
  /\ metrics m' = metrics m.

Arguments py_in : simpl never.
Arguments py_eq : simpl never.

Lemma py_eq_refl (h : heap) (x : loc) : py_eq h x x = true.
Proof. unfold py_eq. rewrite Nat.eqb_refl. reflexivity. Qed.

Lemma py_in_incl (h : heap) (x : loc) (l1 l2 : list loc) :
  (forall y, In y l1 -> In y l2) -> py_in h x l2 = false -> py_in h x l1 = false.
Proof.
  intros Hincl H2. unfold py_in in *.
  destruct (existsb _ l1) eqn:E; [|reflexivity].
  apply List.existsb_exists in E. destruct E as [y [Hy E]].
  assert (existsb (fun y => py_eq h y x) l2 = true) as H
    by (apply List.existsb_exists; exists y; auto).
  congruence.
Qed.

Lemma py_in_app_repeat (h : heap) (x : loc) (base : list loc) (n : nat) :
  py_in h x base = false ->
  py_in h x (base ++ repeat x n) = negb (Nat.eqb n 0).
Proof.
  intros Hb. unfold py_in in *. rewrite List.existsb_app, Hb. simpl.
  destruct n; [reflexivity|]. simpl. rewrite py_eq_refl. reflexivity.
Qed.

Lemma py_remove_app_repeat (h : heap) (x : loc) (base : list loc) (n : nat) :
  py_in h x base = false ->
  py_remove h x (base ++ repeat x (S n)) = base ++ repeat x n.
Proof.
  unfold py_in. induction base as [|y base IH]; simpl; intros Hb.
  - rewrite py_eq_refl. reflexivity.
  - apply orb_false_iff in Hb. destruct Hb as [Hy Hb]. rewrite Hy.
    f_equal. apply IH. exact Hb.
Qed.

Lemma add_fold_lookup (a : loc) (covered : list Z) (idx : Z -> list loc) (square : Z) :
  fold_left (fun idx square => index_set idx square (idx square ++ [a])) covered idx square
  = idx square ++ repeat a (count_occ Z.eq_dec covered square).
Proof.
  revert idx. induction covered as [|s covered IH]; intros idx; simpl.
  - rewrite app_nil_r. reflexivity.
  - rewrite IH. unfold index_set.
    destruct (Z.eq_dec s square) as [->|Hne].
    + rewrite Z.eqb_refl. rewrite <- app_assoc. simpl. reflexivity.
    + destruct (Z.eqb_spec square s) as [->|_]; [contradiction|]. reflexivity.
Qed.

Lemma remove_fold_lookup (h : heap) (a : loc) (covered : list Z)
    (base : Z -> list loc) (n : Z -> nat) (idx : Z -> list loc) (square : Z) :
  (forall s, py_in h a (base s) = false) ->
  (forall s, idx s = base s ++ repeat a (n s)) ->
  fold_left (fun idx square =>
               if py_in h a (idx square)
               then index_set idx square (py_remove h a (idx square))
               else idx)
            covered idx square
  = base square ++ repeat a (n square - count_occ Z.eq_dec covered square).
Proof.
  intros Hbase. revert n idx.
  induction covered as [|s covered IH]; intros n idx Hidx; simpl.
  - rewrite Nat.sub_0_r. apply Hidx.
  - rewrite (Hidx s) at 1. rewrite py_in_app_repeat by apply Hbase.
    destruct (n s) as [|k] eqn:Hk; simpl.
    + rewrite (IH n idx Hidx).
      destruct (Z.eq_dec s square) as [->|Hne]; [|reflexivity].
      rewrite Hk. reflexivity.
    + rewrite (IH (fun s' => if s' =? s then k else n s')).
      * destruct (Z.eq_dec s square) as [->|Hne].
        -- rewrite Z.eqb_refl, Hk. reflexivity.
        -- destruct (Z.eqb_spec square s) as [->|_]; [contradiction|]. reflexivity.
      * intros s'. unfold index_set. destruct (Z.eqb_spec s' s) as [->|_].
        -- rewrite Hidx, Hk. apply py_remove_app_repeat, Hbase.
        -- apply Hidx.
Qed.

(** Removal of an assignment that is not stored, alone and after its
    insertion. *)
Lemma remove_of_absent
    (environment : Environment.t) (m : SpectrumManager.t) (assignment : loc) (node : Node.t) :
  index_sound m ->
  py_index (Environment.nodes environment) (Assignment.node_id (objects m assignment))
  = Ok node ->
  py_in (objects m) assignment (active m) = false ->
  (exists m', _remove_assignment environment m assignment = Ok m' /\ same_manager m m')
  /\ (exists m1 m2,
        _add_assignment environment m assignment = Ok m1
        /\ In assignment (active m1)
        /\ (forall square, In square (Node.covered_squares node) ->
                           In assignment (square_to_assignments m1 square))
        /\ _remove_assignment environment m1 assignment = Ok m2
        /\ same_manager m m2).
Proof.
  intros Hsound Hnode Habsent.
  assert (Hbase : forall s, py_in (objects m) assignment (square_to_assignments m s) = false).
  { intros s. apply (py_in_incl _ _ _ (active m)); [apply Hsound | exact Habsent]. }
  split.
  - unfold _remove_assignment. rewrite Habsent, Hnode. cbn.
    eexists. split; [reflexivity|].
    unfold same_manager; cbn. repeat split; try reflexivity.
    intros square.
    rewrite (remove_fold_lookup _ _ _ (square_to_assignments m) (fun _ => 0%nat)).
    + simpl. apply app_nil_r.
    + exact Hbase.
    + intros s. simpl. symmetry. apply app_nil_r.
  - unfold _add_assignment. rewrite Hnode. cbn.
    eexists. eexists. split; [reflexivity|]. cbn.
    split; [apply in_or_app; right; left; reflexivity|].
    split.
    { intros square Hin. rewrite add_fold_lookup. apply in_or_app. right.
      apply (count_occ_In Z.eq_dec) in Hin.
      destruct (count_occ Z.eq_dec (Node.covered_squares node) square); [lia|].
      left. reflexivity. }
    unfold _remove_assignment. cbn. rewrite Hnode. cbn.
    split; [reflexivity|].
    unfold same_manager; cbn. repeat split; try reflexivity.
    + change [assignment] with (repeat assignment 1).
      rewrite py_in_app_repeat by exact Habsent.
      rewrite py_remove_app_repeat by exact Habsent. apply app_nil_r.
    + intros square.
      rewrite (remove_fold_lookup _ _ _ (square_to_assignments m)
                 (count_occ Z.eq_dec (Node.covered_squares node))).
      * rewrite Nat.sub_diag. simpl. apply app_nil_r.
      * exact Hbase.
      * intros s. apply add_fold_lookup.
Qed.

(** C6.  For a store whose index has no dangling entry and an assignment
    that lives on a node of the environment and is not in [active]:
    [_remove_assignment] raises nothing and returns a manager with the same
    [active] list, the same list at every square of the index, and every
    other field as before; and [_add_assignment] followed by
    [_remove_assignment] raises nothing and returns such a manager too. *)
Theorem remove_absent_is_noop_and_undoes_add
    (environment : Environment.t) (m : SpectrumManager.t) (assignment : loc) (node : Node.t) :
  index_sound m ->
  py_index (Environment.nodes environment) (Assignment.node_id (objects m assignment))
  = Ok node ->
  py_in (objects m) assignment (active m) = false ->
  (exists m', _remove_assignment environment m assignment = Ok m' /\ same_manager m m')
  /\ (exists m1 m2,
        _add_assignment environment m assignment = Ok m1
        /\ In assignment (active m1)
        /\ (forall square, In square (Node.covered_squares node) ->
                           In assignment (square_to_assignments m1 square))
        /\ _remove_assignment environment m1 assignment = Ok m2
        /\ same_manager m m2).
Proof. exact (remove_of_absent environment m assignment node). Qed.

(** A store on the 1-square grid that holds one lease of node 0 (object 0);
    object 1 is a lease of node 3 that was never inserted. *)
Definition one_lease_store : SpectrumManager.t :=
  SpectrumManager.mk
    (heap_of [lease 0 0 37000 37060 "5G" 0; lease 1 3 37100 37160 "5G" 0])
    2%nat [0%nat] (fun square => if square =? 0 then [0%nat] else []) 1 ∅
    MetricsCollector.init.

Lemma one_lease_store_sound : index_sound one_lease_store.
Proof.
  intros square l. cbn. destruct (square =? 0); [tauto | intros []].
Qed.

Lemma remove_absent_is_noop_and_undoes_add_witness :
  index_sound one_lease_store
  /\ py_index (Environment.nodes grid1) (Assignment.node_id (objects one_lease_store 1%nat))
     = Ok (Node.mk 3 1 1 [0])
  /\ py_in (objects one_lease_store) 1%nat (active one_lease_store) = false
  /\ (exists m', _remove_assignment grid1 one_lease_store 1%nat = Ok m'
                 /\ same_manager one_lease_store m')
  /\ (exists m1 m2,
        _add_assignment grid1 one_lease_store 1%nat = Ok m1
        /\ In 1%nat (active m1)
        /\ (forall square, In square (Node.covered_squares (Node.mk 3 1 1 [0])) ->
                           In 1%nat (square_to_assignments m1 square))
        /\ _remove_assignment grid1 m1 1%nat = Ok m2
        /\ same_manager one_lease_store m2).
Proof.
  split; [exact one_lease_store_sound|].
  split; [reflexivity|].
  split; [reflexivity|].
  apply (remove_absent_is_noop_and_undoes_add grid1 one_lease_store 1%nat (Node.mk 3 1 1 [0])).
  - exact one_lease_store_sound.
  - reflexivity.
  - reflexivity.
Defined.

(** ** Admission: effects that outlive a failed candidate *)

(** The store after two grants on the 1-square grid, under centralized
    coordination: objects 0 and 1 are the leases [a] and [b], inserted in
    that order. *)
Definition store_of_two (a b : Assignment.t) : SpectrumManager.t :=
  SpectrumManager.mk (heap_of [a; b]) 2%nat [0%nat; 1%nat]
    (fun square => if square =? 0 then [0%nat; 1%nat] else []) 2 ∅
    (MetricsCollector.mk 2%float 2 0 2%float 2 2%float 2).

Lemma grid1_nodes :
  Environment.nodes grid1
  = [Node.mk 0 0 0 [0]; Node.mk 1 0 1 [0]; Node.mk 2 1 0 [0]; Node.mk 3 1 1 [0]].
Proof. reflexivity. Qed.

(** [store_of_two] is the store that [_add_assignment] builds. *)
Lemma store_of_two_built (a b : Assignment.t) :
  Assignment.node_id a = 3 -> Assignment.node_id b = 1 ->
  exists m1 m2,
    _add_assignment grid1
      (with_store [] (fun _ => []) (store_of_two a b)) 0%nat = Ok m1
    /\ _add_assignment grid1 m1 1%nat = Ok m2
    /\ same_manager (store_of_two a b) m2.
Proof.
  intros Ha Hb. eexists. eexists.
  split; [unfold _add_assignment; rewrite grid1_nodes; cbn; rewrite Ha; reflexivity|].
  split; [unfold _add_assignment; rewrite grid1_nodes; cbn; rewrite Hb; reflexivity|].
  unfold same_manager; cbn. repeat split; try reflexivity.
  intros square. unfold index_set. destruct (square =? 0); reflexivity.
Qed.

(** Node 3 holds the lower half of the band and node 1 the upper half; the
    two leases do not overlap in frequency. *)
Definition co_primary_incumbents : SpectrumManager.t :=
  store_of_two (lease 0 3 37000 37300 "5G" 0) (lease 1 1 37300 37600 "5G" 0).

(** C8.  On the 1-square grid, under Power Control with co-primary
    priority, a request of node 0 for the whole band has a single candidate.
    Testing it multiplies the quality of the incumbent of the opposite node 3
    by 0.7 (from 1.0 to 0.7), then fails on the incumbent of the adjacent
    node 1; the request is denied, both incumbents stay in the store, and
    the incumbent of node 3 keeps the reduced quality. *)
Theorem failed_candidate_degrades_incumbent (g : rng) :
  let p := policy_with "Power Control" "Co-Primary" "Manual" "Freq Slicing" in
  let request := SpectrumRequest.init 2 0 0 600 "5G" in
  exists (m' : SpectrumManager.t) (request' : SpectrumRequest.t),
    process_arrivals grid1 p (fun l => l) [request] 0 co_primary_incumbents g
    = Ok (m', [request'], g)
    /\ frequency_candidates p request = [(37000, 37600)]
    /\ SpectrumRequest.is_assigned request' = false
    /\ SpectrumRequest.reject_reason request' = Some "conflict or no candidates"
    /\ SpectrumRequest.trace request' = [Arrived; Mitigated 0; NotMitigated 1; Denied 0]
    /\ active m' = active co_primary_incumbents
    /\ MetricsCollector.requests_denied (metrics m') = 1
    /\ Assignment.quality (objects co_primary_incumbents 0%nat) = 1%float
    /\ Assignment.quality (objects m' 0%nat)
       = (Assignment.quality (objects co_primary_incumbents 0%nat) * 0.7)%float
    /\ (0.7 <? 1)%float = true
    /\ (Assignment.quality (objects m' 0%nat)
        <? Assignment.quality (objects co_primary_incumbents 0%nat))%float = true
    /\ Assignment.quality (objects m' 1%nat) = 1%float.
Proof.
  cbv zeta. eexists. eexists. split; [vm_compute; reflexivity|].
  repeat split; vm_compute; reflexivity.
Qed.

(** ** Admission under hierarchical priority *)

(** Node 3 holds an IoT lease (tier 2) on the lower half of the band and
    node 1 a Federal lease (tier 0) on the upper half. *)
Definition hierarchical_incumbents : SpectrumManager.t :=
  store_of_two (lease 0 3 37000 37300 "IoT" 2) (lease 1 1 37300 37600 "Federal" 0).

(** C9.  On the 1-square grid, under hierarchical priority, a 5G request
    (tier 1) of node 0 for the whole band has a single candidate.  Testing it
    preempts the IoT lease of node 3, the re-check finds the Federal lease of
    node 1 still in conflict, and the request is denied; the store is left
    without the IoT lease, in [active] and in the index. *)
Theorem denied_request_keeps_preemption (g : rng) :
  let p := policy_with "No Mitigation" "Hierarchical" "Dynamic" "Freq Slicing" in
  let request := SpectrumRequest.init 2 0 0 600 "5G" in
  exists (m' : SpectrumManager.t) (request' : SpectrumRequest.t),
    process_arrivals grid1 p (fun l => l) [request] 0 hierarchical_incumbents g
    = Ok (m', [request'], g)
    /\ is_feasible p = true
    /\ frequency_candidates p request = [(37000, 37600)]
    /\ SpectrumRequest.is_assigned request' = false
    /\ SpectrumRequest.reject_reason request' = Some "conflict or no candidates"
    /\ SpectrumRequest.trace request' = [Arrived; Preempted 0; ConflictRemains 1; Denied 0]
    /\ MetricsCollector.requests_denied (metrics m') = 1
    /\ active hierarchical_incumbents = [0%nat; 1%nat]
    /\ square_to_assignments hierarchical_incumbents 0 = [0%nat; 1%nat]
    /\ active m' = [1%nat]
    /\ square_to_assignments m' 0 = [1%nat].
Proof.
  cbv zeta. eexists. eexists. split; [vm_compute; reflexivity|].
  repeat split; vm_compute; reflexivity.
Qed.

(** ** What the loops of the engine may change *)

(** [b] is [a] with, at most, another quality. *)
Definition frozen (a b : Assignment.t) : Prop :=
  b = Assignment.set_quality (Assignment.quality b) a.

(** [b] is [a] with, at most, another quality and another next-check time. *)
Definition same_lease (a b : Assignment.t) : Prop :=
  b = Assignment.set_next_check_tick (Assignment.next_check_tick b)
        (Assignment.set_quality (Assignment.quality b) a).

Lemma frozen_refl (a : Assignment.t) : frozen a a.
Proof. destruct a. reflexivity. Qed.

Lemma frozen_trans (a b c : Assignment.t) : frozen a b -> frozen b c -> frozen a c.
Proof. unfold frozen. intros -> ->. destruct a. reflexivity. Qed.

Lemma frozen_set_quality (a : Assignment.t) (q : float) :
  frozen a (Assignment.set_quality q a).
Proof. destruct a. reflexivity. Qed.

Lemma frozen_same_lease (a b : Assignment.t) : frozen a b -> same_lease a b.
Proof. unfold frozen, same_lease. intros ->. destruct a. reflexivity. Qed.

Lemma same_lease_refl (a : Assignment.t) : same_lease a a.
Proof. destruct a. reflexivity. Qed.

Lemma same_lease_trans (a b c : Assignment.t) :
  same_lease a b -> same_lease b c -> same_lease a c.
Proof. unfold same_lease. intros -> ->. destruct a. reflexivity. Qed.

Lemma same_lease_set_next_check_tick (a : Assignment.t) (n : option num) :
  same_lease a (Assignment.set_next_check_tick n a).
Proof. destruct a. reflexivity. Qed.

Lemma same_lease_fields (a b : Assignment.t) :
  same_lease a b ->
  Assignment.assignment_id b = Assignment.assignment_id a
  /\ Assignment.node_id b = Assignment.node_id a
  /\ Assignment.freq_start b = Assignment.freq_start a
  /\ Assignment.freq_end b = Assignment.freq_end a
  /\ Assignment.device_type b = Assignment.device_type a
  /\ Assignment.priority_tier b = Assignment.priority_tier a.
Proof. unfold same_lease. intros ->. destruct a. cbn. tauto. Qed.

Lemma frozen_next_check_tick (a b : Assignment.t) :
  frozen a b -> Assignment.next_check_tick b = Assignment.next_check_tick a.
Proof. unfold frozen. intros ->. destruct a. reflexivity. Qed.

(** The manager [m'] holds a sub-sequence of the store of [m], the same
    objects up to their quality, and the same counters. *)
Record store_shrinks (m m' : SpectrumManager.t) : Prop := mk_store_shrinks {
  shrinks_next_loc : next_loc m' = next_loc m;
  shrinks_next_id : next_assignment_id m' = next_assignment_id m;
  shrinks_metrics : metrics m' = metrics m;
  shrinks_active : active m' `sublist_of` active m;
  shrinks_index : forall square,
    square_to_assignments m' square `sublist_of` square_to_assignments m square;
  shrinks_objects : forall l, frozen (objects m l) (objects m' l)
}.

Lemma store_shrinks_refl (m : SpectrumManager.t) : store_shrinks m m.
Proof. split; auto using frozen_refl. Qed.

Lemma store_shrinks_trans (m1 m2 m3 : SpectrumManager.t) :
  store_shrinks m1 m2 -> store_shrinks m2 m3 -> store_shrinks m1 m3.
Proof.
  intros [] []. split; try congruence.
  - etrans; eauto.
  - intros square. etrans; eauto.
  - intros l. eapply frozen_trans; eauto.
Qed.

Lemma py_remove_sublist (h : heap) (x : loc) (l : list loc) :
  py_remove h x l `sublist_of` l.
Proof.
  induction l as [|y l IH]; simpl; [reflexivity|].
  destruct (py_eq h y x); [apply sublist_cons | apply sublist_skip]; auto.
Qed.

Lemma remove_fold_sublist (h : heap) (a : loc) (covered : list Z) (idx : Z -> list loc)
    (square : Z) :
  fold_left (fun idx square =>
               if py_in h a (idx square)
               then index_set idx square (py_remove h a (idx square))
               else idx)
            covered idx square
  `sublist_of` idx square.
Proof.
  revert idx. induction covered as [|s covered IH]; intros idx; simpl; [reflexivity|].
  etrans; [apply IH|].
  destruct (py_in h a (idx s)); [|reflexivity].
  unfold index_set. destruct (square =? s) eqn:E; [|reflexivity].
  apply Z.eqb_eq in E. subst. apply py_remove_sublist.
Qed.

Section Frame.
Variable environment : Environment.t.
Variable arch_policy : ArchitecturePolicy.t.
Variable set_order : list Z -> list Z.

Lemma remove_assignment_shrinks (m m' : SpectrumManager.t) (a : loc) :
  _remove_assignment environment m a = Ok m' ->
  store_shrinks m m' /\ objects m' = objects m.
Proof.
  unfold _remove_assignment.
  destruct (py_index _ _) as [node|e]; cbn; [|discriminate].
  intros [= <-]. split; [|reflexivity].
  split; cbn; auto using frozen_refl.
  - destruct (py_in _ _ _); [apply py_remove_sublist | reflexivity].
  - intros square. apply remove_fold_sublist.
Qed.

Lemma scale_both_frozen (h : heap) (self other l : loc) (f : float) :
  frozen (h l) (scale_both h self other f l).
Proof.
  unfold scale_both, heap_update.
  destruct (Nat.eqb_spec l other) as [->|_].
  - eapply frozen_trans; [|apply frozen_set_quality].
    destruct (Nat.eqb_spec other self) as [->|_];
      auto using frozen_refl, frozen_set_quality.
  - destruct (Nat.eqb_spec l self) as [->|_];
      auto using frozen_refl, frozen_set_quality.
Qed.

Lemma apply_mitigation_frozen (h h' : heap) (self other : loc) (b : bool) :
  apply_mitigation environment arch_policy h self other = Ok (h', b) ->
  (forall l, frozen (h l) (h' l)) /\ (b = false -> h' = h).
Proof.
  set (mitigation := interference_mitigation arch_policy).
  destruct (str_eqb mitigation "No Mitigation") eqn:Hno.
  { unfold apply_mitigation. fold mitigation. rewrite Hno.
    intros [= <- <-]. auto using frozen_refl. }
  destruct (get_node_relationship environment (h self) (h other)) as [r|e] eqn:Hr.
  - rewrite (apply_mitigation_table _ _ _ _ _ _ (proj1 (str_eqb_false _ _) Hno) Hr).
    cbv zeta. fold mitigation.
    destruct (str_eqb mitigation "Power Control"), (str_eqb mitigation "Beamforming"),
      (str_eqb mitigation "Combination"), r;
      intros [= <- <-]; split; auto using frozen_refl, scale_both_frozen; discriminate.
  - unfold apply_mitigation. fold mitigation. rewrite Hno, Hr. discriminate.
Qed.

Lemma preempt_shrinks (possible_conflicts : list loc) (temp a : loc)
    (m m' : SpectrumManager.t) (tr tr' : list trace_event) (b : bool) :
  preempt environment possible_conflicts temp a m tr = Ok (m', tr', b) ->
  store_shrinks m m' /\ objects m' = objects m.
Proof.
  unfold preempt.
  destruct (_remove_assignment environment m a) as [m1|e] eqn:Hr; cbn; [|discriminate].
  destruct (first_conflict _ _ _ _) as [[other|]|e]; cbn; try discriminate;
    intros [= <- <- <-]; eapply remove_assignment_shrinks; eauto.
Qed.

Lemma mitigated_shrinks (m : SpectrumManager.t) (h' : heap) (c : gset (Z * Z)) :
  (forall l, frozen (objects m l) (h' l)) ->
  store_shrinks m (with_mitigated c (with_objects h' m)).
Proof. intros H. split; cbn; auto; reflexivity. Qed.

Lemma check_conflicts_shrinks (possible_conflicts : list loc) (temp : loc)
    (todo seen : list loc) (m m' : SpectrumManager.t) (tr tr' : list trace_event) (c : bool) :
  check_conflicts environment arch_policy possible_conflicts temp todo seen m tr
  = Ok (m', tr', c) ->
  store_shrinks m m'.
Proof.
  revert seen m tr. induction todo as [|a todo IH]; intros seen m tr; simpl.
  { intros [= <- <- <-]. apply store_shrinks_refl. }
  destruct (existsb (Nat.eqb a) seen); [apply IH|].
  destruct (conflicts_with _ _ _) as [[|]|e]; [| apply IH | discriminate].
  destruct (_ && (_ <? _)).
  { destruct (preempt _ _ _ _ _ _) as [[[m1 tr1] [|]]|e] eqn:Hp; try discriminate.
    - intros [= <- <- <-]. eapply preempt_shrinks; eauto.
    - intros H. eapply store_shrinks_trans; [eapply preempt_shrinks; eauto | eapply IH; eauto]. }
  destruct (_ && (_ >? _)).
  { intros [= <- <- <-]. apply store_shrinks_refl. }
  match goal with
  | |- context [match ?x with Ok _ => _ | Raise _ => _ end] =>
    destruct x as [[h' [|]]|e] eqn:Hm; try discriminate
  end.
  - assert (Hf : forall l, frozen (objects m l) (h' l)).
    { destruct (negb _); [eapply apply_mitigation_frozen; eauto|].
      injection Hm as <- _. auto using frozen_refl. }
    intros H. eapply store_shrinks_trans; [apply mitigated_shrinks, Hf | eapply IH; eauto].
  - assert (Hf : h' = objects m).
    { destruct (negb _); [eapply apply_mitigation_frozen; eauto|]. congruence. }
    subst h'.
    assert (Hm1 : store_shrinks m (with_objects (objects m) m))
      by (split; cbn; auto using frozen_refl; reflexivity).
    destruct (_ <? _).
    { destruct (preempt _ _ _ _ _ _) as [[[m1 tr1] [|]]|e] eqn:Hp; try discriminate.
      - intros [= <- <- <-].
        eapply store_shrinks_trans; [exact Hm1 | eapply preempt_shrinks; eauto].
      - intros H. eapply store_shrinks_trans; [exact Hm1|].
        eapply store_shrinks_trans; [eapply preempt_shrinks; eauto | eapply IH; eauto]. }
    destruct (_ >? _); intros [= <- <- <-]; exact Hm1.
Qed.

(** The lease that a grant creates for [request] on [(freq_start, freq_end)]. *)
Definition granted_lease (request : SpectrumRequest.t) (current_tick freq_start freq_end : Z)
    (assignment_id : Z) (a : Assignment.t) : Prop :=
  Assignment.assignment_id a = assignment_id
  /\ Assignment.node_id a = SpectrumRequest.node_id request
  /\ Assignment.freq_start a = freq_start
  /\ Assignment.freq_end a = freq_end
  /\ Assignment.device_type a = SpectrumRequest.device_type request
  /\ Assignment.priority_tier a
     = _get_priority_tier arch_policy (SpectrumRequest.device_type request)
  /\ Assignment.next_check_tick a
     = match query_interval arch_policy with
       | Inf => None
       | Fin _ => Some (num_add current_tick (query_interval arch_policy))
       end.

(** The guard [ENFORCE EXCLUSIVE MODE PARTITIONING] let the interval pass. *)
Definition passes_partition_guard (device_type : string) (freq_start freq_end : Z) : Prop :=
  priority_mode arch_policy = "Exclusive" ->
  match band_partitions arch_policy !! device_type with
  | Some (lo, hi) => lo <= freq_start /\ freq_end <= hi
  | None => True
  end.

(** What one request may change: [None] for a denial, the interval for a
    grant. *)
Definition request_effect (request : SpectrumRequest.t) (current_tick : Z)
    (candidates : list (Z * Z)) (m m' : SpectrumManager.t) (outcome : option (Z * Z)) : Prop :=
  (next_loc m <= next_loc m')%nat
  /\ (forall l, (l < next_loc m)%nat -> frozen (objects m l) (objects m' l))
  /\ match outcome with
     | None =>
       active m' `sublist_of` active m
       /\ (forall square,
             square_to_assignments m' square `sublist_of` square_to_assignments m square)
       /\ next_assignment_id m' = next_assignment_id m
       /\ metrics m' = metrics m
     | Some (freq_start, freq_end) =>
       In (freq_start, freq_end) candidates
       /\ passes_partition_guard (SpectrumRequest.device_type request) freq_start freq_end
       /\ exists (granted : loc) (kept : list loc),
            active m' = kept ++ [granted]
            /\ kept `sublist_of` active m
            /\ (next_loc m <= granted < next_loc m')%nat
            /\ granted_lease request current_tick freq_start freq_end
                 (next_assignment_id m) (objects m' granted)
            /\ (forall square l, In l (square_to_assignments m' square) ->
                                 In l (square_to_assignments m square) \/ l = granted)
            /\ next_assignment_id m' = next_assignment_id m + 1
            /\ MetricsCollector.requests_total (metrics m')
               = MetricsCollector.requests_total (metrics m) + 1
            /\ MetricsCollector.requests_denied (metrics m')
               = MetricsCollector.requests_denied (metrics m)
     end.

Lemma request_effect_skip (request : SpectrumRequest.t) (current_tick : Z)
    (c : Z * Z) (candidates : list (Z * Z)) (m m' : SpectrumManager.t)
    (outcome : option (Z * Z)) :
  request_effect request current_tick candidates m m' outcome ->
  request_effect request current_tick (c :: candidates) m m' outcome.
Proof.
  unfold request_effect. intros (H1 & H2 & H3). split; [|split]; auto.
  destruct outcome as [[fs fe]|]; [|exact H3].
  destruct H3 as [Hin H3]. split; [right; exact Hin | exact H3].
Qed.

Lemma add_assignment_effect (m m' : SpectrumManager.t) (a : loc) :
  _add_assignment environment m a = Ok m' ->
  active m' = active m ++ [a]
  /\ (forall square l, In l (square_to_assignments m' square) ->
                       In l (square_to_assignments m square) \/ l = a)
  /\ objects m' = objects m /\ next_loc m' = next_loc m
  /\ next_assignment_id m' = next_assignment_id m /\ metrics m' = metrics m.
Proof.
  unfold _add_assignment.
  destruct (py_index _ _) as [node|e]; cbn; [|discriminate].
  intros [= <-]. cbn. repeat split; try reflexivity.
  intros square l. rewrite add_fold_lookup. intros Hin.
  apply in_app_or in Hin. destruct Hin as [Hin|Hin]; [left; exact Hin|].
  right. apply repeat_spec in Hin. exact Hin.
Qed.

Lemma try_candidates_effect (request : SpectrumRequest.t) (current_tick : Z)
    (use_centralized : bool) (candidates : list (Z * Z))
    (m m' : SpectrumManager.t) (tr tr' : list trace_event) (outcome : option (Z * Z)) :
  try_candidates environment arch_policy set_order request current_tick use_centralized
    candidates m tr = Ok (m', tr', outcome) ->
  request_effect request current_tick candidates m m' outcome.
Proof.
  revert m tr. induction candidates as [|[fs fe] rest IH]; intros m tr; simpl.
  { intros [= <- <- <-]. unfold request_effect.
    split; [lia|]. split; [auto using frozen_refl|]. repeat split; reflexivity. }
  match goal with |- context [if ?b then _ else _] => destruct b eqn:Hguard end.
  { intros H. apply request_effect_skip. eapply IH; eauto. }
  destruct (py_index _ _) as [node|e]; [|discriminate].
  destruct (possible_conflicts_of _ _ _ _ _) as [possible|e]; [|discriminate].
  destruct (check_conflicts _ _ _ _ _ _ _ _) as [[[m2 tr2] [|]]|e] eqn:Hcc; [| |discriminate].
  - (* the candidate failed: the next one starts from [m2] *)
    intros H. apply request_effect_skip. apply IH in H.
    apply check_conflicts_shrinks in Hcc. destruct Hcc as [Hl Hnid Hmet Ha Hi Ho].
    cbn in Hl, Hnid, Hmet, Ha, Hi, Ho.
    destruct H as (H1 & H2 & H3). split; [lia|]. split.
    { intros l Hlt. eapply frozen_trans; [|apply H2; lia].
      specialize (Ho l). destruct (Nat.eqb_spec l (next_loc m)); [lia | exact Ho]. }
    destruct outcome as [[fs' fe']|].
    + destruct H3 as (Hin & Hp & g & kept & Hact & Hsub & Hg & Hlease & Hidx & Hid & Ht & Hd).
      rewrite Hnid in Hlease, Hid. rewrite Hmet in Ht, Hd.
      split; [exact Hin|]. split; [exact Hp|].
      exists g, kept. split; [exact Hact|].
      split; [etrans; eauto|]. split; [lia|].
      split; [exact Hlease|]. split; [|auto].
      intros square l Hin'. destruct (Hidx square l Hin') as [Hin''|]; [left|right; auto].
      apply list_elem_of_In. eapply elem_of_sublist; [|apply Hi].
      apply list_elem_of_In. exact Hin''.
    + destruct H3 as (Hsub & Hidx & Hid & Hmet').
      rewrite Hnid in Hid. rewrite Hmet in Hmet'.
      repeat split; auto.
      * etrans; eauto.
      * intros square. etrans; eauto.
  - (* the candidate survived *)
    apply check_conflicts_shrinks in Hcc. destruct Hcc as [Hl Hnid Hmet Ha Hi Ho].
    cbn in Hl, Hnid, Hmet, Ha, Hi, Ho.
    destruct (query_interval arch_policy) as [qi|] eqn:Hq; cbn.
    + destruct (_add_assignment _ _ _) as [m4|e] eqn:Hadd; [|discriminate].
      intros [= <- <- <-]. apply add_assignment_effect in Hadd. cbn in Hadd.
      destruct Hadd as (Hact & Hidx & Hobj & Hnl & Hni & Hm4).
      unfold request_effect. cbn. rewrite Hnl, Hobj, Hact, Hni, Hm4, Hnid, Hmet, Hl. cbn.
      split; [lia|]. split.
      { intros l Hlt. specialize (Ho l).
        destruct (Nat.eqb_spec l (S (next_loc m))); [lia|].
        destruct (Nat.eqb_spec l (next_loc m)); [lia | exact Ho]. }
      split; [left; reflexivity|]. split.
      { intros Hex. apply str_eqb_true in Hex. rewrite Hex in Hguard.
        destruct (band_partitions arch_policy !! _) as [[lo hi]|]; [|exact I].
        apply negb_false_iff, andb_true_iff in Hguard. lia. }
      exists (S (next_loc m)), (active m2). split; [reflexivity|]. split; [exact Ha|].
      split; [lia|]. rewrite Nat.eqb_refl.
      split; [unfold granted_lease; rewrite Hq; cbn; repeat split; reflexivity|].
      split; [|repeat split; reflexivity].
      intros square l Hin. destruct (Hidx square l Hin) as [Hin'|]; [left|right; congruence].
      apply list_elem_of_In. eapply elem_of_sublist; [|apply Hi].
      apply list_elem_of_In. exact Hin'.
    + destruct (_add_assignment _ _ _) as [m4|e] eqn:Hadd; [|discriminate].
      intros [= <- <- <-]. apply add_assignment_effect in Hadd.
      destruct Hadd as (Hact & Hidx & Hobj & Hnl & Hni & Hm4).
      unfold request_effect. cbn. rewrite Hnl, Hobj, Hact, Hni, Hm4, Hnid, Hmet, Hl. cbn.
      split; [lia|]. split.
      { intros l Hlt. specialize (Ho l).
        destruct (Nat.eqb_spec l (next_loc m)); [lia | exact Ho]. }
      split; [left; reflexivity|]. split.
      { intros Hex. apply str_eqb_true in Hex. rewrite Hex in Hguard.
        destruct (band_partitions arch_policy !! _) as [[lo hi]|]; [|exact I].
        apply negb_false_iff, andb_true_iff in Hguard. lia. }
      exists (next_loc m), (active m2). split; [reflexivity|]. split; [exact Ha|].
      split; [lia|]. specialize (Ho (next_loc m)). rewrite Nat.eqb_refl in Ho.
      pose proof (same_lease_fields _ _ (frozen_same_lease _ _ Ho)) as Hf. cbn in Hf.
      apply frozen_next_check_tick in Ho. cbn in Ho.
      split; [unfold granted_lease; rewrite Hq; tauto|].
      split; [|repeat split; reflexivity].
      intros square l Hin. destruct (Hidx square l Hin) as [Hin'|]; [left|right; congruence].
      apply list_elem_of_In. eapply elem_of_sublist; [|apply Hi].
      apply list_elem_of_In. exact Hin'.
Qed.

Lemma shuffle_nil {A : Type} (g : rng) : shuffle (@nil A) g = ([], g).
Proof. reflexivity. Qed.

Lemma process_request_effect (request request' : SpectrumRequest.t) (current_tick : Z)
    (m m' : SpectrumManager.t) (g g' : rng) :
  process_request environment arch_policy set_order request current_tick m g
  = Ok (m', request', g') ->
  exists (outcome : option (Z * Z)) (m1 : SpectrumManager.t) (tr : list trace_event),
    request_effect request current_tick
      (_generate_frequency_candidates arch_policy request g).1 m m1 outcome
    /\ match outcome with
       | Some freq => m' = m1 /\ request' = SpectrumRequest.granted tr freq request
       | None =>
         m' = with_metrics
                (MetricsCollector.incr_requests_denied
                   (MetricsCollector.incr_requests_total (metrics m1))) m1
         /\ request' = SpectrumRequest.denied tr request
       end.
Proof.
  unfold process_request.
  destruct (_generate_frequency_candidates arch_policy request g) as [candidates g1].
  match goal with
  | |- context [let '(_, _) := ?b in _] => destruct b as [use_centralized g2]
  end.
  destruct (try_candidates _ _ _ _ _ _ _ _ _) as [[[m1 tr1] outcome]|e] eqn:Ht;
    cbn; [|discriminate].
  apply try_candidates_effect in Ht.
  destruct outcome as [freq|]; intros [= <- <- <-]; eexists; eexists; eexists;
    (split; [exact Ht|]); split; reflexivity.
Qed.

(** ** Well-formed stores *)

(** The assignments of [active] are objects that exist, their identifiers
    are pairwise distinct, and each is below [next_assignment_id]. *)
Definition store_wf (m : SpectrumManager.t) : Prop :=
  NoDup ((fun l => Assignment.assignment_id (objects m l)) <$> active m)
  /\ Forall (fun l => (l < next_loc m)%nat
                      /\ Assignment.assignment_id (objects m l) < next_assignment_id m)
            (active m).

(** The counters of the metrics collector account for the store: every
    denial and every active assignment stands for a request that was
    counted. *)
Definition counters_ok (m : SpectrumManager.t) : Prop :=
  0 <= MetricsCollector.requests_denied (metrics m)
  /\ MetricsCollector.requests_denied (metrics m) + Z.of_nat (length (active m))
     <= MetricsCollector.requests_total (metrics m).

Lemma same_ids (m m' : SpectrumManager.t) (l : list loc) :
  Forall (fun x => same_lease (objects m x) (objects m' x)) l ->
  (fun x => Assignment.assignment_id (objects m' x)) <$> l
  = (fun x => Assignment.assignment_id (objects m x)) <$> l.
Proof.
  induction 1 as [|x l Hx _ IH]; cbn; [reflexivity|].
  f_equal; [|exact IH]. apply same_lease_fields in Hx. tauto.
Qed.

(** A store that keeps a sub-sequence of [active] and the leases in it
    stays well formed. *)
Lemma store_wf_sublist (m m' : SpectrumManager.t) :
  store_wf m ->
  active m' `sublist_of` active m ->
  (forall l, (l < next_loc m)%nat -> same_lease (objects m l) (objects m' l)) ->
  (next_loc m <= next_loc m')%nat ->
  next_assignment_id m <= next_assignment_id m' ->
  store_wf m'.
Proof.
  intros [Hnd Hall] Hsub Hobj Hloc Hid.
  assert (Hall' : Forall (fun l => (l < next_loc m)%nat
                    /\ Assignment.assignment_id (objects m l) < next_assignment_id m)
                    (active m')).
  { rewrite Forall_forall in *. intros l Hl. apply Hall. eapply elem_of_sublist; eauto. }
  assert (Hsame : Forall (fun x => same_lease (objects m x) (objects m' x)) (active m')).
  { eapply Forall_impl; [exact Hall'|]. cbn. intros l [Hl _]. auto. }
  split.
  - rewrite (same_ids m m' _ Hsame).
    eapply sublist_NoDup; [exact Hnd|]. apply fmap_sublist. exact Hsub.
  - rewrite Forall_forall in *. intros l Hl.
    destruct (Hall' l Hl) as [H1 H2]. specialize (Hsame l Hl).
    apply same_lease_fields in Hsame. destruct Hsame as [-> _]. lia.
Qed.

Lemma request_effect_wf (request : SpectrumRequest.t) (current_tick : Z)
    (candidates : list (Z * Z)) (m m' : SpectrumManager.t) (outcome : option (Z * Z)) :
  request_effect request current_tick candidates m m' outcome ->
  store_wf m -> store_wf m'.
Proof.
  intros (Hloc & Hobj & Hout) Hwf.
  assert (Hobj' : forall l, (l < next_loc m)%nat -> same_lease (objects m l) (objects m' l))
    by auto using frozen_same_lease.
  destruct outcome as [[fs fe]|].
  - destruct Hout as (_ & _ & g & kept & Hact & Hsub & Hg & Hlease & _ & Hid & _).
    pose (mk := with_store kept (square_to_assignments m') m').
    assert (Hk : store_wf mk).
    { apply (store_wf_sublist m); cbn; auto. lia. }
    destruct Hk as [Hnd Hall]. cbn in Hnd, Hall. destruct Hwf as [_ Hall0].
    destruct Hlease as [Hgid _].
    split; rewrite Hact.
    + rewrite fmap_app. apply NoDup_app. split; [exact Hnd|]. split.
      * intros x Hx Hx'. cbn in Hx'. apply list_elem_of_singleton in Hx'. subst x.
        apply list_elem_of_fmap in Hx. destruct Hx as (l & Hl & Hin).
        assert (Hlk : l ∈ active m) by (eapply elem_of_sublist; eauto).
        rewrite Forall_forall in Hall0. destruct (Hall0 l Hlk) as [Hl1 Hl2].
        specialize (Hobj' l Hl1). apply same_lease_fields in Hobj'.
        destruct Hobj' as [Hsame _]. lia.
      * cbn. apply NoDup_singleton.
    + apply Forall_app. split; [exact Hall|].
      apply Forall_singleton. lia.
  - destruct Hout as (Hsub & _ & Hid & _).
    apply (store_wf_sublist m); auto. lia.
Qed.

Lemma request_effect_counters (request : SpectrumRequest.t) (current_tick : Z)
    (candidates : list (Z * Z)) (m m' : SpectrumManager.t) (outcome : option (Z * Z)) :
  request_effect request current_tick candidates m m' outcome ->
  counters_ok m ->
  match outcome with
  | Some _ => counters_ok m'
  | None =>
    counters_ok (with_metrics
                   (MetricsCollector.incr_requests_denied
                      (MetricsCollector.incr_requests_total (metrics m'))) m')
  end.
Proof.
  intros (_ & _ & Hout) [H0 Hc]. unfold counters_ok.
  destruct outcome as [[fs fe]|].
  - destruct Hout as (_ & _ & g & kept & Hact & Hsub & _ & _ & _ & _ & Ht & Hd).
    rewrite Ht, Hd, Hact, length_app. cbn. apply sublist_length in Hsub. lia.
  - destruct Hout as (Hsub & _ & _ & Hmet). cbn. rewrite Hmet.
    apply sublist_length in Hsub. lia.
Qed.

Lemma process_arrivals_preserves (P : SpectrumManager.t -> Prop) (current_tick : Z) :
  (forall request request' m m' g g',
     process_request environment arch_policy set_order request current_tick m g
     = Ok (m', request', g') -> P m -> P m') ->
  forall requests requests' m m' g g',
    process_arrivals environment arch_policy set_order requests current_tick m g
    = Ok (m', requests', g') -> P m -> P m'.
Proof.
  intros Hstep. induction requests as [|request rest IH]; intros requests' m m' g g'; simpl.
  { intros [= <- <- <-]. auto. }
  destruct (process_request _ _ _ _ _ _ _) as [[[m1 r1] g1]|e] eqn:H1; cbn; [|discriminate].
  destruct (process_arrivals _ _ _ _ _ _ _) as [[[m2 r2] g2]|e] eqn:H2; cbn; [|discriminate].
  intros [= <- <- <-] HP. eapply IH; eauto.
Qed.

Lemma process_arrivals_requests (Q : SpectrumRequest.t -> Prop) (current_tick : Z) :
  (forall request request' m m' g g',
     process_request environment arch_policy set_order request current_tick m g
     = Ok (m', request', g') -> Q request') ->
  forall requests requests' m m' g g',
    process_arrivals environment arch_policy set_order requests current_tick m g
    = Ok (m', requests', g') -> Forall Q requests'.
Proof.
  intros Hstep. induction requests as [|request rest IH]; intros requests' m m' g g'; simpl.
  { intros [= <- <- <-]. constructor. }
  destruct (process_request _ _ _ _ _ _ _) as [[[m1 r1] g1]|e] eqn:H1; cbn; [|discriminate].
  destruct (process_arrivals _ _ _ _ _ _ _) as [[[m2 r2] g2]|e] eqn:H2; cbn; [|discriminate].
  intros [= <- <- <-]. constructor; eauto.
Qed.

Lemma process_request_wf request request' current_tick m m' g g' :
  process_request environment arch_policy set_order request current_tick m g
  = Ok (m', request', g') ->
  store_wf m -> store_wf m'.
Proof.
  intros H Hwf. apply process_request_effect in H.
  destruct H as (outcome & m1 & tr & Heff & Hout).
  pose proof (request_effect_wf _ _ _ _ _ _ Heff Hwf) as Hwf1.
  destruct outcome; destruct Hout as [-> _]; exact Hwf1.
Qed.

Lemma process_request_counters request request' current_tick m m' g g' :
  process_request environment arch_policy set_order request current_tick m g
  = Ok (m', request', g') ->
  counters_ok m -> counters_ok m'.
Proof.
  intros H Hc. apply process_request_effect in H.
  destruct H as (outcome & m1 & tr & Heff & Hout).
  pose proof (request_effect_counters _ _ _ _ _ _ Heff Hc) as Hc1.
  destruct outcome; destruct Hout as [-> _]; exact Hc1.
Qed.






(** ** Exclusive partitions *)

(** The interval of the lease lies within the partition of its device class. *)
Definition in_partition (a : Assignment.t) : Prop :=
  exists lo hi : Z,
    band_partitions arch_policy !! Assignment.device_type a = Some (lo, hi)
    /\ lo <= Assignment.freq_start a /\ Assignment.freq_end a <= hi.

Definition leases_in_partition (m : SpectrumManager.t) : Prop :=
  Forall (fun l => in_partition (objects m l)) (active m).

Lemma in_partition_same_lease (a b : Assignment.t) :
  same_lease a b -> in_partition a -> in_partition b.
Proof.
  intros H (lo & hi & Hp & H1 & H2). apply same_lease_fields in H.
  destruct H as (_ & _ & Hs & He & Hd & _).
  exists lo, hi. rewrite Hs, He, Hd. auto.
Qed.

Lemma no_partition_no_candidates (request : SpectrumRequest.t) :
  priority_mode arch_policy = "Exclusive" ->
  band_partitions arch_policy !! SpectrumRequest.device_type request = None ->
  frequency_candidates arch_policy request = [].
Proof.
  intros Hex Hnone. unfold frequency_candidates.
  rewrite Hnone, Hex, str_eqb_refl. cbv zeta.
  destruct (str_eqb (freq_plan arch_policy) "Large Blocks"),
    (str_eqb (freq_plan arch_policy) "Sub Channels"); reflexivity.
Qed.

(** Under exclusive priority, the interval of a grant lies within the
    partition of the request's device class. *)
Lemma granted_in_partition (request : SpectrumRequest.t) (current_tick : Z) (g : rng)
    (m m' : SpectrumManager.t) (freq_start freq_end : Z) :
  priority_mode arch_policy = "Exclusive" ->
  request_effect request current_tick
    (_generate_frequency_candidates arch_policy request g).1 m m'
    (Some (freq_start, freq_end)) ->
  exists lo hi : Z,
    band_partitions arch_policy !! SpectrumRequest.device_type request = Some (lo, hi)
    /\ lo <= freq_start /\ freq_end <= hi.
Proof.
  intros Hex (_ & _ & Hin & Hguard & _). specialize (Hguard Hex).
  destruct (band_partitions arch_policy !! SpectrumRequest.device_type request)
    as [[lo hi]|] eqn:Hp.
  - exists lo, hi. auto.
  - unfold _generate_frequency_candidates in Hin.
    rewrite (no_partition_no_candidates _ Hex Hp), shuffle_nil in Hin. destruct Hin.
Qed.

Lemma process_request_partition request request' current_tick m m' g g' :
  priority_mode arch_policy = "Exclusive" ->
  process_request environment arch_policy set_order request current_tick m g
  = Ok (m', request', g') ->
  store_wf m -> leases_in_partition m -> leases_in_partition m'.
Proof.
  intros Hex H Hwf Hpart. apply process_request_effect in H.
  destruct H as (outcome & m1 & tr & Heff & Hout).
  assert (Hkeep : forall kept, kept `sublist_of` active m ->
            Forall (fun l => in_partition (objects m1 l)) kept).
  { intros kept Hsub. unfold leases_in_partition in Hpart.
    rewrite Forall_forall in *. intros l Hl.
    assert (Hin : l ∈ active m) by (eapply elem_of_sublist; eauto).
    destruct Hwf as [_ Hall]. rewrite Forall_forall in Hall.
    destruct (Hall l Hin) as [Hlt _].
    destruct Heff as (_ & Hobj & _).
    eapply in_partition_same_lease; [apply frozen_same_lease, Hobj, Hlt | auto]. }
  destruct outcome as [[fs fe]|]; destruct Hout as [-> _].
  - pose proof (granted_in_partition _ _ _ _ _ _ _ Hex Heff) as (lo & hi & Hp & H1 & H2).
    destruct Heff as (_ & _ & _ & _ & gl & kept & Hact & Hsub & _ & Hlease & _).
    unfold leases_in_partition. rewrite Hact. apply Forall_app. split; [auto|].
    apply Forall_singleton. destruct Hlease as (_ & _ & Hs & He & Hd & _).
    exists lo, hi. rewrite Hs, He, Hd. auto.
  - destruct Heff as (_ & _ & Hsub & _). unfold leases_in_partition. cbn. auto.
Qed.

Lemma process_request_granted_partition request request' current_tick m m' g g' :
  priority_mode arch_policy = "Exclusive" ->
  process_request environment arch_policy set_order request current_tick m g
  = Ok (m', request', g') ->
  SpectrumRequest.is_assigned request' = true ->
  exists freq_start freq_end lo hi : Z,
    SpectrumRequest.assigned_freq request' = Some (freq_start, freq_end)
    /\ band_partitions arch_policy !! SpectrumRequest.device_type request' = Some (lo, hi)
    /\ lo <= freq_start /\ freq_end <= hi.
Proof.
  intros Hex H Hass. apply process_request_effect in H.
  destruct H as (outcome & m1 & tr & Heff & Hout).
  destruct outcome as [[fs fe]|]; destruct Hout as [_ ->]; cbn in *; [|discriminate].
  pose proof (granted_in_partition _ _ _ _ _ _ _ Hex Heff) as (lo & hi & Hp & H1 & H2).
  exists fs, fe, lo, hi. auto.
Qed.

(** ** Renewal *)

(** [q'] is [q] after a number of multiplications by a mitigation factor:
    a quality is never reset. *)
Inductive scaled : float -> float -> Prop :=
| scaled_refl (q : float) : scaled q q
| scaled_mul (q q' f : float) :
    scaled q q' -> f = 0.7%float \/ f = 0.5%float -> scaled q (q' * f)%float.

Lemma scaled_trans (q1 q2 q3 : float) : scaled q1 q2 -> scaled q2 q3 -> scaled q1 q3.
Proof. intros H12 H23. induction H23; [exact H12|]. apply scaled_mul; auto. Qed.

Lemma scale_both_scaled (h : heap) (self other l : loc) (f : float) :
  f = 0.7%float \/ f = 0.5%float ->
  scaled (Assignment.quality (h l)) (Assignment.quality (scale_both h self other f l)).
Proof.
  intros Hf. unfold scale_both, heap_update.
  destruct (Nat.eqb_spec l other) as [->|_].
  - destruct (Nat.eqb_spec other self) as [->|_];
      repeat (match goal with |- context [h ?x] => destruct (h x) end); cbn;
      repeat (first [apply scaled_refl | apply scaled_mul; [|exact Hf]]).
  - destruct (Nat.eqb_spec l self) as [->|_]; [|apply scaled_refl].
    destruct (h self); cbn. apply scaled_mul; [apply scaled_refl | exact Hf].
Qed.

Lemma apply_mitigation_scaled (h h' : heap) (self other : loc) (b : bool) :
  apply_mitigation environment arch_policy h self other = Ok (h', b) ->
  forall l, scaled (Assignment.quality (h l)) (Assignment.quality (h' l)).
Proof.
  set (mitigation := interference_mitigation arch_policy).
  destruct (str_eqb mitigation "No Mitigation") eqn:Hno.
  { unfold apply_mitigation. fold mitigation. rewrite Hno.
    intros [= <- <-] l. apply scaled_refl. }
  destruct (get_node_relationship environment (h self) (h other)) as [r|e] eqn:Hr.
  - rewrite (apply_mitigation_table _ _ _ _ _ _ (proj1 (str_eqb_false _ _) Hno) Hr).
    cbv zeta. fold mitigation.
    destruct (str_eqb mitigation "Power Control"), (str_eqb mitigation "Beamforming"),
      (str_eqb mitigation "Combination"), r;
      intros [= <- <-] l; auto using scaled_refl, scale_both_scaled.
  - unfold apply_mitigation. fold mitigation. rewrite Hno, Hr. discriminate.
Qed.

Lemma renew_check_effect (a : loc) (todo seen : list loc) (h h' : heap) (c : bool) :
  renew_check environment arch_policy a todo seen h = Ok (h', c) ->
  forall l, frozen (h l) (h' l)
            /\ scaled (Assignment.quality (h l)) (Assignment.quality (h' l)).
Proof.
  revert seen h. induction todo as [|other todo IH]; intros seen h; simpl.
  { intros [= <- <-] l. auto using frozen_refl, scaled_refl. }
  destruct (_ || _); [apply IH|].
  destruct (conflicts_with _ _ _) as [[|]|e]; [| apply IH | discriminate].
  destruct (apply_mitigation _ _ _ _ _) as [[h1 [|]]|e] eqn:Hm; [| |discriminate].
  - intros H l. apply IH with (l := l) in H. destruct H as [H1 H2].
    split.
    + eapply frozen_trans; [eapply apply_mitigation_frozen; eauto | exact H1].
    + eapply scaled_trans; [eapply apply_mitigation_scaled; eauto | exact H2].
  - intros [= <- <-] l. split.
    + eapply apply_mitigation_frozen; eauto.
    + eapply apply_mitigation_scaled; eauto.
Qed.


Lemma renewed_not_due (current_tick : Z) (a : Assignment.t) :
  is_due current_tick
    (Assignment.set_next_check_tick
       (Some (num_add current_tick (query_interval arch_policy))) a) = false.
Proof.
  unfold is_due, query_interval. cbn.
  destruct (str_eqb _ "Manual"); [reflexivity|].
  destruct (str_eqb _ "Semi-Dynamic"); cbn; lia.
Qed.

Lemma is_due_frozen (current_tick : Z) (a b : Assignment.t) :
  frozen a b -> is_due current_tick b = is_due current_tick a.
Proof. intros H. unfold is_due. rewrite (frozen_next_check_tick _ _ H). reflexivity. Qed.

(** What the main loop of [renew_assignments] does: the store is not
    touched, the objects keep their lease, the assignments appended to
    [assignments_to_remove] were due, each counted as one denial, and every
    assignment that was due is either among them or renewed. *)
Lemma renew_loop_effect (current_tick : Z) (snapshot : list loc)
    (m m' : SpectrumManager.t) (R R' : list loc) :
  renew_loop environment arch_policy current_tick snapshot m R = Ok (m', R') ->
  active m' = active m
  /\ square_to_assignments m' = square_to_assignments m
  /\ next_loc m' = next_loc m
  /\ next_assignment_id m' = next_assignment_id m
  /\ MetricsCollector.requests_total (metrics m')
     = MetricsCollector.requests_total (metrics m)
  /\ (forall l, same_lease (objects m l) (objects m' l)
                /\ scaled (Assignment.quality (objects m l))
                          (Assignment.quality (objects m' l)))
  /\ exists R1 : list loc,
       R' = R ++ R1
       /\ R1 `sublist_of` snapshot
       /\ MetricsCollector.requests_denied (metrics m')
          = MetricsCollector.requests_denied (metrics m) + Z.of_nat (length R1)
       /\ (forall l, is_due current_tick (objects m l) = false ->
                     Assignment.next_check_tick (objects m' l)
                     = Assignment.next_check_tick (objects m l)
                     /\ ~ In l R1)
       /\ (forall l, In l snapshot -> is_due current_tick (objects m l) = true ->
                     In l R1
                     \/ Assignment.next_check_tick (objects m' l)
                        = Some (num_add current_tick (query_interval arch_policy))).
Proof.
  revert m R. induction snapshot as [|a rest IH]; intros m R; simpl.
  { intros [= <- <-]. split_and!; auto using same_lease_refl, scaled_refl.
    exists []. rewrite app_nil_r. split_and!; auto; try reflexivity.
    cbn. lia. }
  destruct (is_due current_tick (objects m a)) eqn:Hdue; cbn [negb].
  2:{ intros H. apply IH in H.
      destruct H as (H1 & H2 & H3 & H4 & H5 & H6 & R1 & HR & Hsub & Hden & Hnd & Hd).
      split_and!; auto.
      exists R1. split_and!; auto.
      - apply sublist_cons. exact Hsub.
      - intros l [<-|Hin] Hl; [congruence | auto]. }
  destruct (py_index _ _) as [node|e]; [|discriminate].
  destruct (renew_check _ _ _ _ _ _) as [[h' [|]]|e] eqn:Hrc; [| |discriminate].
  - (* unresolved conflict: revoked *)
    pose proof (renew_check_effect _ _ _ _ _ _ Hrc) as Hh.
    intros H. apply IH in H. cbn in H.
    destruct H as (H1 & H2 & H3 & H4 & H5 & H6 & R1 & HR & Hsub & Hden & Hnd & Hd).
    split_and!; auto.
    + intros l. split.
      * eapply same_lease_trans; [apply frozen_same_lease, Hh | apply H6].
      * eapply scaled_trans; [apply Hh | apply H6].
    + exists (a :: R1). rewrite HR, <- app_assoc. split; [reflexivity|].
      split; [apply sublist_skip; exact Hsub|].
      split; [rewrite Hden; cbn [length]; lia|]. split.
      * intros l Hl.
        assert (Hl' : is_due current_tick (h' l) = false)
          by (rewrite (is_due_frozen _ _ _ (proj1 (Hh l))); exact Hl).
        destruct (Hnd l Hl') as [Hn Hni]. split.
        -- rewrite Hn. apply frozen_next_check_tick, Hh.
        -- intros [<-|Hin]; [congruence | auto].
      * intros l Hin Hl. destruct (Nat.eq_dec a l) as [<-|Hne]; [left; left; reflexivity|].
        destruct Hin as [Heq|Hin]; [contradiction|].
        assert (Hl' : is_due current_tick (h' l) = true)
          by (rewrite (is_due_frozen _ _ _ (proj1 (Hh l))); exact Hl).
        destruct (Hd l Hin Hl') as [Hr|Hr]; [left; right; exact Hr | right; exact Hr].
  - (* resolved or conflict-free: renewed *)
    pose proof (renew_check_effect _ _ _ _ _ _ Hrc) as Hh.
    intros H. apply IH in H. cbn in H.
    destruct H as (H1 & H2 & H3 & H4 & H5 & H6 & R1 & HR & Hsub & Hden & Hnd & Hd).
    assert (Hmet : forall s : MetricsCollector.t,
              MetricsCollector.requests_total
                (if str_eqb (licensing_mode arch_policy) "Dynamic" then s
                 else MetricsCollector.add_coord_queries (renewal_query_cost) s)
              = MetricsCollector.requests_total s
              /\ MetricsCollector.requests_denied
                   (if str_eqb (licensing_mode arch_policy) "Dynamic" then s
                    else MetricsCollector.add_coord_queries (renewal_query_cost) s)
                 = MetricsCollector.requests_denied s)
      by (intros s; destruct (str_eqb _ _); split; reflexivity).
    rewrite (proj1 (Hmet _)) in H5. rewrite (proj2 (Hmet _)) in Hden.
    assert (Hupd : forall l,
              heap_update h' a
                (Assignment.set_next_check_tick
                   (Some (num_add current_tick (query_interval arch_policy)))) l
              = if Nat.eqb l a
                then Assignment.set_next_check_tick
                       (Some (num_add current_tick (query_interval arch_policy))) (h' a)
                else h' l) by reflexivity.
    split_and!; auto.
    + intros l. split.
      * eapply same_lease_trans; [|apply H6]. rewrite Hupd.
        destruct (Nat.eqb_spec l a) as [->|_]; [|apply frozen_same_lease, Hh].
        eapply same_lease_trans; [apply frozen_same_lease, Hh|].
        apply same_lease_set_next_check_tick.
      * eapply scaled_trans; [|apply H6]. rewrite Hupd.
        destruct (Nat.eqb_spec l a) as [->|_]; [|apply Hh].
        destruct (Hh a) as [_ Hs]. destruct (h' a); exact Hs.
    + exists R1. split; [exact HR|]. split; [apply sublist_cons; exact Hsub|].
      split; [exact Hden|]. split.
      * intros l Hl. assert (Hne : l <> a) by congruence.
        specialize (Hupd l). destruct (Nat.eqb_spec l a) as [|_]; [contradiction|].
        assert (Hl' : is_due current_tick
                        (heap_update h' a
                           (Assignment.set_next_check_tick
                              (Some (num_add current_tick (query_interval arch_policy)))) l)
                      = false)
          by (rewrite Hupd, (is_due_frozen _ _ _ (proj1 (Hh l))); exact Hl).
        destruct (Hnd l Hl') as [Hn Hni]. split; [|exact Hni].
        rewrite Hn, Hupd. apply frozen_next_check_tick, Hh.
      * intros l Hin Hl. destruct (Nat.eq_dec l a) as [->|Hne].
        -- right.
           assert (Hl' : is_due current_tick
                           (heap_update h' a
                              (Assignment.set_next_check_tick
                                 (Some (num_add current_tick (query_interval arch_policy))))
                              a)
                         = false)
             by (rewrite Hupd, Nat.eqb_refl; apply renewed_not_due).
           destruct (Hnd a Hl') as [Hn _]. rewrite Hn, Hupd, Nat.eqb_refl.
           destruct (h' a); reflexivity.
        -- destruct Hin as [Heq|Hin]; [congruence|].
           specialize (Hupd l). destruct (Nat.eqb_spec l a) as [|_]; [contradiction|].
           apply Hd; [exact Hin|].
           rewrite Hupd, (is_due_frozen _ _ _ (proj1 (Hh l))). exact Hl.
Qed.

Lemma NoDup_fmap_inj {A B : Type} (f : A -> B) (l : list A) (x y : A) :
  NoDup (f <$> l) -> x ∈ l -> y ∈ l -> f x = f y -> x = y.
Proof.
  induction l as [|z l IH]; cbn; intros Hnd Hx Hy Hf; [inversion Hx|].
  apply NoDup_cons in Hnd. destruct Hnd as [Hz Hnd].
  apply elem_of_cons in Hx. apply elem_of_cons in Hy.
  destruct Hx as [->|Hx], Hy as [->|Hy]; auto.
  - exfalso. apply Hz. rewrite Hf. apply list_elem_of_fmap. eauto.
  - exfalso. apply Hz. rewrite <- Hf. apply list_elem_of_fmap. eauto.
Qed.

Lemma assignment_eqb_id (a b : Assignment.t) :
  Assignment.eqb a b = true -> Assignment.assignment_id a = Assignment.assignment_id b.
Proof.
  unfold Assignment.eqb. intros H.
  repeat (apply andb_true_iff in H; destruct H as [H _]).
  apply Z.eqb_eq. exact H.
Qed.

(** In a well-formed store, [==] on stored assignments is identity. *)
Lemma store_wf_py_eq (m : SpectrumManager.t) (x y : loc) :
  store_wf m -> In x (active m) -> In y (active m) ->
  py_eq (objects m) x y = true -> x = y.
Proof.
  intros [Hnd _] Hx Hy H. unfold py_eq in H. apply orb_true_iff in H.
  destruct H as [H|H]; [apply Nat.eqb_eq; exact H|].
  apply assignment_eqb_id in H.
  apply (NoDup_fmap_inj _ _ _ _ Hnd); [apply list_elem_of_In .. |]; auto.
Qed.

Lemma py_remove_present (h : heap) (a : loc) (l : list loc) :
  List.NoDup l -> In a l ->
  (forall y, In y l -> py_eq h y a = true -> y = a) ->
  py_in h a l = true
  /\ (length (py_remove h a l) + 1 = length l)%nat
  /\ ~ In a (py_remove h a l)
  /\ (forall y, y <> a -> In y l -> In y (py_remove h a l)).
Proof.
  unfold py_in. induction l as [|z l IH]; intros Hnd Hin Htwin; [destruct Hin|].
  inversion Hnd as [|? ? Hz Hnd']; subst. simpl.
  destruct (py_eq h z a) eqn:Hza.
  - assert (z = a) by (apply Htwin; [left; reflexivity | exact Hza]). subst z.
    cbn. split_and!; auto; try lia.
    intros y Hne [->|Hy]; [contradiction | exact Hy].
  - destruct Hin as [->|Hin]; [rewrite py_eq_refl in Hza; discriminate|].
    destruct (IH Hnd' Hin) as (H1 & H2 & H3 & H4).
    { intros y Hy. apply Htwin. right. exact Hy. }
    cbn [orb]. split_and!; auto.
    + simpl. lia.
    + intros [->|Hc]; [rewrite py_eq_refl in Hza; discriminate | auto].
    + intros y Hne [->|Hy]; [left; reflexivity | right; auto].
Qed.

Lemma store_wf_NoDup (m : SpectrumManager.t) : store_wf m -> List.NoDup (active m).
Proof. intros [Hnd _]. apply NoDup_ListNoDup. eapply NoDup_fmap_1. exact Hnd. Qed.

Lemma store_shrinks_wf (m m' : SpectrumManager.t) :
  store_shrinks m m' -> store_wf m -> store_wf m'.
Proof.
  intros [Hl Hid _ Ha _ Ho] Hwf.
  apply (store_wf_sublist m); auto using frozen_same_lease; lia.
Qed.

(** Removing a stored assignment takes exactly that assignment out of
    [active]. *)
Lemma remove_assignment_present (m m' : SpectrumManager.t) (a : loc) :
  store_wf m -> In a (active m) ->
  _remove_assignment environment m a = Ok m' ->
  (length (active m') + 1 = length (active m))%nat
  /\ ~ In a (active m')
  /\ (forall y, y <> a -> In y (active m) -> In y (active m'))
  /\ store_shrinks m m' /\ objects m' = objects m.
Proof.
  intros Hwf Hin Hr.
  destruct (remove_assignment_shrinks _ _ _ Hr) as [Hs Ho].
  destruct (py_remove_present (objects m) a (active m)) as (H1 & H2 & H3 & H4);
    auto using store_wf_NoDup.
  { intros y Hy. apply store_wf_py_eq; auto. }
  unfold _remove_assignment in Hr. rewrite H1 in Hr.
  destruct (py_index _ _) as [node|e]; cbn in Hr; [|discriminate].
  injection Hr as <-. cbn. auto.
Qed.

Lemma remove_all_effect (R : list loc) (m m' : SpectrumManager.t) :
  store_wf m -> List.NoDup R -> (forall a, In a R -> In a (active m)) ->
  remove_all environment R m = Ok m' ->
  (length (active m') + length R = length (active m))%nat
  /\ (forall a, In a R -> ~ In a (active m'))
  /\ (forall y, ~ In y R -> In y (active m) -> In y (active m'))
  /\ store_shrinks m m' /\ objects m' = objects m.
Proof.
  revert m. induction R as [|a R IH]; intros m Hwf Hnd Hin; simpl.
  { intros [= <-]. split_and!; auto using store_shrinks_refl. }
  destruct (_remove_assignment environment m a) as [m1|e] eqn:Hr; cbn; [|discriminate].
  intros Hall. inversion Hnd as [|? ? Ha HndR]; subst.
  destruct (remove_assignment_present _ _ _ Hwf (Hin a (or_introl eq_refl)) Hr)
    as (H1 & H2 & H3 & H4 & H5).
  destruct (IH m1) as (I1 & I2 & I3 & I4 & I5); auto.
  { eapply store_shrinks_wf; eauto. }
  { intros y Hy. apply H3; [intros ->; contradiction | apply Hin; right; exact Hy]. }
  split_and!.
  - lia.
  - intros y [<-|Hy]; [|auto].
    intros Hc. apply H2. apply list_elem_of_In.
    eapply elem_of_sublist; [apply list_elem_of_In; exact Hc | apply I4].
  - intros y Hy Hy'. apply I3; [tauto|]. apply H3; [|exact Hy'].
    intros ->. apply Hy. left. reflexivity.
  - eapply store_shrinks_trans; eauto.
  - congruence.
Qed.

Lemma coord_fold_counters (cost : float) (l : list loc) (s : MetricsCollector.t) :
  MetricsCollector.requests_total
    (fold_left (fun s _ => MetricsCollector.add_coord_queries cost s) l s)
  = MetricsCollector.requests_total s
  /\ MetricsCollector.requests_denied
       (fold_left (fun s _ => MetricsCollector.add_coord_queries cost s) l s)
     = MetricsCollector.requests_denied s.
Proof.
  revert s. induction l as [|x l IH]; intros s; simpl; [auto|].
  destruct (IH (MetricsCollector.add_coord_queries cost s)) as [-> ->]. auto.
Qed.

(** What [renew_assignments] does to a well-formed store. *)
Lemma renew_assignments_effect (current_tick : Z) (m m' : SpectrumManager.t) :
  store_wf m ->
  renew_assignments environment arch_policy current_tick m = Ok m' ->
  store_wf m'
  /\ active m' `sublist_of` active m
  /\ next_loc m' = next_loc m
  /\ next_assignment_id m' = next_assignment_id m
  /\ MetricsCollector.requests_total (metrics m')
     = MetricsCollector.requests_total (metrics m)
  /\ MetricsCollector.requests_denied (metrics m') + Z.of_nat (length (active m'))
     = MetricsCollector.requests_denied (metrics m) + Z.of_nat (length (active m))
  /\ (forall l, same_lease (objects m l) (objects m' l)
                /\ scaled (Assignment.quality (objects m l))
                          (Assignment.quality (objects m' l)))
  /\ (forall l, is_due current_tick (objects m l) = false ->
                Assignment.next_check_tick (objects m' l)
                = Assignment.next_check_tick (objects m l)
                /\ (In l (active m) -> In l (active m')))
  /\ (forall l, In l (active m) -> is_due current_tick (objects m l) = true ->
                ~ In l (active m')
                \/ (In l (active m')
                    /\ Assignment.next_check_tick (objects m' l)
                       = Some (num_add current_tick (query_interval arch_policy)))).
Proof.
  intros Hwf. unfold renew_assignments.
  destruct (renew_loop _ _ _ _ _ _) as [[ml R']|e] eqn:Hloop; cbn; [|discriminate].
  intros Hrm. apply renew_loop_effect in Hloop. cbn in Hloop.
  destruct Hloop as (H1 & H2 & H3 & H4 & H5 & H6 & R1 & HR & Hsub & Hden & Hnd & Hd).
  cbn in HR. subst R'.
  assert (Hcount :
            MetricsCollector.requests_total
              (if str_eqb (licensing_mode arch_policy) "Dynamic"
               then fold_left (fun s _ => MetricsCollector.add_coord_queries
                                            renewal_query_cost s)
                              (active m) (metrics m)
               else metrics m)
            = MetricsCollector.requests_total (metrics m)
            /\ MetricsCollector.requests_denied
                 (if str_eqb (licensing_mode arch_policy) "Dynamic"
                  then fold_left (fun s _ => MetricsCollector.add_coord_queries
                                               renewal_query_cost s)
                                 (active m) (metrics m)
                  else metrics m)
               = MetricsCollector.requests_denied (metrics m)).
  { destruct (str_eqb _ _); [apply coord_fold_counters | auto]. }
  destruct Hcount as [Ht Hdn]. rewrite Ht in H5. rewrite Hdn in Hden.
  assert (Hwfl : store_wf ml).
  { apply (store_wf_sublist m); auto; try lia.
    - rewrite H1. reflexivity.
    - intros l _. apply H6. }
  assert (HinR : forall a, In a R1 -> In a (active ml)).
  { intros a Ha. rewrite H1. apply list_elem_of_In.
    eapply elem_of_sublist; [apply list_elem_of_In; exact Ha | exact Hsub]. }
  assert (HndR : List.NoDup R1).
  { apply NoDup_ListNoDup. eapply sublist_NoDup; [|exact Hsub].
    apply NoDup_ListNoDup. apply store_wf_NoDup. exact Hwf. }
  destruct (remove_all_effect R1 ml m' Hwfl HndR HinR Hrm) as (E1 & E2 & E3 & E4 & E5).
  destruct E4 as [El Eid Emet Eact Eidx Eobj].
  split_and!.
  - eapply store_shrinks_wf; [|exact Hwfl]. split; auto.
  - rewrite <- H1. exact Eact.
  - congruence.
  - congruence.
  - rewrite Emet. exact H5.
  - rewrite Emet, Hden. rewrite <- H1. lia.
  - intros l. rewrite E5. apply H6.
  - intros l Hl. destruct (Hnd l Hl) as [Hn Hni]. rewrite E5. split; [exact Hn|].
    intros Hin. apply E3; [exact Hni | rewrite H1; exact Hin].
  - intros l Hin Hl. rewrite E5.
    destruct (in_dec Nat.eq_dec l R1) as [HR|HR]; [left; apply E2; exact HR|].
    right. split; [apply E3; [exact HR | rewrite H1; exact Hin]|].
    destruct (Hd l Hin Hl) as [Hc|Hc]; [contradiction | exact Hc].
Qed.

Lemma renew_assignments_counters (current_tick : Z) (m m' : SpectrumManager.t) :
  store_wf m ->
  renew_assignments environment arch_policy current_tick m = Ok m' ->
  counters_ok m -> counters_ok m'.
Proof.
  intros Hwf Hr [H0 Hc]. apply renew_assignments_effect in Hr; [|exact Hwf].
  destruct Hr as (_ & Hsub & _ & _ & Ht & Hd & _).
  apply sublist_length in Hsub. unfold counters_ok. lia.
Qed.

(** ** The states of a run *)

(** The managers that a run can reach: the manager created around a fresh
    metrics collector, then any sequence of calls to [process_arrivals] and
    [renew_assignments] that return. *)
Inductive reachable : SpectrumManager.t -> Prop :=
| reachable_init : reachable (SpectrumManager.init MetricsCollector.init)
| reachable_arrivals (m m' : SpectrumManager.t) (requests requests' : list SpectrumRequest.t)
    (current_tick : Z) (g g' : rng) :
    reachable m ->
    process_arrivals environment arch_policy set_order requests current_tick m g
    = Ok (m', requests', g') ->
    reachable m'
| reachable_renew (m m' : SpectrumManager.t) (current_tick : Z) :
    reachable m ->
    renew_assignments environment arch_policy current_tick m = Ok m' ->
    reachable m'.

Lemma init_wf : store_wf (SpectrumManager.init MetricsCollector.init).
Proof. split; cbn; constructor. Qed.

Lemma reachable_wf (m : SpectrumManager.t) : reachable m -> store_wf m.
Proof.
  induction 1 as [|m m' requests requests' t g g' _ IH Hp|m m' t _ IH Hr].
  - exact init_wf.
  - revert Hp IH. apply (process_arrivals_preserves store_wf).
    intros. eapply process_request_wf; eauto.
  - eapply renew_assignments_effect; eauto.
Qed.

Lemma reachable_counters (m : SpectrumManager.t) : reachable m -> counters_ok m.
Proof.
  induction 1 as [|m m' requests requests' t g g' Hm IH Hp|m m' t Hm IH Hr].
  - unfold counters_ok. cbn. lia.
  - revert Hp IH. apply (process_arrivals_preserves counters_ok).
    intros. eapply process_request_counters; eauto.
  - eapply renew_assignments_counters; eauto using reachable_wf.
Qed.

Lemma blocking_prob_le_1 (s : MetricsCollector.t) :
  MetricsCollector.requests_denied s <= MetricsCollector.requests_total s ->
  (MetricsCollector.blocking_prob s <= 1)%Q.
Proof.
  intros H. unfold MetricsCollector.blocking_prob, Qle. cbn.
  rewrite Z2Pos.id by lia. lia.
Qed.

(** C10.  In every state that a run reaches from a manager created around
    a zero-initialised metrics collector, [requests_denied] is at most
    [requests_total] (the denials and the active assignments together are at
    most the requests counted), so the blocking probability that
    [final_report] computes is at most 1.  A renewal of such a state leaves
    [requests_total] as it is and adds to [requests_denied] exactly the
    number of assignments it takes out of [active], each of which was
    counted in [requests_total] when it was granted. *)
Theorem denied_never_exceeds_total (m : SpectrumManager.t) :
  reachable m ->
  MetricsCollector.requests_denied (metrics m) <= MetricsCollector.requests_total (metrics m)
  /\ 0 <= MetricsCollector.requests_denied (metrics m)
  /\ MetricsCollector.requests_denied (metrics m) + Z.of_nat (length (active m))
     <= MetricsCollector.requests_total (metrics m)
  /\ (MetricsCollector.blocking_prob (metrics m) <= 1)%Q
  /\ (forall (current_tick : Z) (m' : SpectrumManager.t),
        renew_assignments environment arch_policy current_tick m = Ok m' ->
        MetricsCollector.requests_total (metrics m')
        = MetricsCollector.requests_total (metrics m)
        /\ active m' `sublist_of` active m
        /\ MetricsCollector.requests_denied (metrics m')
           = MetricsCollector.requests_denied (metrics m)
             + (Z.of_nat (length (active m)) - Z.of_nat (length (active m')))).
Proof.
  intros Hr. destruct (reachable_counters m Hr) as [H0 Hc].
  assert (Hle : MetricsCollector.requests_denied (metrics m)
                <= MetricsCollector.requests_total (metrics m)) by lia.
  split_and!; auto using blocking_prob_le_1.
  intros current_tick m' Hrenew.
  apply renew_assignments_effect in Hrenew; [|apply reachable_wf; exact Hr].
  destruct Hrenew as (_ & Hsub & _ & _ & Ht & Hd & _).
  split_and!; auto. lia.
Qed.

Lemma band_partitions_exclusive :
  priority_mode arch_policy = "Exclusive" ->
  band_partitions arch_policy
  = <["5G" := (37000, 37200)]> (<["IoT" := (37200, 37400)]>
      (<["Federal" := (37400, 37600)]> ∅)).
Proof. intros Hex. unfold band_partitions. rewrite Hex. reflexivity. Qed.

Lemma band_partitions_lookup (device_type : string) (lo hi : Z) :
  band_partitions arch_policy !! device_type = Some (lo, hi) ->
  (device_type = "5G" /\ lo = 37000 /\ hi = 37200)
  \/ (device_type = "IoT" /\ lo = 37200 /\ hi = 37400)
  \/ (device_type = "Federal" /\ lo = 37400 /\ hi = 37600).
Proof.
  unfold band_partitions. destruct (str_eqb _ _); [|rewrite lookup_empty; discriminate].
  change (TOTAL_BANDWIDTH_MHZ / 3) with 200. unfold FREQ_BASE_MHZ, TOTAL_BANDWIDTH_MHZ.
  rewrite !lookup_insert. repeat case_decide; subst; rewrite ?lookup_empty;
    intros [= <- <-]; auto 6.
Qed.

Lemma reachable_in_partition (m : SpectrumManager.t) :
  priority_mode arch_policy = "Exclusive" -> reachable m -> leases_in_partition m.
Proof.
  intros Hex.
  induction 1 as [|m m' requests requests' t g g' Hm IH Hp|m m' t Hm IH Hr].
  - constructor.
  - assert (H : store_wf m' /\ leases_in_partition m'); [|apply H].
    revert Hp. revert requests requests' m m' g g' Hm IH.
    intros requests requests' m m' g g' Hm IH Hp.
    apply (process_arrivals_preserves
             (fun m => store_wf m /\ leases_in_partition m) t) in Hp;
      auto using reachable_wf.
    intros request request' m0 m0' g0 g0' H0 [Hw Hl].
    split; [eapply process_request_wf | eapply process_request_partition]; eauto.
  - apply renew_assignments_effect in Hr; [|apply reachable_wf; exact Hm].
    destruct Hr as (_ & Hsub & _ & _ & _ & _ & Hobj & _).
    unfold leases_in_partition in *. rewrite Forall_forall in *.
    intros l Hl. eapply in_partition_same_lease; [apply Hobj|].
    apply IH. eapply elem_of_sublist; eauto.
Qed.

(** C5.  Under exclusive priority the band partitions are the three
    thirds of the band, 5G below IoT below Federal, each 200 MHz wide,
    adjoining and therefore pairwise disjoint, and no other device class has
    one; in every state that a run reaches, the interval of every active
    assignment lies within the partition of its device class; and every
    request that [process_arrivals] returns as assigned was granted an
    interval within the partition of its device class. *)
Theorem exclusive_grants_within_partitions :
  priority_mode arch_policy = "Exclusive" ->
  (band_partitions arch_policy !! "5G"
   = Some (FREQ_BASE_MHZ, FREQ_BASE_MHZ + TOTAL_BANDWIDTH_MHZ / 3)
   /\ band_partitions arch_policy !! "IoT"
      = Some (FREQ_BASE_MHZ + TOTAL_BANDWIDTH_MHZ / 3,
              FREQ_BASE_MHZ + 2 * (TOTAL_BANDWIDTH_MHZ / 3))
   /\ band_partitions arch_policy !! "Federal"
      = Some (FREQ_BASE_MHZ + 2 * (TOTAL_BANDWIDTH_MHZ / 3),
              FREQ_BASE_MHZ + TOTAL_BANDWIDTH_MHZ)
   /\ 3 * (TOTAL_BANDWIDTH_MHZ / 3) = TOTAL_BANDWIDTH_MHZ)
  /\ (forall (d : string) (lo hi : Z),
        band_partitions arch_policy !! d = Some (lo, hi) ->
        (d = "5G" \/ d = "IoT" \/ d = "Federal")
        /\ FREQ_BASE_MHZ <= lo /\ hi = lo + TOTAL_BANDWIDTH_MHZ / 3
        /\ hi <= FREQ_BASE_MHZ + TOTAL_BANDWIDTH_MHZ)
  /\ (forall (d1 d2 : string) (lo1 hi1 lo2 hi2 : Z),
        d1 <> d2 ->
        band_partitions arch_policy !! d1 = Some (lo1, hi1) ->
        band_partitions arch_policy !! d2 = Some (lo2, hi2) ->
        hi1 <= lo2 \/ hi2 <= lo1)
  /\ (forall m : SpectrumManager.t,
        reachable m ->
        Forall (fun l => exists lo hi : Z,
                  band_partitions arch_policy !! Assignment.device_type (objects m l)
                  = Some (lo, hi)
                  /\ lo <= Assignment.freq_start (objects m l)
                  /\ Assignment.freq_end (objects m l) <= hi)
               (active m))
  /\ (forall (requests requests' : list SpectrumRequest.t) (current_tick : Z)
             (m m' : SpectrumManager.t) (g g' : rng),
        process_arrivals environment arch_policy set_order requests current_tick m g
        = Ok (m', requests', g') ->
        Forall (fun request' =>
                  SpectrumRequest.is_assigned request' = true ->
                  exists freq_start freq_end lo hi : Z,
                    SpectrumRequest.assigned_freq request' = Some (freq_start, freq_end)
                    /\ band_partitions arch_policy !! SpectrumRequest.device_type request'
                       = Some (lo, hi)
                    /\ lo <= freq_start /\ freq_end <= hi)
               requests').
Proof.
  intros Hex. split_and!.
  - rewrite (band_partitions_exclusive Hex). reflexivity.
  - rewrite (band_partitions_exclusive Hex). reflexivity.
  - rewrite (band_partitions_exclusive Hex). reflexivity.
  - reflexivity.
  - intros d lo hi H. apply band_partitions_lookup in H.
    change (TOTAL_BANDWIDTH_MHZ / 3) with 200. unfold FREQ_BASE_MHZ, TOTAL_BANDWIDTH_MHZ.
    destruct H as [(-> & -> & ->)|[(-> & -> & ->)|(-> & -> & ->)]]; split_and!; auto; lia.
  - intros d1 d2 lo1 hi1 lo2 hi2 Hne H1 H2.
    apply band_partitions_lookup in H1, H2.
    destruct H1 as [(-> & -> & ->)|[(-> & -> & ->)|(-> & -> & ->)]];
      destruct H2 as [(-> & -> & ->)|[(-> & -> & ->)|(-> & -> & ->)]];
      try contradiction; lia.
  - intros m Hr. apply (reachable_in_partition m Hex Hr).
  - intros requests requests' current_tick m m' g g'.
    apply (process_arrivals_requests _ current_tick).
    intros request request' m0 m0' g0 g0' H0.
    eapply process_request_granted_partition; eauto.
Qed.

(** ** Preemption under hierarchical priority *)

Lemma conflicts_with_true_node (self other : Assignment.t) :
  conflicts_with environment self other = Ok true ->
  exists node, py_index (Environment.nodes environment) (Assignment.node_id other) = Ok node.
Proof.
  unfold conflicts_with. destruct (_ || _); [discriminate|].
  destruct (py_index _ (Assignment.node_id self)); cbn; [|discriminate].
  destruct (py_index _ (Assignment.node_id other)) as [node|]; cbn; [|discriminate].
  eauto.
Qed.

Lemma first_conflict_none (h : heap) (temp : loc) (l : list loc) :
  first_conflict environment h temp l = Ok None ->
  forall x, In x l -> conflicts_with environment (h temp) (h x) = Ok false.
Proof.
  induction l as [|other l IH]; simpl; [intros _ x []|].
  destruct (conflicts_with _ _ _) as [[|]|e] eqn:Hc; cbn; try discriminate.
  intros H x [<-|Hx]; auto.
Qed.

(** Once nothing but the visited assignments conflicts with the candidate,
    the loop runs to its end and leaves the flag [conflict] unset. *)
Lemma check_conflicts_no_conflict (possible_conflicts : list loc) (temp : loc)
    (todo seen : list loc) (m : SpectrumManager.t) (tr : list trace_event) :
  (forall x, In x todo -> existsb (Nat.eqb x) seen = false ->
             conflicts_with environment (objects m temp) (objects m x) = Ok false) ->
  check_conflicts environment arch_policy possible_conflicts temp todo seen m tr
  = Ok (m, tr, false).
Proof.
  revert seen. induction todo as [|x todo IH]; intros seen Hfree; simpl; [reflexivity|].
  destruct (existsb (Nat.eqb x) seen) eqn:Hseen.
  { apply IH. intros y Hy. apply Hfree. right. exact Hy. }
  rewrite (Hfree x (or_introl eq_refl) Hseen).
  apply IH. intros y Hy Hy'. apply Hfree; [right; exact Hy|].
  cbn in Hy'. apply orb_false_iff in Hy'. tauto.
Qed.

End Frame.

(** ** Runs on the 1-square grid *)

(** The manager that a call of [process_arrivals] returned. *)
Definition manager_after (r : result (SpectrumManager.t * list SpectrumRequest.t * rng))
    (otherwise : SpectrumManager.t) : SpectrumManager.t :=
  match r with
  | Ok (m, _, _) => m
  | Raise _ => otherwise
  end.

(** The manager that a call of [renew_assignments] returned. *)
Definition manager_renewed (r : result SpectrumManager.t) (otherwise : SpectrumManager.t)
    : SpectrumManager.t :=
  match r with
  | Ok m => m
  | Raise _ => otherwise
  end.

Lemma reachable_manager_after (environment : Environment.t)
    (arch_policy : ArchitecturePolicy.t) (set_order : list Z -> list Z)
    (requests : list SpectrumRequest.t) (current_tick : Z) (m : SpectrumManager.t) (g : rng) :
  reachable environment arch_policy set_order m ->
  reachable environment arch_policy set_order
    (manager_after
       (process_arrivals environment arch_policy set_order requests current_tick m g) m).
Proof.
  intros Hm. destruct (process_arrivals _ _ _ _ _ _ _) as [[[m' r'] g']|e] eqn:E; cbn.
  - eapply reachable_arrivals; eauto.
  - exact Hm.
Qed.

Lemma reachable_manager_renewed (environment : Environment.t)
    (arch_policy : ArchitecturePolicy.t) (set_order : list Z -> list Z)
    (current_tick : Z) (m : SpectrumManager.t) :
  reachable environment arch_policy set_order m ->
  reachable environment arch_policy set_order
    (manager_renewed (renew_assignments environment arch_policy current_tick m) m).
Proof.
  intros Hm. destruct (renew_assignments _ _ _ _) as [m'|e] eqn:E; cbn.
  - eapply reachable_renew; eauto.
  - exact Hm.
Qed.

Definition insertion_order (l : list Z) : list Z := l.

Definition new_manager : SpectrumManager.t := SpectrumManager.init MetricsCollector.init.

(** Decentralized coordination without mitigation: node 0 does not see
    the lease of node 3, which is not its neighbour, so two requests for the
    whole band are both granted; the renewal at tick 1440 reviews both,
    finds each in conflict with the other and revokes both. *)
Definition blind_spot_policy : ArchitecturePolicy.t :=
  ArchitecturePolicy.mk "Decentralized" "Semi-Dynamic" "Freq Slicing" "No Mitigation"
    "Device Based" "No Cost" "Active" "Co-Primary".

Definition blind_spot_granted : SpectrumManager.t :=
  manager_after
    (process_arrivals grid1 blind_spot_policy insertion_order
       [SpectrumRequest.init 0 0 3 600 "5G"; SpectrumRequest.init 1 0 0 600 "5G"] 0
       new_manager [])
    new_manager.

Definition blind_spot_renewed : SpectrumManager.t :=
  manager_renewed (renew_assignments grid1 blind_spot_policy 1440 blind_spot_granted)
    blind_spot_granted.

Lemma blind_spot_renewed_reachable :
  reachable grid1 blind_spot_policy insertion_order blind_spot_renewed.
Proof.
  apply reachable_manager_renewed, reachable_manager_after, reachable_init.
Qed.

Lemma denied_never_exceeds_total_witness :
  reachable grid1 blind_spot_policy insertion_order blind_spot_renewed
  /\ MetricsCollector.requests_total (metrics blind_spot_granted) = 2
  /\ MetricsCollector.requests_denied (metrics blind_spot_granted) = 0
  /\ length (active blind_spot_granted) = 2%nat
  /\ MetricsCollector.requests_total (metrics blind_spot_renewed) = 2
  /\ MetricsCollector.requests_denied (metrics blind_spot_renewed) = 2
  /\ active blind_spot_renewed = []
  /\ MetricsCollector.requests_denied (metrics blind_spot_renewed)
     <= MetricsCollector.requests_total (metrics blind_spot_renewed)
  /\ (MetricsCollector.blocking_prob (metrics blind_spot_renewed) <= 1)%Q.
Proof.
  split; [exact blind_spot_renewed_reachable|].
  split; [vm_compute; reflexivity|]. split; [vm_compute; reflexivity|].
  split; [vm_compute; reflexivity|]. split; [vm_compute; reflexivity|].
  split; [vm_compute; reflexivity|]. split; [vm_compute; reflexivity|].
  destruct (denied_never_exceeds_total grid1 blind_spot_policy insertion_order
              blind_spot_renewed blind_spot_renewed_reachable) as (H1 & _ & _ & H2 & _).
  split; [exact H1 | exact H2].
Defined.

(** The policy and the requests of tests/test_exclusive_partition.py:
    one whole partition for each device class. *)
Definition exclusive_policy : ArchitecturePolicy.t :=
  ArchitecturePolicy.mk "Centralized" "Manual" "Large Blocks" "No Mitigation"
    "Database Only" "No Cost" "Active" "Exclusive".

Definition exclusive_granted : SpectrumManager.t :=
  manager_after
    (process_arrivals grid1 exclusive_policy insertion_order
       [SpectrumRequest.init 0 0 0 200 "5G"; SpectrumRequest.init 1 0 0 200 "IoT";
        SpectrumRequest.init 2 0 0 200 "Federal"] 0 new_manager [])
    new_manager.

Lemma exclusive_grants_within_partitions_witness :
  priority_mode exclusive_policy = "Exclusive"
  /\ is_feasible exclusive_policy = true
  /\ map (fun l => (Assignment.device_type (objects exclusive_granted l),
                    Assignment.freq_start (objects exclusive_granted l),
                    Assignment.freq_end (objects exclusive_granted l)))
         (active exclusive_granted)
     = [("5G", 37000, 37200); ("IoT", 37200, 37400); ("Federal", 37400, 37600)]
  /\ Forall (fun l => exists lo hi : Z,
               band_partitions exclusive_policy
                 !! Assignment.device_type (objects exclusive_granted l) = Some (lo, hi)
               /\ lo <= Assignment.freq_start (objects exclusive_granted l)
               /\ Assignment.freq_end (objects exclusive_granted l) <= hi)
            (active exclusive_granted).
Proof.
  split; [reflexivity|]. split; [reflexivity|]. split; [vm_compute; reflexivity|].
  destruct (exclusive_grants_within_partitions grid1 exclusive_policy insertion_order
              eq_refl) as (_ & _ & _ & H & _).
  apply H. apply reachable_manager_after, reachable_init.
Defined.

(** The store of C9 with the candidate of the 5G request of node 0 for the
    whole band allocated as object 2. *)
Definition hierarchical_policy : ArchitecturePolicy.t :=
  policy_with "No Mitigation" "Hierarchical" "Dynamic" "Freq Slicing".

Definition candidate_store : SpectrumManager.t :=
  (alloc (lease 2 0 37000 37600 "5G" 1) hierarchical_incumbents).2.

Lemma candidate_store_wf : store_wf candidate_store.
Proof.
  split; cbn.
  - apply (bool_decide_unpack _). reflexivity.
  - repeat constructor; lia.
Qed.

(** Centralized coordination with Power Control and daily renewal: the
    request of node 3 at tick 0 and the request of the opposite node 0 at
    tick 560, both for the whole band, are granted; the second grant
    multiplies the quality of the first lease by 0.7. *)
Definition sharing_policy : ArchitecturePolicy.t :=
  policy_with "Power Control" "Co-Primary" "Semi-Dynamic" "Freq Slicing".

Definition sharing_first : SpectrumManager.t :=
  manager_after
    (process_arrivals grid1 sharing_policy insertion_order
       [SpectrumRequest.init 0 0 3 600 "5G"] 0 new_manager [])
    new_manager.

Definition sharing_granted : SpectrumManager.t :=
  manager_after
    (process_arrivals grid1 sharing_policy insertion_order
       [SpectrumRequest.init 1 560 0 600 "5G"] 560 sharing_first [])
    sharing_first.

Lemma sharing_granted_reachable :
  reachable grid1 sharing_policy insertion_order sharing_granted.
Proof. apply reachable_manager_after, reachable_manager_after, reachable_init. Qed.


(** ** Consistency of the per-square index

    In every state of a run the index lists each stored assignment once,
    at the squares that its node covers and nowhere else, and it lists
    nothing that is not stored: a removal leaves no dangling entry. *)

Section IndexInvariant.
Variable environment : Environment.t.
Variable arch_policy : ArchitecturePolicy.t.
Variable set_order : list Z -> list Z.
(** [covered_squares] is a set: [Node.__init__] builds it with [set(...)]. *)
Hypothesis covered_NoDup :
  Forall (fun node => List.NoDup (Node.covered_squares node)) (Environment.nodes environment).

Definition index_ok (m : SpectrumManager.t) : Prop :=
  forall square : Z,
    List.NoDup (square_to_assignments m square)
    /\ forall l, In l (square_to_assignments m square) ->
         In l (active m)
         /\ exists node,
              py_index (Environment.nodes environment) (Assignment.node_id (objects m l))
              = Ok node
              /\ In square (Node.covered_squares node).

Lemma index_ok_sound (m : SpectrumManager.t) : index_ok m -> index_sound m.
Proof. intros H square l Hl. apply (H square). exact Hl. Qed.

Lemma py_index_In {A : Type} (l : list A) (i : Z) (x : A) : py_index l i = Ok x -> In x l.
Proof.
  unfold py_index. destruct (_ && _); [|discriminate].
  destruct (l !! _) eqn:E; [|discriminate]. intros [= <-].
  apply list_elem_of_In. eapply list_elem_of_lookup_2. exact E.
Qed.

Lemma sublist_NoDup_list (l1 l2 : list loc) :
  l1 `sublist_of` l2 -> List.NoDup l2 -> List.NoDup l1.
Proof.
  intros Hs Hn. apply NoDup_ListNoDup. eapply sublist_NoDup; [|exact Hs].
  apply NoDup_ListNoDup. exact Hn.
Qed.

Lemma sublist_In (l1 l2 : list loc) (x : loc) : l1 `sublist_of` l2 -> In x l1 -> In x l2.
Proof.
  intros Hs Hx. apply list_elem_of_In. eapply elem_of_sublist; [|exact Hs].
  apply list_elem_of_In. exact Hx.
Qed.

(** The loop of [_remove_assignment] over the squares of the node purges
    the assignment from each of them and keeps everything else. *)
Lemma remove_fold_purges (h : heap) (a : loc) (covered : list Z) (idx : Z -> list loc) :
  (forall s, List.NoDup (idx s)) ->
  (forall s y, In y (idx s) -> py_eq h y a = true -> y = a) ->
  let idx' := fold_left (fun idx square =>
                           if py_in h a (idx square)
                           then index_set idx square (py_remove h a (idx square))
                           else idx)
                        covered idx in
  (forall s, In s covered -> ~ In a (idx' s))
  /\ (forall s y, y <> a -> In y (idx s) -> In y (idx' s)).
Proof.
  revert idx. induction covered as [|c covered IH]; intros idx Hnd Htwin; simpl.
  { split; [intros s [] | auto]. }
  set (idx1 := if py_in h a (idx c) then index_set idx c (py_remove h a (idx c)) else idx).
  assert (Hsub : forall s, idx1 s `sublist_of` idx s).
  { intros s. unfold idx1. destruct (py_in h a (idx c)); [|reflexivity].
    unfold index_set. destruct (s =? c) eqn:E; [|reflexivity].
    apply Z.eqb_eq in E. subst. apply py_remove_sublist. }
  assert (Hnd1 : forall s, List.NoDup (idx1 s)) by (intros s; eapply sublist_NoDup_list; eauto).
  assert (Htwin1 : forall s y, In y (idx1 s) -> py_eq h y a = true -> y = a).
  { intros s y Hy. apply (Htwin s). eapply sublist_In; eauto. }
  assert (Hc : ~ In a (idx1 c)).
  { unfold idx1. destruct (py_in h a (idx c)) eqn:Hin.
    - unfold index_set. rewrite Z.eqb_refl.
      destruct (in_dec Nat.eq_dec a (idx c)) as [Ha|Ha].
      + apply (py_remove_present h a (idx c)); auto. apply (Htwin c).
      + intros Hc. apply Ha. eapply sublist_In; [apply py_remove_sublist | exact Hc].
    - intros Ha. unfold py_in in Hin.
      assert (existsb (fun y => py_eq h y a) (idx c) = true); [|congruence].
      apply List.existsb_exists. exists a. split; [exact Ha | apply py_eq_refl]. }
  assert (Hkeep1 : forall s y, y <> a -> In y (idx s) -> In y (idx1 s)).
  { intros s y Hne Hy. unfold idx1. destruct (py_in h a (idx c)) eqn:Hin; [|exact Hy].
    unfold index_set. destruct (s =? c) eqn:E; [|exact Hy].
    apply Z.eqb_eq in E. subst s.
    destruct (in_dec Nat.eq_dec a (idx c)) as [Ha|Ha].
    - apply (py_remove_present h a (idx c)); auto. apply (Htwin c).
    - exfalso. unfold py_in in Hin. apply List.existsb_exists in Hin.
      destruct Hin as (z & Hz & Hza). apply (Htwin c) in Hza; [|exact Hz]. subst z. auto. }
  destruct (IH idx1 Hnd1 Htwin1) as [IH1 IH2]. split.
  - intros s [<-|Hs]; [|apply IH1; exact Hs].
    intros Ha. apply Hc. eapply sublist_In; [apply remove_fold_sublist | exact Ha].
  - intros s y Hne Hy. apply IH2; auto.
Qed.

Lemma remove_assignment_index (m m' : SpectrumManager.t) (a : loc) :
  store_wf m -> index_ok m -> In a (active m) ->
  _remove_assignment environment m a = Ok m' ->
  index_ok m'
  /\ (forall square, ~ In a (square_to_assignments m' square))
  /\ (forall square y, y <> a -> In y (square_to_assignments m square) ->
                       In y (square_to_assignments m' square)).
Proof.
  intros Hwf Hidx Hin Hr.
  destruct (remove_assignment_present environment m m' a Hwf Hin Hr)
    as (_ & Hout & Hkeep & Hs & Ho).
  assert (Hnd : forall s, List.NoDup (square_to_assignments m s)) by (intros s; apply Hidx).
  assert (Htwin : forall s y, In y (square_to_assignments m s) ->
                              py_eq (objects m) y a = true -> y = a).
  { intros s y Hy. apply store_wf_py_eq; auto. apply (Hidx s). exact Hy. }
  unfold _remove_assignment in Hr.
  destruct (py_index _ _) as [node|e] eqn:Hnode; cbn in Hr; [|discriminate].
  destruct (remove_fold_purges (objects m) a (Node.covered_squares node)
              (square_to_assignments m) Hnd Htwin) as [Hp1 Hp2].
  cbv zeta in Hp1, Hp2. injection Hr as <-. cbn in *.
  assert (Hgone : forall square,
            ~ In a (fold_left
                      (fun idx square =>
                         if py_in (objects m) a (idx square)
                         then index_set idx square (py_remove (objects m) a (idx square))
                         else idx)
                      (Node.covered_squares node) (square_to_assignments m) square)).
  { intros square Ha.
    destruct (in_dec Z.eq_dec square (Node.covered_squares node)) as [Hc|Hc].
    - apply (Hp1 square Hc). exact Ha.
    - apply Hc. assert (Ha' : In a (square_to_assignments m square))
        by (eapply sublist_In; [apply remove_fold_sublist | exact Ha]).
      destruct (Hidx square) as [_ Hl]. destruct (Hl a Ha') as (_ & node' & Hn' & Hsq).
      congruence. }
  split; [|split; [exact Hgone | exact Hp2]].
  intros square. destruct (Hidx square) as [Hn Hl]. split.
  - eapply sublist_NoDup_list; [apply remove_fold_sublist | exact Hn].
  - intros l Hl'.
    assert (Hl0 : In l (square_to_assignments m square))
      by (eapply sublist_In; [apply remove_fold_sublist | exact Hl']).
    destruct (Hl l Hl0) as (Hact & Hnode').
    split; [|exact Hnode'].
    apply Hkeep; [|exact Hact]. intros ->. apply (Hgone square). exact Hl'.
Qed.

(** A manager with the same index, at least the same active assignments
    and the same leases has a consistent index too. *)
Lemma index_ok_transfer (m m' : SpectrumManager.t) :
  store_wf m -> index_ok m ->
  (forall square, square_to_assignments m' square = square_to_assignments m square) ->
  (forall l, In l (active m) -> In l (active m')) ->
  (forall l, (l < next_loc m)%nat -> same_lease (objects m l) (objects m' l)) ->
  index_ok m'.
Proof.
  intros [_ Hall] Hidx Hsame Hact Hobj square. rewrite Hsame.
  destruct (Hidx square) as [Hn Hl]. split; [exact Hn|].
  intros l Hin. destruct (Hl l Hin) as (Ha & node & Hnode & Hsq).
  split; [auto|]. exists node. split; [|exact Hsq].
  rewrite Forall_forall in Hall. destruct (Hall l) as [Hlt _]; [apply list_elem_of_In; exact Ha|].
  specialize (Hobj l Hlt). apply same_lease_fields in Hobj.
  destruct Hobj as (_ & -> & _). exact Hnode.
Qed.

(** Store and index are both consistent. *)
Definition consistent (m : SpectrumManager.t) : Prop := store_wf m /\ index_ok m.

Lemma alloc_consistent (a : Assignment.t) (m : SpectrumManager.t) :
  consistent m -> consistent (alloc a m).2.
Proof.
  intros [Hwf Hidx].
  assert (Hobj : forall l, (l < next_loc m)%nat ->
                           same_lease (objects m l) (objects (alloc a m).2 l)).
  { intros l Hl. cbn. destruct (Nat.eqb_spec l (next_loc m)); [lia | apply same_lease_refl]. }
  split.
  - apply (store_wf_sublist m); cbn; auto; try lia; try reflexivity.
  - apply (index_ok_transfer m); auto.
Qed.

Lemma with_objects_consistent (h' : heap) (c : gset (Z * Z)) (m : SpectrumManager.t) :
  consistent m -> (forall l, frozen (objects m l) (h' l)) ->
  consistent (with_mitigated c (with_objects h' m)).
Proof.
  intros [Hwf Hidx] Hf. split.
  - apply (store_wf_sublist m); cbn; auto using frozen_same_lease; try lia;
      try reflexivity.
  - apply (index_ok_transfer m); cbn; auto using frozen_same_lease.
Qed.

Lemma add_assignment_index (m m' : SpectrumManager.t) (a : loc) :
  index_ok m -> ~ In a (active m) ->
  _add_assignment environment m a = Ok m' ->
  index_ok m'.
Proof using Type covered_NoDup.
  intros Hidx Hfresh. unfold _add_assignment.
  destruct (py_index _ _) as [node|e] eqn:Hnode; cbn; [|discriminate].
  intros [= <-]. intros square. cbn. rewrite add_fold_lookup.
  destruct (Hidx square) as [Hn Hl].
  assert (Hnd : List.NoDup (Node.covered_squares node)).
  { rewrite Forall_forall in covered_NoDup. apply covered_NoDup.
    apply list_elem_of_In. eapply py_index_In. exact Hnode. }
  assert (Hcount : (count_occ Z.eq_dec (Node.covered_squares node) square <= 1)%nat)
    by (apply List.NoDup_count_occ; exact Hnd).
  assert (Hna : ~ In a (square_to_assignments m square)).
  { intros Ha. apply Hfresh. apply (Hl a Ha). }
  split.
  - destruct (count_occ Z.eq_dec (Node.covered_squares node) square) as [|[|k]] eqn:Hk;
      [cbn; rewrite app_nil_r; exact Hn | | lia].
    cbn. apply List.NoDup_app; [exact Hn | repeat constructor; intros [] |].
    intros x Hx [<-|[]]. auto.
  - intros l Hin. apply in_app_or in Hin. destruct Hin as [Hin|Hin].
    + destruct (Hl l Hin) as (Ha & Hnode'). split; [apply in_or_app; left; exact Ha|].
      exact Hnode'.
    + apply repeat_spec in Hin as Heq. subst l.
      split; [apply in_or_app; right; left; reflexivity|].
      exists node. split; [exact Hnode|].
      apply (count_occ_In Z.eq_dec).
      destruct (count_occ Z.eq_dec (Node.covered_squares node) square); [destruct Hin | lia].
Qed.

(** After a preemption that leaves no conflict, the rest of the loop finds
    nothing to do. *)
Lemma preempt_then_quiet (possible_conflicts : list loc) (temp a : loc)
    (m m1 : SpectrumManager.t) (tr tr1 tr2 : list trace_event) (todo seen : list loc) :
  store_wf m ->
  (forall x, In x possible_conflicts -> In x (active m)) ->
  In a possible_conflicts ->
  (forall x, In x todo -> In x possible_conflicts) ->
  preempt environment possible_conflicts temp a m tr = Ok (m1, tr1, false) ->
  check_conflicts environment arch_policy possible_conflicts temp todo (a :: seen) m1 tr2
  = Ok (m1, tr2, false).
Proof.
  intros Hwf Hscope Ha Htodo. unfold preempt.
  destruct (_remove_assignment environment m a) as [m_r|e] eqn:Hr; cbn; [|discriminate].
  destruct (remove_assignment_shrinks environment m m_r a Hr) as [_ Ho].
  destruct (first_conflict _ _ _ _) as [[other|]|e] eqn:Hstill; cbn; try discriminate.
  intros [= <- _]. apply check_conflicts_no_conflict.
  intros x Hx Hnot. rewrite Ho. rewrite Ho in Hstill.
  apply (first_conflict_none _ _ _ _ Hstill).
  apply List.filter_In. split; [apply Htodo; exact Hx|].
  apply negb_true_iff.
  destruct (py_eq (objects m) x a) eqn:Hpe; [|reflexivity].
  apply store_wf_py_eq in Hpe; auto.
  subst x. cbn in Hnot. rewrite Nat.eqb_refl in Hnot. discriminate.
Qed.

Lemma preempt_consistent (possible_conflicts : list loc) (temp a : loc)
    (m m1 : SpectrumManager.t) (tr tr1 : list trace_event) (b : bool) :
  consistent m -> In a (active m) ->
  preempt environment possible_conflicts temp a m tr = Ok (m1, tr1, b) ->
  consistent m1.
Proof.
  intros [Hwf Hidx] Ha. unfold preempt.
  destruct (_remove_assignment environment m a) as [m_r|e] eqn:Hr; cbn; [|discriminate].
  assert (Hc : consistent m_r).
  { split.
    - eapply store_shrinks_wf; [|exact Hwf]. eapply remove_assignment_shrinks; eauto.
    - eapply remove_assignment_index; eauto. }
  destruct (first_conflict _ _ _ _) as [[other|]|e]; cbn; try discriminate;
    intros [= <- _ _]; exact Hc.
Qed.

Lemma same_objects_consistent (m : SpectrumManager.t) :
  consistent m -> consistent (with_objects (objects m) m).
Proof.
  intros [Hwf Hidx]. split.
  - apply (store_wf_sublist m); cbn; auto using same_lease_refl; try lia; try reflexivity.
  - apply (index_ok_transfer m); cbn; auto using same_lease_refl.
Qed.

Lemma check_conflicts_consistent (possible_conflicts : list loc) (temp : loc)
    (todo seen : list loc) (m m' : SpectrumManager.t) (tr tr' : list trace_event) (c : bool) :
  consistent m ->
  (forall x, In x possible_conflicts -> In x (active m)) ->
  (forall x, In x todo -> In x possible_conflicts) ->
  check_conflicts environment arch_policy possible_conflicts temp todo seen m tr
  = Ok (m', tr', c) ->
  consistent m'.
Proof.
  revert seen m tr. induction todo as [|a todo IH]; intros seen m tr Hc Hscope Htodo; simpl.
  { intros [= <- <- <-]. exact Hc. }
  assert (Htodo' : forall x, In x todo -> In x possible_conflicts)
    by (intros x Hx; apply Htodo; right; exact Hx).
  assert (Ha : In a possible_conflicts) by (apply Htodo; left; reflexivity).
  destruct (existsb (Nat.eqb a) seen); [apply IH; auto|].
  destruct (conflicts_with _ _ _) as [[|]|e]; [| apply IH; auto | discriminate].
  destruct (_ && (_ <? _)).
  { destruct (preempt _ _ _ _ _ _) as [[[m1 tr1] [|]]|e] eqn:Hp; try discriminate.
    - intros [= <- <- <-]. eapply preempt_consistent; eauto.
    - rewrite (preempt_then_quiet _ _ _ _ _ _ _ tr1 _ _ (proj1 Hc) Hscope Ha Htodo' Hp).
      intros [= <- <- <-]. eapply preempt_consistent; eauto. }
  destruct (_ && (_ >? _)).
  { intros [= <- <- <-]. exact Hc. }
  match goal with
  | |- context [match ?x with Ok _ => _ | Raise _ => _ end] =>
    destruct x as [[h' [|]]|e] eqn:Hm; try discriminate
  end.
  - assert (Hf : forall l, frozen (objects m l) (h' l)).
    { destruct (negb _); [eapply apply_mitigation_frozen; eauto|].
      injection Hm as <- _. auto using frozen_refl. }
    apply IH; auto. apply with_objects_consistent; auto.
  - assert (Hf : h' = objects m).
    { destruct (negb _); [eapply apply_mitigation_frozen; eauto|]. congruence. }
    subst h'. pose proof (same_objects_consistent m Hc) as Hc1.
    destruct (_ <? _).
    { destruct (preempt _ _ _ _ _ _) as [[[m1 tr1] [|]]|e] eqn:Hp; try discriminate.
      - intros [= <- <- <-]. eapply preempt_consistent; eauto.
      - rewrite (preempt_then_quiet _ _ _ _ _ _ _ tr1 _ _ (proj1 Hc1) Hscope Ha Htodo' Hp).
        intros [= <- <- <-]. eapply preempt_consistent; eauto. }
    destruct (_ >? _); intros [= <- <- <-]; exact Hc1.
Qed.

Lemma collect_own_In (m : SpectrumManager.t) (n_id : Z) (l acc : list loc) (x : loc) :
  In x (collect_own m n_id acc l) -> In x acc \/ In x l.
Proof.
  revert acc. induction l as [|y l IH]; intros acc; simpl; [auto|].
  intros H. apply IH in H. destruct H as [H|H]; [|auto].
  destruct (_ && _); [|auto].
  apply in_app_or in H. destruct H as [H|[<-|[]]]; auto.
Qed.

Lemma decentralized_collect_In (m : SpectrumManager.t) (ids : list Z) (acc r : list loc)
    (x : loc) :
  decentralized_collect environment m ids acc = Ok r ->
  In x r -> In x acc \/ exists square, In x (square_to_assignments m square).
Proof.
  revert acc. induction ids as [|n_id ids IH]; intros acc; simpl.
  { intros [= <-]. auto. }
  destruct (py_index _ _) as [n|e]; cbn; [|discriminate].
  intros H Hx. destruct (IH _ H Hx) as [Hacc|Hsq]; [|auto].
  clear H Hx IH. revert acc Hacc.
  induction (Node.covered_squares n) as [|square squares IHs]; intros acc; simpl; [auto|].
  intros H. apply IHs in H. destruct H as [H|H]; [|auto].
  apply collect_own_In in H. destruct H as [H|H]; eauto.
Qed.

Lemma scope_in_index (use_centralized : bool) (m : SpectrumManager.t) (node_id : Z)
    (possible_conflicts : list loc) (x : loc) :
  possible_conflicts_of environment set_order use_centralized m node_id
  = Ok possible_conflicts ->
  In x possible_conflicts -> exists square, In x (square_to_assignments m square).
Proof.
  unfold possible_conflicts_of. destruct use_centralized.
  - intros [= <-] Hx. unfold centralized_scope in Hx.
    apply in_flat_map in Hx. destruct Hx as (n & _ & Hx).
    apply in_flat_map in Hx. destruct Hx as (square & _ & Hx). eauto.
  - unfold decentralized_scope.
    destruct (get_neighbors _ _) as [neighbors|e]; cbn; [|discriminate].
    intros H Hx. destruct (decentralized_collect_In _ _ _ _ _ H Hx) as [[]|Hsq]. exact Hsq.
Qed.

Lemma consistent_counters (m : SpectrumManager.t) (s : MetricsCollector.t) :
  consistent m -> consistent (with_metrics s m).
Proof.
  intros [Hwf Hidx]. split.
  - apply (store_wf_sublist m); cbn; auto using same_lease_refl; try lia; try reflexivity.
  - apply (index_ok_transfer m); cbn; auto using same_lease_refl.
Qed.

Lemma wf_below_next_loc (m : SpectrumManager.t) (l : loc) :
  store_wf m -> In l (active m) -> (l < next_loc m)%nat.
Proof.
  intros [_ Hall] Hl. rewrite Forall_forall in Hall.
  apply Hall, list_elem_of_In, Hl.
Qed.

Lemma try_candidates_consistent (request : SpectrumRequest.t) (current_tick : Z)
    (use_centralized : bool) (candidates : list (Z * Z))
    (m m' : SpectrumManager.t) (tr tr' : list trace_event) (outcome : option (Z * Z)) :
  consistent m ->
  try_candidates environment arch_policy set_order request current_tick use_centralized
    candidates m tr = Ok (m', tr', outcome) ->
  consistent m'.
Proof using Type covered_NoDup.
  intros Hc Ht. split.
  { eapply request_effect_wf; [eapply try_candidates_effect; eauto | apply Hc]. }
  revert m tr Hc Ht. induction candidates as [|[fs fe] rest IH]; intros m tr Hc; simpl.
  { intros [= <- <- <-]. apply Hc. }
  match goal with |- context [if ?b then _ else _] => destruct b end; [apply IH; exact Hc|].
  destruct (py_index _ _) as [node|e]; [|discriminate].
  destruct (possible_conflicts_of _ _ _ _ _) as [possible|e] eqn:Hscope; [|discriminate].
  match goal with
  | |- context [check_conflicts _ _ _ ?t _ _ ?m1 _] =>
    assert (Hc1 : consistent m1) by (apply (alloc_consistent _ m Hc));
    assert (Hin1 : forall x, In x possible -> In x (active m1));
    [intros x Hx; destruct (scope_in_index _ _ _ _ _ Hscope Hx) as [square Hsq];
     apply (proj2 Hc1 square); exact Hsq|]
  end.
  destruct (check_conflicts _ _ _ _ _ _ _ _) as [[[m2 tr2] [|]]|e] eqn:Hcc; [| |discriminate].
  - apply IH. eapply check_conflicts_consistent; eauto.
  - pose proof (check_conflicts_consistent _ _ _ _ _ _ _ _ _ Hc1 Hin1 (fun x H => H) Hcc)
      as Hc2.
    pose proof (check_conflicts_shrinks environment arch_policy _ _ _ _ _ _ _ _ _ Hcc)
      as [Hl _ _ Ha _ _].
    cbn in Hl, Ha.
    assert (Hbelow : forall l, In l (active m2) -> (l < next_loc m)%nat).
    { intros l Hl'. apply (wf_below_next_loc m); [apply Hc|].
      apply list_elem_of_In. eapply elem_of_sublist; [apply list_elem_of_In; exact Hl'|].
      exact Ha. }
    destruct (query_interval arch_policy) as [qi|]; cbn.
    + match goal with
      | |- context [_add_assignment _ ?m3 _] =>
        assert (Hc3 : consistent m3) by (apply (alloc_consistent _ m2 Hc2))
      end.
      destruct (_add_assignment _ _ _) as [m4|e] eqn:Hadd; [|discriminate].
      intros [= <- <- <-].
      apply add_assignment_index in Hadd; [|apply Hc3|].
      * intros square. apply (Hadd square).
      * cbn. intros Hin. apply Hbelow in Hin. lia.
    + destruct (_add_assignment _ _ _) as [m4|e] eqn:Hadd; [|discriminate].
      intros [= <- <- <-].
      apply add_assignment_index in Hadd; [|apply Hc2|].
      * intros square. apply (Hadd square).
      * intros Hin. apply Hbelow in Hin. lia.
Qed.

Lemma process_request_consistent request request' current_tick m m' g g' :
  consistent m ->
  process_request environment arch_policy set_order request current_tick m g
  = Ok (m', request', g') ->
  consistent m'.
Proof using Type covered_NoDup.
  intros Hc. unfold process_request.
  destruct (_generate_frequency_candidates arch_policy request g) as [candidates g1].
  match goal with
  | |- context [let '(_, _) := ?b in _] => destruct b as [use_centralized g2]
  end.
  destruct (try_candidates _ _ _ _ _ _ _ _ _) as [[[m1 tr1] outcome]|e] eqn:Ht;
    cbn; [|discriminate].
  apply try_candidates_consistent in Ht; [|exact Hc].
  destruct outcome as [freq|]; intros [= <- <- <-]; [exact Ht|].
  apply consistent_counters. exact Ht.
Qed.

Lemma remove_all_consistent (R : list loc) (m m' : SpectrumManager.t) :
  consistent m -> List.NoDup R -> (forall a, In a R -> In a (active m)) ->
  remove_all environment R m = Ok m' ->
  consistent m'
  /\ forall a square, In a R -> ~ In a (square_to_assignments m' square).
Proof.
  revert m. induction R as [|a R IH]; intros m Hc Hnd Hin; simpl.
  { intros [= <-]. split; [exact Hc | intros a square []]. }
  destruct (_remove_assignment environment m a) as [m1|e] eqn:Hr; cbn; [|discriminate].
  intros Hall. inversion Hnd as [|? ? Ha HndR]; subst. destruct Hc as [Hwf Hidx].
  assert (Hina : In a (active m)) by (apply Hin; left; reflexivity).
  destruct (remove_assignment_present environment m m1 a Hwf Hina Hr)
    as (_ & _ & Hkeep & Hs & _).
  destruct (remove_assignment_index m m1 a Hwf Hidx Hina Hr) as (Hidx1 & Hgone & _).
  assert (Hc1 : consistent m1) by (split; [eapply store_shrinks_wf; eauto | exact Hidx1]).
  destruct (IH m1 Hc1 HndR) as [Hc' Hgone']; auto.
  { intros y Hy. apply Hkeep; [intros ->; contradiction | apply Hin; right; exact Hy]. }
  split; [exact Hc'|].
  intros y square [<-|Hy]; [|apply Hgone'; exact Hy].
  intros Hy. apply (Hgone square). eapply sublist_In; [|exact Hy].
  destruct (remove_all_effect environment R m1 m') as (_ & _ & _ & Hs' & _); auto.
  - apply Hc1.
  - intros y Hy'. apply Hkeep; [intros ->; contradiction | apply Hin; right; exact Hy'].
  - apply Hs'.
Qed.

(** After a renewal the index is consistent, and no assignment that left
    [active] is left in the index. *)
Lemma renew_assignments_consistent (current_tick : Z) (m m' : SpectrumManager.t) :
  consistent m ->
  renew_assignments environment arch_policy current_tick m = Ok m' ->
  consistent m'
  /\ forall l square, In l (active m) -> ~ In l (active m') ->
                      ~ In l (square_to_assignments m' square).
Proof.
  intros Hc. unfold renew_assignments.
  destruct (renew_loop _ _ _ _ _ _) as [[ml R']|e] eqn:Hloop; cbn; [|discriminate].
  intros Hrm. apply renew_loop_effect in Hloop. cbn in Hloop.
  destruct Hloop as (H1 & H2 & H3 & H4 & _ & H6 & R1 & HR & Hsub & _).
  cbn in HR. subst R'.
  assert (Hcl : consistent ml).
  { destruct Hc as [Hwf Hidx]. split.
    - apply (store_wf_sublist m); auto; try lia.
      + rewrite H1. reflexivity.
      + intros l _. apply H6.
    - apply (index_ok_transfer m); auto.
      + intros square. rewrite H2. reflexivity.
      + intros l Hl. rewrite H1. exact Hl.
      + intros l _. apply H6. }
  assert (HinR : forall a, In a R1 -> In a (active ml)).
  { intros a Ha. rewrite H1. eapply sublist_In; eauto. }
  assert (HndR : List.NoDup R1).
  { eapply sublist_NoDup_list; [exact Hsub|]. apply store_wf_NoDup, Hc. }
  destruct (remove_all_consistent R1 ml m' Hcl HndR HinR Hrm) as [Hc' Hgone].
  split; [exact Hc'|].
  intros l square Hl Hout.
  destruct (in_dec Nat.eq_dec l R1) as [HR|HR]; [apply Hgone; exact HR|].
  exfalso. apply Hout.
  destruct (remove_all_effect environment R1 ml m' (proj1 Hcl) HndR HinR Hrm)
    as (_ & _ & Hkeep & _).
  apply Hkeep; [exact HR | rewrite H1; exact Hl].
Qed.

Lemma init_consistent : consistent (SpectrumManager.init MetricsCollector.init).
Proof.
  split; [apply init_wf|]. intros square. cbn. split; [constructor | intros l []].
Qed.

(** Every state of a run has a consistent store and index. *)
Lemma reachable_consistent (m : SpectrumManager.t) :
  reachable environment arch_policy set_order m -> consistent m.
Proof using Type covered_NoDup.
  induction 1 as [|m m' requests requests' t g g' _ IH Hp|m m' t _ IH Hr].
  - exact init_consistent.
  - revert Hp IH. apply (process_arrivals_preserves environment arch_policy set_order
                           consistent t).
    intros request request' m0 m0' g0 g0' H0 Hc0.
    eapply process_request_consistent; eauto.
  - eapply renew_assignments_consistent; eauto.
Qed.

(** In every state of a run, [_remove_assignment] of an assignment that is
    not stored changes nothing, and undoes [_add_assignment] (C6 applies). *)
Corollary reachable_index_sound (m : SpectrumManager.t) :
  reachable environment arch_policy set_order m -> index_sound m.
Proof using Type covered_NoDup.
  intros Hr. apply index_ok_sound, reachable_consistent, Hr.
Qed.

End IndexInvariant.


(** ** Preemption and renewal in a consistent store *)

(** The conflict test reads the leases only. *)
Lemma conflicts_with_same_lease (environment : Environment.t) (a a' b b' : Assignment.t) :
  same_lease a a' -> same_lease b b' ->
  conflicts_with environment a' b' = conflicts_with environment a b.
Proof.
  intros Ha Hb. apply same_lease_fields in Ha, Hb.
  destruct Ha as (_ & Ha1 & Ha2 & Ha3 & _), Hb as (_ & Hb1 & Hb2 & Hb3 & _).
  unfold conflicts_with. rewrite Ha1, Ha2, Ha3, Hb1, Hb2, Hb3. reflexivity.
Qed.

Section ConsistentStore.
Variable environment : Environment.t.
Variable arch_policy : ArchitecturePolicy.t.
Variable set_order : list Z -> list Z.

(** A conflict test that answers [True] has looked both nodes up. *)
Lemma conflicts_with_true_self (self other : Assignment.t) :
  conflicts_with environment self other = Ok true ->
  exists node,
    py_index (Environment.nodes environment) (Assignment.node_id self) = Ok node.
Proof.
  unfold conflicts_with. destruct (_ || _); [discriminate|].
  destruct (py_index _ (Assignment.node_id self)) as [node|]; cbn; [|discriminate].
  eauto.
Qed.

(** Between two assignments of existing nodes the conflict test returns. *)
Lemma conflicts_with_nodes (self other : Assignment.t) (this_node other_node : Node.t) :
  py_index (Environment.nodes environment) (Assignment.node_id self) = Ok this_node ->
  py_index (Environment.nodes environment) (Assignment.node_id other) = Ok other_node ->
  exists c, conflicts_with environment self other = Ok c.
Proof.
  intros H1 H2. unfold conflicts_with. rewrite H1, H2.
  destruct (_ || _); eexists; reflexivity.
Qed.

(** What the re-check answers: an assignment of the list in conflict with
    the candidate, or nothing when no assignment of the list conflicts. *)
Lemma first_conflict_decides (h : heap) (temp : loc) (l : list loc) :
  (forall x, In x l -> exists c, conflicts_with environment (h temp) (h x) = Ok c) ->
  exists still : option loc,
    first_conflict environment h temp l = Ok still
    /\ match still with
       | Some other =>
         In other l /\ conflicts_with environment (h temp) (h other) = Ok true
       | None => forall x, In x l -> conflicts_with environment (h temp) (h x) = Ok false
       end.
Proof.
  induction l as [|other l IH]; intros Hret; simpl.
  { exists None. split; [reflexivity | intros x []]. }
  destruct (Hret other (or_introl eq_refl)) as [c Hc]. rewrite Hc. cbn.
  destruct c.
  - exists (Some other). split; [reflexivity|]. split; [left; reflexivity | exact Hc].
  - destruct IH as (still & Hstill & Hspec).
    { intros x Hx. apply Hret. right. exact Hx. }
    exists still. split; [exact Hstill|].
    destruct still as [o|].
    + destruct Hspec as [Hin Ho]. split; [right; exact Hin | exact Ho].
    + intros x [<-|Hx]; [exact Hc | apply Hspec; exact Hx].
Qed.

(** C2.  The loop of admission at a conflicting assignment that it has
    not visited yet, under hierarchical priority and in a consistent store
    whose scope is drawn from the index.  If the candidate's tier is
    numerically lower, [_remove_assignment] takes the conflicting assignment
    out of the store at once, from [active] and from every list of the
    index, without touching any object (no mitigation), and the candidate is
    re-tested against the others in scope.  The loop ends with the flag
    [conflict] set exactly when a further conflict remains: [conflicts_with]
    answers [True] for an assignment of the scope other than the preempted
    one, which the trace then names; it ends with the flag unset exactly when
    [conflicts_with] answers [False] for every assignment of the scope other
    than the preempted one.  Either way the store is the one without the
    preempted assignment.  If the candidate's tier is numerically greater,
    the loop ends at once with the flag set and the manager untouched. *)
Theorem hierarchical_preemption
    (possible_conflicts : list loc) (temp assignment : loc) (todo seen : list loc)
    (m : SpectrumManager.t) (tr : list trace_event) :
  priority_mode arch_policy = "Hierarchical" ->
  consistent environment m ->
  (forall x, In x possible_conflicts -> exists square, In x (square_to_assignments m square)) ->
  (forall x, In x (assignment :: todo) -> In x possible_conflicts) ->
  existsb (Nat.eqb assignment) seen = false ->
  conflicts_with environment (objects m temp) (objects m assignment) = Ok true ->
  let temp_priority := Assignment.priority_tier (objects m temp) in
  let other_priority := Assignment.priority_tier (objects m assignment) in
  let other_id := Assignment.assignment_id (objects m assignment) in
  (temp_priority < other_priority ->
   exists m_r : SpectrumManager.t,
     _remove_assignment environment m assignment = Ok m_r
     /\ ~ In assignment (active m_r)
     /\ (forall square, ~ In assignment (square_to_assignments m_r square))
     /\ (forall y, y <> assignment -> In y (active m) -> In y (active m_r))
     /\ (forall square y, y <> assignment -> In y (square_to_assignments m square) ->
                          In y (square_to_assignments m_r square))
     /\ consistent environment m_r
     /\ objects m_r = objects m
     /\ mitigated_conflicts m_r = mitigated_conflicts m
     /\ metrics m_r = metrics m
     /\ exists still : option loc,
          check_conflicts environment arch_policy possible_conflicts temp
            (assignment :: todo) seen m tr
          = Ok (m_r,
                (tr ++ [Preempted other_id])
                ++ match still with
                   | Some other => [ConflictRemains (Assignment.assignment_id (objects m other))]
                   | None => []
                   end,
                match still with Some _ => true | None => false end)
          /\ match still with
             | Some other =>
               In other possible_conflicts /\ other <> assignment
               /\ conflicts_with environment (objects m temp) (objects m other) = Ok true
             | None =>
               forall other, In other possible_conflicts -> other <> assignment ->
                 conflicts_with environment (objects m temp) (objects m other) = Ok false
             end)
  /\ (other_priority < temp_priority ->
      check_conflicts environment arch_policy possible_conflicts temp
        (assignment :: todo) seen m tr
      = Ok (m, tr ++ [HigherPriorityNotMitigated other_id], true)).
Proof.
  intros Hh [Hwf Hidx] Hindex Htodo Hseen Hc. cbv zeta.
  assert (Hscope : forall x, In x possible_conflicts -> In x (active m)).
  { intros x Hx. destruct (Hindex x Hx) as [square Hsq]. apply (Hidx square). exact Hsq. }
  split.
  - intros Hlt.
    destruct (conflicts_with_true_node environment _ _ Hc) as [node Hnode].
    destruct (conflicts_with_true_self _ _ Hc) as [ntemp Hntemp].
    assert (Hin : In assignment (active m)) by (apply Hscope, Htodo; left; reflexivity).
    destruct (_remove_assignment environment m assignment) as [m_r|e] eqn:Hr.
    2:{ unfold _remove_assignment in Hr. rewrite Hnode in Hr. discriminate. }
    destruct (remove_assignment_present environment m m_r assignment Hwf Hin Hr)
      as (_ & H2 & H3 & Hs & Ho).
    destruct (remove_assignment_index environment m m_r assignment Hwf Hidx Hin Hr)
      as (Hidx' & Hgone & Hkeep).
    exists m_r. split; [reflexivity|]. split; [exact H2|]. split; [exact Hgone|].
    split; [exact H3|]. split; [exact Hkeep|].
    split; [split; [eapply store_shrinks_wf; eauto | exact Hidx']|].
    split; [exact Ho|].
    assert (Hmit : mitigated_conflicts m_r = mitigated_conflicts m).
    { unfold _remove_assignment in Hr. rewrite Hnode in Hr. cbn in Hr.
      injection Hr as <-. reflexivity. }
    split; [exact Hmit|]. split; [apply Hs|].
    destruct (first_conflict_decides (objects m_r) temp
                (List.filter (fun a => negb (py_eq (objects m_r) a assignment))
                             possible_conflicts))
      as (still & Hstill & Hspec).
    { intros x Hx. apply List.filter_In in Hx. destruct Hx as [Hx _]. rewrite Ho.
      destruct (Hindex x Hx) as [square Hsq].
      destruct (proj2 (Hidx square) x Hsq) as (_ & nx & Hnx & _).
      eapply conflicts_with_nodes; eauto. }
    exists still. split.
    + simpl. rewrite Hseen, Hc, Hh, str_eqb_refl.
      apply Z.ltb_lt in Hlt. rewrite Hlt. cbn [andb].
      destruct still as [other|].
      * unfold preempt. rewrite Hr. cbn. rewrite Hstill. cbn. rewrite Ho. reflexivity.
      * assert (Hp : preempt environment possible_conflicts temp assignment m tr
                     = Ok (m_r, tr ++ [Preempted (Assignment.assignment_id
                                                    (objects m assignment))], false)).
        { unfold preempt. rewrite Hr. cbn. rewrite Hstill. reflexivity. }
        rewrite Hp, app_nil_r.
        eapply preempt_then_quiet; [exact Hwf | exact Hscope | | | exact Hp].
        -- apply Htodo. left. reflexivity.
        -- intros x Hx. apply Htodo. right. exact Hx.
    + rewrite Ho in Hspec. destruct still as [other|].
      * destruct Hspec as [Hfin Hcw]. apply List.filter_In in Hfin.
        destruct Hfin as [Hfin Hne]. split; [exact Hfin|]. split; [|exact Hcw].
        intros ->. rewrite py_eq_refl in Hne. discriminate.
      * intros other Hother Hne. apply Hspec. apply List.filter_In. split; [exact Hother|].
        destruct (py_eq (objects m) other assignment) eqn:E; [|reflexivity].
        exfalso. apply Hne. apply (store_wf_py_eq m); auto.
  - intros Hgt. simpl. rewrite Hseen, Hc, Hh, str_eqb_refl.
    assert (Hnlt : (Assignment.priority_tier (objects m temp)
                    <? Assignment.priority_tier (objects m assignment)) = false)
      by (apply Z.ltb_ge; lia).
    assert (Hgtb : (Assignment.priority_tier (objects m temp)
                    >? Assignment.priority_tier (objects m assignment)) = true)
      by (apply Z.gtb_lt; lia).
    rewrite Hnlt, Hgtb. reflexivity.
Qed.








End ConsistentStore.

Lemma candidate_store_consistent : consistent grid1 candidate_store.
Proof.
  split; [exact candidate_store_wf|].
  intros square. cbn. destruct (Z.eqb_spec square 0) as [->|Hne].
  - split.
    + repeat constructor; cbn; intuition discriminate.
    + intros l [<-|[<-|[]]]; (split; [cbn; tauto|]);
        eexists; (split; [reflexivity | vm_compute; tauto]).
  - split; [constructor | intros l []].
Qed.

Lemma hierarchical_preemption_witness :
  priority_mode hierarchical_policy = "Hierarchical"
  /\ consistent grid1 candidate_store
  /\ centralized_scope grid1 candidate_store
     = [0; 1; 0; 1; 0; 1; 0; 1]%nat
  /\ conflicts_with grid1 (objects candidate_store 2%nat) (objects candidate_store 0%nat)
     = Ok true
  /\ Assignment.priority_tier (objects candidate_store 2%nat)
     < Assignment.priority_tier (objects candidate_store 0%nat)
  /\ conflicts_with grid1 (objects candidate_store 2%nat) (objects candidate_store 1%nat)
     = Ok true
  /\ exists m_r : SpectrumManager.t,
       _remove_assignment grid1 candidate_store 0%nat = Ok m_r
       /\ ~ In 0%nat (active m_r)
       /\ ~ In 0%nat (square_to_assignments m_r 0)
       /\ In 1%nat (active m_r)
       /\ check_conflicts grid1 hierarchical_policy [0; 1; 0; 1; 0; 1; 0; 1]%nat 2%nat
            [0; 1; 0; 1; 0; 1; 0; 1]%nat [] candidate_store [Arrived]
          = Ok (m_r, [Arrived; Preempted 0; ConflictRemains 1], true).
Proof.
  split; [reflexivity|]. split; [exact candidate_store_consistent|].
  split; [reflexivity|]. split; [reflexivity|]. split; [cbn; lia|].
  split; [reflexivity|].
  destruct (hierarchical_preemption grid1 hierarchical_policy
              [0; 1; 0; 1; 0; 1; 0; 1]%nat 2%nat 0%nat [1; 0; 1; 0; 1; 0; 1]%nat []
              candidate_store [Arrived]) as [Hpreempt _].
  - reflexivity.
  - exact candidate_store_consistent.
  - intros x Hx. exists 0. cbn in *. tauto.
  - cbn. tauto.
  - reflexivity.
  - reflexivity.
  - destruct Hpreempt
      as (m_r & Hr & Hout & Hgone & Hkeep & _ & _ & Hobj & _ & _ & still & Hcheck & Hstill);
      [cbn; lia|].
    exists m_r. split; [exact Hr|]. split; [exact Hout|]. split; [apply Hgone|].
    split; [apply Hkeep; [discriminate | cbn; tauto]|].
    destruct still as [other|].
    + destruct Hstill as (Hin & Hne & _).
      assert (other = 1%nat) as -> by (cbn in Hin; intuition congruence).
      exact Hcheck.
    + exfalso. specialize (Hstill 1%nat). 
      assert (H : @Ok bool true = Ok false); [|discriminate].
      rewrite <- Hstill; [reflexivity | cbn; tauto | discriminate].
Defined.




(** In a run: in every state that a run reaches on an environment whose
    nodes cover sets of squares, removing an assignment of an existing node
    that is not stored changes nothing, and undoes its insertion. *)
Corollary remove_absent_in_run (environment : Environment.t)
    (arch_policy : ArchitecturePolicy.t) (set_order : list Z -> list Z)
    (m : SpectrumManager.t) (assignment : loc) (node : Node.t) :
  Forall (fun node => List.NoDup (Node.covered_squares node)) (Environment.nodes environment) ->
  reachable environment arch_policy set_order m ->
  py_index (Environment.nodes environment) (Assignment.node_id (objects m assignment))
  = Ok node ->
  py_in (objects m) assignment (active m) = false ->
  (exists m', _remove_assignment environment m assignment = Ok m' /\ same_manager m m')
  /\ (exists m1 m2,
        _add_assignment environment m assignment = Ok m1
        /\ _remove_assignment environment m1 assignment = Ok m2
        /\ same_manager m m2).
Proof.
  intros Hcov Hr Hnode Habsent.
  pose proof (reachable_index_sound environment arch_policy set_order Hcov m Hr) as Hs.
  destruct (remove_of_absent environment m assignment node
              Hs Hnode Habsent) as [H1 (m1 & m2 & Ha & _ & _ & Hrm & Hsame)].
  split; [exact H1|]. exists m1, m2. auto.
Qed.

(** The stores of C8 and C9 are consistent stores. *)
Lemma store_of_two_consistent (a b : Assignment.t) :
  Assignment.assignment_id a = 0 -> Assignment.assignment_id b = 1 ->
  Assignment.node_id a = 3 -> Assignment.node_id b = 1 ->
  consistent grid1 (store_of_two a b).
Proof.
  destruct a, b. cbn. intros -> -> -> ->. split.
  - split; cbn.
    + apply (bool_decide_unpack _). reflexivity.
    + repeat constructor; lia.
  - intros square. cbn. destruct (Z.eqb_spec square 0) as [->|Hne].
    + split.
      * repeat constructor; cbn; intuition discriminate.
      * intros l [<-|[<-|[]]]; (split; [cbn; tauto|]);
          eexists; (split; [reflexivity | vm_compute; tauto]).
    + split; [constructor | intros l []].
Qed.

Lemma co_primary_incumbents_consistent : consistent grid1 co_primary_incumbents.
Proof. apply store_of_two_consistent; reflexivity. Qed.

Lemma hierarchical_incumbents_consistent : consistent grid1 hierarchical_incumbents.
Proof. apply store_of_two_consistent; reflexivity. Qed.

(** * The grid of nodes *)

Lemma range_length (n : Z) : length (range n) = Z.to_nat n.
Proof. unfold range. rewrite length_map, length_seq. reflexivity. Qed.

Lemma range_lookup (n : Z) (i : nat) :
  (i < Z.to_nat n)%nat -> range n !! i = Some (Z.of_nat i).
Proof.
  intros Hi. unfold range. rewrite list_lookup_fmap.
  rewrite lookup_seq_lt by exact Hi. reflexivity.
Qed.

Lemma range_In (n x : Z) : In x (range n) <-> 0 <= x < n.
Proof.
  unfold range. rewrite in_map_iff. split.
  - intros (k & <- & Hk). apply in_seq in Hk. lia.
  - intros Hx. exists (Z.to_nat x). split; [lia|]. apply in_seq. lia.
Qed.

Lemma flat_map_length_uniform {A B : Type} (f : A -> list B) (k : nat) (l : list A) :
  (forall x, In x l -> length (f x) = k) ->
  length (flat_map f l) = (length l * k)%nat.
Proof.
  induction l as [|a l IH]; intros Hk; simpl; [reflexivity|].
  rewrite length_app, Hk, IH by auto with datatypes. reflexivity.
Qed.

Lemma flat_map_lookup_uniform {A B : Type} (f : A -> list B) (k : nat) (l : list A)
    (i j : nat) (a : A) :
  (forall x, In x l -> length (f x) = k) ->
  (j < k)%nat -> l !! i = Some a ->
  flat_map f l !! (i * k + j)%nat = f a !! j.
Proof.
  revert i. induction l as [|b l IH]; intros i Hk Hj Hi; [discriminate|].
  simpl. destruct i as [|i]; simpl in *.
  - injection Hi as ->. apply lookup_app_l. rewrite Hk by auto. exact Hj.
  - rewrite lookup_app_r by (rewrite Hk by auto; lia).
    rewrite Hk by auto.
    replace (k + i * k + j - k)%nat with (i * k + j)%nat by lia.
    apply IH; auto.
Qed.

(** The node that [generate_nodes] places at row [r], column [c]. *)
Definition node_at (squares_rows squares_cols r c : Z) : Node.t :=
  Node_init (r * (squares_cols + 1) + c) r c (covered_at squares_rows squares_cols r c).

Lemma generate_nodes_length (rows cols : Z) :
  0 <= rows -> 0 <= cols ->
  Z.of_nat (length (generate_nodes rows cols)) = (rows + 1) * (cols + 1).
Proof.
  intros Hr Hc. unfold generate_nodes.
  rewrite (flat_map_length_uniform _ (Z.to_nat (cols + 1))).
  - rewrite range_length. lia.
  - intros r _. rewrite length_map, range_length. reflexivity.
Qed.

Lemma generate_nodes_lookup (rows cols r c : Z) :
  0 <= r <= rows -> 0 <= c <= cols ->
  generate_nodes rows cols !! Z.to_nat (r * (cols + 1) + c)
  = Some (node_at rows cols r c).
Proof.
  intros Hr Hc. unfold generate_nodes.
  replace (Z.to_nat (r * (cols + 1) + c))
    with (Z.to_nat r * Z.to_nat (cols + 1) + Z.to_nat c)%nat by nia.
  rewrite (flat_map_lookup_uniform _ (Z.to_nat (cols + 1)) _ _ _ (Z.of_nat (Z.to_nat r))).
  - rewrite list_lookup_fmap, range_lookup by lia. cbn.
    unfold node_at. repeat f_equal; lia.
  - intros x _. rewrite length_map, range_length. reflexivity.
  - lia.
  - apply range_lookup. lia.
Qed.

Lemma generate_nodes_In (rows cols : Z) (node : Node.t) :
  In node (generate_nodes rows cols)
  <-> exists r c, 0 <= r <= rows /\ 0 <= c <= cols /\ node = node_at rows cols r c.
Proof.
  unfold generate_nodes. rewrite in_flat_map. split.
  - intros (r & Hr & Hin). apply in_map_iff in Hin. destruct Hin as (c & <- & Hc).
    apply range_In in Hr. apply range_In in Hc.
    exists r, c. split; [lia|]. split; [lia|]. reflexivity.
  - intros (r & c & Hr & Hc & ->). exists r. split; [apply range_In; lia|].
    apply in_map_iff. exists c. split; [reflexivity | apply range_In; lia].
Qed.

Lemma py_index_nonneg {A : Type} (l : list A) (i : Z) (x : A) :
  0 <= i -> l !! Z.to_nat i = Some x -> py_index l i = Ok x.
Proof.
  intros Hi Hx. unfold py_index.
  apply lookup_lt_Some in Hx as Hlt.
  destruct (Z.ltb_spec i 0); [lia|].
  destruct (Z.leb_spec 0 i); [|lia].
  destruct (Z.ltb_spec i (Z.of_nat (length l))); [|lia].
  cbn. rewrite Hx. reflexivity.
Qed.

Lemma py_index_negative {A : Type} (l : list A) (i : Z) :
  i < 0 -> - Z.of_nat (length l) <= i ->
  py_index l i = py_index l (i + Z.of_nat (length l)).
Proof.
  intros Hneg Hlo. unfold py_index.
  destruct (Z.ltb_spec i 0); [|lia].
  destruct (Z.ltb_spec (i + Z.of_nat (length l)) 0); [lia|]. reflexivity.
Qed.

Lemma py_index_out_of_range {A : Type} (l : list A) (i : Z) :
  i < - Z.of_nat (length l) \/ Z.of_nat (length l) <= i ->
  py_index l i = Raise IndexError.
Proof.
  intros Hi. unfold py_index.
  destruct (Z.ltb_spec i 0).
  - destruct (Z.leb_spec 0 (i + Z.of_nat (length l))); [lia|]. reflexivity.
  - destruct (Z.ltb_spec i (Z.of_nat (length l))); [lia|].
    rewrite andb_false_r. reflexivity.
Qed.

Lemma py_index_Ok_range {A : Type} (l : list A) (i : Z) (x : A) :
  py_index l i = Ok x -> - Z.of_nat (length l) <= i < Z.of_nat (length l).
Proof.
  intros H.
  destruct (Z_lt_le_dec i (- Z.of_nat (length l))) as [Hlo|Hlo].
  { rewrite py_index_out_of_range in H by lia. discriminate. }
  destruct (Z_lt_le_dec i (Z.of_nat (length l))) as [Hhi|Hhi]; [lia|].
  rewrite py_index_out_of_range in H by lia. discriminate.
Qed.

Lemma grid_index (rows cols i : Z) :
  0 <= rows -> 0 <= cols -> 0 <= i < (rows + 1) * (cols + 1) ->
  py_index (generate_nodes rows cols) i
  = Ok (node_at rows cols (i / (cols + 1)) (i `mod` (cols + 1))).
Proof.
  intros Hr Hc Hi. apply py_index_nonneg; [lia|].
  assert (Hd : i = (i / (cols + 1)) * (cols + 1) + i `mod` (cols + 1))
    by (rewrite Z.mul_comm; apply Z.div_mod; lia).
  rewrite Hd at 1. apply generate_nodes_lookup.
  - split; [apply Z.div_pos; lia|].
    apply Z.lt_succ_r. apply Z.div_lt_upper_bound; lia.
  - pose proof (Z.mod_pos_bound i (cols + 1)). lia.
Qed.

(** X1.  For a grid of rows x cols squares (both at least 0), Environment
    builds (rows+1)*(cols+1) nodes, and nodes[i] is the node whose node_id is
    i, whose row is i // (cols+1) and whose col is i % (cols+1): node ids are
    the list positions, in row-major order. *)
Theorem generate_nodes_indexed (rows cols : Z) (Hrows : 0 <= rows) (Hcols : 0 <= cols) :
  Z.of_nat (length (Environment.nodes (Environment_init rows cols)))
  = (rows + 1) * (cols + 1)
  /\ forall i, 0 <= i < (rows + 1) * (cols + 1) ->
       exists node,
         py_index (Environment.nodes (Environment_init rows cols)) i = Ok node
         /\ Node.node_id node = i
         /\ Node.row node = i / (cols + 1)
         /\ Node.col node = i `mod` (cols + 1).
Proof.
  split; [apply generate_nodes_length; assumption|].
  intros i Hi. eexists. split; [apply grid_index; assumption|]. cbn.
  split; [|split; reflexivity].
  rewrite Z.mul_comm. symmetry. apply Z.div_mod. lia.
Qed.

Lemma generate_nodes_indexed_witness :
  Z.of_nat (length (Environment.nodes (Environment_init 2 3))) = 12
  /\ forall i, 0 <= i < 12 ->
       exists node,
         py_index (Environment.nodes (Environment_init 2 3)) i = Ok node
         /\ Node.node_id node = i
         /\ Node.row node = i / 4
         /\ Node.col node = i `mod` 4.
Proof. apply (generate_nodes_indexed 2 3); lia. Defined.

(** The squares around the node at row [r], column [c]. *)
Lemma covered_at_In (rows cols r c s : Z) :
  0 <= r <= rows -> 0 <= c <= cols ->
  In s (covered_at rows cols r c)
  <-> exists sr sc, (sr = r \/ sr = r - 1) /\ (sc = c \/ sc = c - 1)
                    /\ 0 <= sr < rows /\ 0 <= sc < cols /\ s = sr * cols + sc.
Proof.
  intros Hr Hc. unfold covered_at. rewrite !in_app_iff. split.
  - intros [H|[H|[H|H]]];
      match type of H with In _ (if ?b then _ else _) => destruct b eqn:E end;
      try contradiction; destruct H as [<-|[]];
      apply andb_true_iff in E; destruct E as [E1 E2];
      repeat match goal with
             | E : (_ <? _) = true |- _ => apply Z.ltb_lt in E
             end.
    + exists r, c. lia.
    + exists (r - 1), c. lia.
    + exists r, (c - 1). lia.
    + exists (r - 1), (c - 1). lia.
  - intros (sr & sc & [->| ->] & [->| ->] & Hsr & Hsc & ->).
    + left. destruct (Z.ltb_spec r rows); [|lia]. destruct (Z.ltb_spec c cols); [|lia].
      left. reflexivity.
    + right. right. left.
      destruct (Z.ltb_spec 0 c); [|lia]. destruct (Z.ltb_spec r rows); [|lia].
      left. reflexivity.
    + right. left.
      destruct (Z.ltb_spec 0 r); [|lia]. destruct (Z.ltb_spec c cols); [|lia].
      left. reflexivity.
    + right. right. right.
      destruct (Z.ltb_spec 0 r); [|lia]. destruct (Z.ltb_spec 0 c); [|lia].
      left. reflexivity.
Qed.

Lemma remove_dups_In (l : list Z) (x : Z) : In x (remove_dups l) <-> In x l.
Proof. rewrite <- !list_elem_of_In. apply elem_of_remove_dups. Qed.

Lemma remove_dups_length_le (l : list Z) : (length (remove_dups l) <= length l)%nat.
Proof.
  induction l as [|x l IH]; simpl; [lia|].
  destruct (decide_rel elem_of x l); simpl; lia.
Qed.

Lemma covered_at_length (rows cols r c : Z) : (length (covered_at rows cols r c) <= 4)%nat.
Proof.
  unfold covered_at. rewrite !length_app.
  repeat match goal with |- context [if ?b then _ else _] => destruct b end; simpl; lia.
Qed.

Lemma node_at_covered (rows cols r c s : Z) :
  0 <= r <= rows -> 0 <= c <= cols ->
  In s (Node.covered_squares (node_at rows cols r c))
  <-> exists sr sc, (sr = r \/ sr = r - 1) /\ (sc = c \/ sc = c - 1)
                    /\ 0 <= sr < rows /\ 0 <= sc < cols /\ s = sr * cols + sc.
Proof. intros Hr Hc. cbn. rewrite remove_dups_In. apply covered_at_In; assumption. Qed.

Lemma generated_covered_NoDup (rows cols : Z) :
  Forall (fun node => List.NoDup (Node.covered_squares node))
         (Environment.nodes (Environment_init rows cols)).
Proof.
  apply List.Forall_forall. intros node Hin. cbn in Hin.
  apply generate_nodes_In in Hin. destruct Hin as (r & c & _ & _ & ->).
  cbn. apply NoDup_ListNoDup. apply NoDup_remove_dups.
Qed.

(** X2.  On a grid with at least one row and one column of squares, every
    generated node covers between one and four squares, all distinct, and each
    is a square id between 0 and rows*cols - 1. *)
Theorem covered_squares_of_grid (rows cols : Z) (node : Node.t)
    (Hrows : 1 <= rows) (Hcols : 1 <= cols)
    (Hnode : In node (Environment.nodes (Environment_init rows cols))) :
  (forall s, In s (Node.covered_squares node) -> 0 <= s < rows * cols)
  /\ (1 <= length (Node.covered_squares node) <= 4)%nat
  /\ List.NoDup (Node.covered_squares node).
Proof.
  cbn in Hnode. apply generate_nodes_In in Hnode.
  destruct Hnode as (r & c & Hr & Hc & ->). split; [|split].
  - intros s Hs. apply node_at_covered in Hs; [|lia|lia].
    destruct Hs as (sr & sc & _ & _ & Hsr & Hsc & ->). nia.
  - split.
    + assert (Hex : exists s, In s (Node.covered_squares (node_at rows cols r c))).
      { exists ((if r <? rows then r else r - 1) * cols + (if c <? cols then c else c - 1)).
        apply node_at_covered; [lia|lia|].
        eexists. eexists. split; [|split; [|split; [|split; [|reflexivity]]]];
          destruct (Z.ltb_spec r rows), (Z.ltb_spec c cols); lia. }
      destruct Hex as [s Hs].
      destruct (Node.covered_squares (node_at rows cols r c)); [contradiction|simpl; lia].
    + cbn. etrans; [apply remove_dups_length_le | apply covered_at_length].
  - cbn. apply NoDup_ListNoDup. apply NoDup_remove_dups.
Qed.

Lemma covered_squares_of_grid_witness :
  (forall s, In s (Node.covered_squares (node_at 2 2 1 1)) -> 0 <= s < 2 * 2)
  /\ (1 <= length (Node.covered_squares (node_at 2 2 1 1)) <= 4)%nat
  /\ List.NoDup (Node.covered_squares (node_at 2 2 1 1)).
Proof.
  apply (covered_squares_of_grid 2 2 (node_at 2 2 1 1)); [lia | lia |].
  vm_compute. tauto.
Defined.

(** X3.  On a grid with at least one row and one column of squares, a
    generated node covers square s exactly when it sits at one of the four
    corners of s: its row is s // cols or s // cols + 1 and its col is s %
    cols or s % cols + 1. *)
Theorem square_covered_by_its_corners (rows cols s : Z) (node : Node.t)
    (Hrows : 1 <= rows) (Hcols : 1 <= cols) (Hs : 0 <= s < rows * cols)
    (Hnode : In node (Environment.nodes (Environment_init rows cols))) :
  In s (Node.covered_squares node)
  <-> (Node.row node = s / cols \/ Node.row node = s / cols + 1)
      /\ (Node.col node = s `mod` cols \/ Node.col node = s `mod` cols + 1).
Proof.
  cbn in Hnode. apply generate_nodes_In in Hnode.
  destruct Hnode as (r & c & Hr & Hc & ->).
  rewrite node_at_covered by lia. cbn.
  pose proof (Z.mod_pos_bound s cols ltac:(lia)) as Hm.
  pose proof (Z.div_mod s cols ltac:(lia)) as Hd.
  assert (Hq : 0 <= s / cols < rows).
  { split; [apply Z.div_pos; lia | apply Z.div_lt_upper_bound; lia]. }
  split.
  - intros (sr & sc & Hsr & Hsc & Hsr' & Hsc' & Heq).
    assert (Hu : sr = s / cols /\ sc = s `mod` cols).
    { split.
      - apply (Z.div_unique s cols sr sc); lia.
      - apply (Z.mod_unique s cols sr sc); lia. }
    destruct Hu as [<- <-]. lia.
  - intros [Hrow Hcol]. exists (s / cols), (s `mod` cols). lia.
Qed.

Lemma square_covered_by_its_corners_witness :
  In 3 (Node.covered_squares (node_at 2 2 2 1))
  <-> (Node.row (node_at 2 2 2 1) = 3 / 2 \/ Node.row (node_at 2 2 2 1) = 3 / 2 + 1)
      /\ (Node.col (node_at 2 2 2 1) = 3 `mod` 2 \/ Node.col (node_at 2 2 2 1) = 3 `mod` 2 + 1).
Proof.
  apply (square_covered_by_its_corners 2 2 3 (node_at 2 2 2 1)); [lia | lia | lia |].
  vm_compute. tauto.
Defined.

(** ** Neighbours *)

(** The distance that [get_neighbors] and [get_node_relationship] measure
    between the grid positions of two node ids. *)
Definition manhattan (cols i j : Z) : Z :=
  Z.abs (i / (cols + 1) - j / (cols + 1))
  + Z.abs (i `mod` (cols + 1) - j `mod` (cols + 1)).

Lemma grid_position (cols r c : Z) :
  0 <= cols -> 0 <= c <= cols ->
  (r * (cols + 1) + c) / (cols + 1) = r /\ (r * (cols + 1) + c) `mod` (cols + 1) = c.
Proof.
  intros Hcols Hc. split; symmetry.
  - apply (Z.div_unique _ (cols + 1) r c); lia.
  - apply (Z.mod_unique _ (cols + 1) r c); lia.
Qed.

Lemma grid_position_bounds (rows cols i : Z) :
  0 <= rows -> 0 <= cols -> 0 <= i < (rows + 1) * (cols + 1) ->
  0 <= i / (cols + 1) <= rows /\ 0 <= i `mod` (cols + 1) <= cols
  /\ i = (i / (cols + 1)) * (cols + 1) + i `mod` (cols + 1).
Proof.
  intros Hr Hc Hi.
  pose proof (Z.mod_pos_bound i (cols + 1) ltac:(lia)).
  pose proof (Z.div_mod i (cols + 1) ltac:(lia)).
  split; [|split; lia].
  split; [apply Z.div_pos; lia|].
  apply Z.lt_succ_r. apply Z.div_lt_upper_bound; lia.
Qed.

Lemma get_neighbors_grid (rows cols i : Z) :
  0 <= rows -> 0 <= cols -> 0 <= i < (rows + 1) * (cols + 1) ->
  exists l, get_neighbors (Environment_init rows cols) i = Ok l
            /\ List.NoDup l
            /\ forall j, In j l
                         <-> 0 <= j < (rows + 1) * (cols + 1) /\ manhattan cols i j = 1.
Proof.
  intros Hrows Hcols Hi. unfold get_neighbors.
  cbn [Environment.nodes Environment_init]. rewrite grid_index by assumption.
  cbn [mbind result_bind Node.row Node.col node_at Node_init].
  change (Environment.num_nodes_rows (Environment_init rows cols)) with (rows + 1).
  change (Environment.num_nodes_cols (Environment_init rows cols)) with (cols + 1).
  destruct (grid_position_bounds rows cols i Hrows Hcols Hi) as (Hr & Hc & Hd).
  set (r := i / (cols + 1)) in *. set (c := i `mod` (cols + 1)) in *.
  eexists. split; [reflexivity|].
  assert (Hpos : forall dr dc, 0 <= c + dc <= cols ->
                   ((r + dr) * (cols + 1) + (c + dc)) / (cols + 1) = r + dr
                   /\ ((r + dr) * (cols + 1) + (c + dc)) `mod` (cols + 1) = c + dc)
    by (intros; apply grid_position; lia).
  assert (Hmem : forall j,
    In j (flat_map (fun d : Z * Z =>
            if (0 <=? r + d.1) && (r + d.1 <? rows + 1) && (0 <=? c + d.2)
               && (c + d.2 <? cols + 1)
            then if (r + d.1) * (cols + 1) + (c + d.2) =? i then []
                 else [(r + d.1) * (cols + 1) + (c + d.2)]
            else []) [(-1, 0); (1, 0); (0, -1); (0, 1)])
    <-> exists dr dc, In (dr, dc) [(-1, 0); (1, 0); (0, -1); (0, 1)]
                      /\ 0 <= r + dr <= rows /\ 0 <= c + dc <= cols
                      /\ j = (r + dr) * (cols + 1) + (c + dc)).
  { intros j. rewrite in_flat_map. split.
    - intros ([dr dc] & Hin & Hj). cbn [fst snd] in Hj.
      destruct (_ && _) eqn:E in Hj; [|contradiction].
      destruct (_ =? i) in Hj; [contradiction|]. destruct Hj as [<-|[]].
      repeat (apply andb_true_iff in E; destruct E as [E ?]).
      exists dr, dc. split; [exact Hin|]. lia.
    - intros (dr & dc & Hin & Hr' & Hc' & ->). exists (dr, dc). split; [exact Hin|].
      cbn [fst snd].
      destruct (Z.leb_spec 0 (r + dr)); [|lia].
      destruct (Z.ltb_spec (r + dr) (rows + 1)); [|lia].
      destruct (Z.leb_spec 0 (c + dc)); [|lia].
      destruct (Z.ltb_spec (c + dc) (cols + 1)); [|lia]. cbn [andb].
      destruct (Z.eqb_spec ((r + dr) * (cols + 1) + (c + dc)) i) as [E|E].
      + exfalso. destruct (Hpos dr dc Hc') as [Hp1 Hp2]. rewrite E in Hp1, Hp2.
        fold r in Hp1. fold c in Hp2. cbn in Hin.
        destruct Hin as [[= <- <-]|[[= <- <-]|[[= <- <-]|[[= <- <-]|[]]]]]; lia.
      + left. reflexivity. }
  split.
  - (* the four directions give four different ids *)
    cbn [flat_map fst snd].
    repeat match goal with
           | |- context [if ?b then _ else _] => destruct b eqn:?
           end; cbn [app];
      repeat match goal with
             | H : _ && _ = true |- _ => apply andb_true_iff in H; destruct H
             end;
      repeat match goal with
             | H : (_ <? _) = true |- _ => apply Z.ltb_lt in H
             | H : (_ <=? _) = true |- _ => apply Z.leb_le in H
             end;
      repeat (constructor; [cbn [In]; nia|]); constructor.
  - intros j. rewrite Hmem. unfold manhattan. fold r c. split.
    + intros (dr & dc & Hin & Hr' & Hc' & ->).
      destruct (Hpos dr dc Hc') as [-> ->]. cbn in Hin.
      destruct Hin as [[= <- <-]|[[= <- <-]|[[= <- <-]|[[= <- <-]|[]]]]]; nia.
    + intros [Hj Hm].
      destruct (grid_position_bounds rows cols j Hrows Hcols Hj) as (Hr' & Hc' & Hd').
      exists (j / (cols + 1) - r), (j `mod` (cols + 1) - c).
      split; [|split; [lia | split; [lia|]]].
      * cbn.
        assert (Hcase : j / (cols + 1) - r = -1 /\ j `mod` (cols + 1) - c = 0
                        \/ j / (cols + 1) - r = 1 /\ j `mod` (cols + 1) - c = 0
                        \/ j / (cols + 1) - r = 0 /\ j `mod` (cols + 1) - c = -1
                        \/ j / (cols + 1) - r = 0 /\ j `mod` (cols + 1) - c = 1) by lia.
        destruct Hcase as [[-> ->]|[[-> ->]|[[-> ->]|[-> ->]]]]; auto.
      * rewrite Hd' at 1. f_equal; lia.
Qed.

Lemma manhattan_sym (cols i j : Z) : manhattan cols i j = manhattan cols j i.
Proof. unfold manhattan. lia. Qed.

(** X4.  For a node id i of a generated grid, get_neighbors returns, without
    repetition, exactly the node ids of the grid at Manhattan distance 1 from
    node i. *)
Theorem get_neighbors_of_grid (rows cols i : Z)
    (Hrows : 0 <= rows) (Hcols : 0 <= cols) (Hi : 0 <= i < (rows + 1) * (cols + 1)) :
  exists l, get_neighbors (Environment_init rows cols) i = Ok l
            /\ List.NoDup l
            /\ forall j, In j l
                         <-> 0 <= j < (rows + 1) * (cols + 1) /\ manhattan cols i j = 1.
Proof. exact (get_neighbors_grid rows cols i Hrows Hcols Hi). Qed.

Lemma get_neighbors_of_grid_witness :
  exists l, get_neighbors (Environment_init 2 3) 5 = Ok l
            /\ List.NoDup l
            /\ forall j, In j l <-> 0 <= j < (2 + 1) * (3 + 1) /\ manhattan 3 5 j = 1.
Proof. apply (get_neighbors_of_grid 2 3 5); lia. Defined.

(** X5.  On a generated grid the neighbour relation is symmetric: when
    get_neighbors(i) contains j, get_neighbors(j) returns a list that contains
    i. *)
Theorem get_neighbors_symmetric (rows cols i j : Z) (l : list Z)
    (Hrows : 0 <= rows) (Hcols : 0 <= cols) (Hi : 0 <= i < (rows + 1) * (cols + 1))
    (Hl : get_neighbors (Environment_init rows cols) i = Ok l) (Hj : In j l) :
  exists l', get_neighbors (Environment_init rows cols) j = Ok l' /\ In i l'.
Proof.
  destruct (get_neighbors_grid rows cols i Hrows Hcols Hi) as (l0 & Hl0 & _ & Hmem).
  rewrite Hl in Hl0. injection Hl0 as <-.
  apply Hmem in Hj. destruct Hj as [Hj Hm].
  destruct (get_neighbors_grid rows cols j Hrows Hcols Hj) as (l' & Hl' & _ & Hmem').
  exists l'. split; [exact Hl'|]. apply Hmem'. split; [exact Hi|].
  rewrite manhattan_sym. exact Hm.
Qed.

Lemma get_neighbors_symmetric_witness :
  exists l', get_neighbors (Environment_init 1 1) 2 = Ok l' /\ In 0 l'.
Proof.
  apply (get_neighbors_symmetric 1 1 0 2 [2; 1]); [lia | lia | lia | reflexivity |].
  simpl. tauto.
Defined.

Lemma get_neighbors_range (rows cols i : Z) :
  0 <= rows -> 0 <= cols ->
  (i < - ((rows + 1) * (cols + 1)) \/ (rows + 1) * (cols + 1) <= i ->
   get_neighbors (Environment_init rows cols) i = Raise IndexError)
  /\ (- ((rows + 1) * (cols + 1)) <= i < 0 ->
      get_neighbors (Environment_init rows cols) i
      = get_neighbors (Environment_init rows cols) (i + (rows + 1) * (cols + 1))).
Proof.
  intros Hrows Hcols.
  pose proof (generate_nodes_length rows cols Hrows Hcols) as Hlen.
  split.
  - intros Hout. unfold get_neighbors. cbn [Environment.nodes Environment_init].
    rewrite py_index_out_of_range by lia. reflexivity.
  - intros Hneg. unfold get_neighbors. cbn [Environment.nodes Environment_init].
    rewrite py_index_negative by lia. rewrite Hlen.
    set (k := i + (rows + 1) * (cols + 1)).
    assert (Hk : 0 <= k < (rows + 1) * (cols + 1)) by lia.
    rewrite grid_index by assumption.
    cbn [mbind result_bind Node.row Node.col node_at Node_init].
    change (Environment.num_nodes_rows (Environment_init rows cols)) with (rows + 1).
    change (Environment.num_nodes_cols (Environment_init rows cols)) with (cols + 1).
    destruct (grid_position_bounds rows cols k Hrows Hcols Hk) as (Hr & Hc & Hd).
    set (r := k / (cols + 1)) in *. set (c := k `mod` (cols + 1)) in *.
    f_equal. cbn [flat_map fst snd].
    repeat match goal with
           | |- context [if ?b then _ else _] => destruct b eqn:?
           end; try reflexivity; exfalso;
      repeat match goal with
             | H : _ && _ = true |- _ => apply andb_true_iff in H; destruct H
             end;
      repeat match goal with
             | H : (_ <? _) = true |- _ => apply Z.ltb_lt in H
             | H : (_ <=? _) = true |- _ => apply Z.leb_le in H
             | H : (_ =? _) = true |- _ => apply Z.eqb_eq in H
             | H : (_ =? _) = false |- _ => clear H
             end; nia.
Qed.

(** X6.  On a generated grid with N nodes, get_neighbors raises IndexError for
    a node id that is at least N or less than -N; a negative id between -N and
    -1 is not rejected: it is answered like the node id + N, the node counted
    from the end of the list. *)
Theorem get_neighbors_index_error (rows cols i : Z)
    (Hrows : 0 <= rows) (Hcols : 0 <= cols) :
  (i < - ((rows + 1) * (cols + 1)) \/ (rows + 1) * (cols + 1) <= i ->
   get_neighbors (Environment_init rows cols) i = Raise IndexError)
  /\ (- ((rows + 1) * (cols + 1)) <= i < 0 ->
      get_neighbors (Environment_init rows cols) i
      = get_neighbors (Environment_init rows cols) (i + (rows + 1) * (cols + 1))).
Proof. exact (get_neighbors_range rows cols i Hrows Hcols). Qed.

Lemma get_neighbors_index_error_witness :
  (4 < - ((1 + 1) * (1 + 1)) \/ (1 + 1) * (1 + 1) <= 4 ->
   get_neighbors (Environment_init 1 1) 4 = Raise IndexError)
  /\ (- ((1 + 1) * (1 + 1)) <= 4 < 0 ->
      get_neighbors (Environment_init 1 1) 4
      = get_neighbors (Environment_init 1 1) (4 + (1 + 1) * (1 + 1))).
Proof. apply (get_neighbors_index_error 1 1 4); lia. Defined.

(** * Conflicts and node relationships *)

Lemma py_index_raise {A : Type} (l : list A) (i : Z) (e : exn) :
  py_index l i = Raise e -> e = IndexError.
Proof.
  unfold py_index. destruct (_ && _); [|congruence].
  destruct (l !! _); congruence.
Qed.

Lemma shared_squares_In (n1 n2 : Node.t) (s : Z) :
  In s (shared_squares n1 n2)
  <-> In s (Node.covered_squares n1) /\ In s (Node.covered_squares n2).
Proof.
  unfold shared_squares. rewrite remove_dups_In.
  rewrite <- !list_elem_of_In. apply list_elem_of_intersection.
Qed.

Lemma shared_squares_length_sym (n1 n2 : Node.t) :
  length (shared_squares n1 n2) = length (shared_squares n2 n1).
Proof.
  apply Permutation_length. apply NoDup_Permutation.
  - apply NoDup_remove_dups.
  - apply NoDup_remove_dups.
  - intros s. rewrite !list_elem_of_In, !shared_squares_In. tauto.
Qed.

Lemma conflicts_with_sym (environment : Environment.t) (a b : Assignment.t) :
  conflicts_with environment a b = conflicts_with environment b a.
Proof.
  unfold conflicts_with.
  assert (Hc : (Assignment.freq_end a <=? Assignment.freq_start b)
               || (Assignment.freq_start a >=? Assignment.freq_end b)
               = (Assignment.freq_end b <=? Assignment.freq_start a)
                 || (Assignment.freq_start b >=? Assignment.freq_end a)).
  { rewrite !Z.geb_leb. apply orb_comm. }
  rewrite Hc. clear Hc. destruct (_ || _); [reflexivity|].
  destruct (py_index _ (Assignment.node_id a)) as [na|ea] eqn:Ha;
    destruct (py_index _ (Assignment.node_id b)) as [nb|eb] eqn:Hb; cbn.
  - rewrite shared_squares_length_sym. reflexivity.
  - reflexivity.
  - reflexivity.
  - apply py_index_raise in Ha, Hb. congruence.
Qed.

(** X7.  conflicts_with is symmetric on any environment: a.conflicts_with(b)
    and b.conflicts_with(a) return the same boolean, or both raise IndexError. *)
Theorem conflicts_with_symmetric (environment : Environment.t) (a b : Assignment.t) :
  conflicts_with environment a b = conflicts_with environment b a.
Proof. exact (conflicts_with_sym environment a b). Qed.

Lemma opposite_pairs_sym (x y : Z) :
  existsb (Zpair_eqb (x, y)) [(0, 3); (3, 0); (1, 2); (2, 1)]
  = existsb (Zpair_eqb (y, x)) [(0, 3); (3, 0); (1, 2); (2, 1)].
Proof.
  unfold Zpair_eqb. cbn.
  destruct (Z.eqb_spec x 0), (Z.eqb_spec x 1), (Z.eqb_spec x 2), (Z.eqb_spec x 3),
    (Z.eqb_spec y 0), (Z.eqb_spec y 1), (Z.eqb_spec y 2), (Z.eqb_spec y 3);
    try reflexivity; lia.
Qed.

(** X8.  get_node_relationship is symmetric on any environment: both orders of
    the two assignments return the same relationship, or both raise
    IndexError. *)
Theorem get_node_relationship_symmetric (environment : Environment.t) (a b : Assignment.t) :
  get_node_relationship environment a b = get_node_relationship environment b a.
Proof.
  unfold get_node_relationship.
  destruct (py_index _ (Assignment.node_id a)) as [na|ea] eqn:Ha;
    destruct (py_index _ (Assignment.node_id b)) as [nb|eb] eqn:Hb;
    cbn [mbind result_bind];
    [| reflexivity | reflexivity | apply py_index_raise in Ha, Hb; congruence].
  rewrite (Z.eqb_sym (Node.node_id nb)).
  destruct (Node.node_id na =? Node.node_id nb); [reflexivity|].
  pose proof (shared_squares_length_sym na nb) as Hlen.
  destruct (shared_squares na nb) as [|s l], (shared_squares nb na) as [|s' l'];
    try discriminate; [reflexivity|].
  rewrite Hlen, opposite_pairs_sym.
  replace (Z.abs (Node.row nb - Node.row na) + Z.abs (Node.col nb - Node.col na))
    with (Z.abs (Node.row na - Node.row nb) + Z.abs (Node.col na - Node.col nb)) by lia.
  reflexivity.
Qed.

(** ** On a generated grid *)

(** The relationship of two grid positions by their distances: the same
    node, one step along a row or a column, one step along both, or
    further apart. *)
Definition grid_relationship (cols i j : Z) : relationship :=
  let dr := Z.abs (i / (cols + 1) - j / (cols + 1)) in
  let dc := Z.abs (i `mod` (cols + 1) - j `mod` (cols + 1)) in
  if i =? j then rel_same
  else if (dr <=? 1) && (dc <=? 1)
       then if dr + dc =? 1 then rel_adjacent else rel_opposite
       else rel_none.

Lemma square_decomposition (cols sr sc sr' sc' : Z) :
  0 <= sc < cols -> 0 <= sc' < cols -> sr * cols + sc = sr' * cols + sc' ->
  sr = sr' /\ sc = sc'.
Proof.
  intros H1 H2 H. split.
  - rewrite (Z.div_unique (sr * cols + sc) cols sr sc) by lia.
    rewrite H. symmetry. apply (Z.div_unique _ cols sr' sc'); lia.
  - rewrite (Z.mod_unique (sr * cols + sc) cols sr sc) by lia.
    rewrite H. symmetry. apply (Z.mod_unique _ cols sr' sc'); lia.
Qed.

Lemma node_at_shared (rows cols r c r' c' : Z) :
  1 <= rows -> 1 <= cols -> 0 <= r <= rows -> 0 <= c <= cols ->
  0 <= r' <= rows -> 0 <= c' <= cols ->
  (exists s, In s (shared_squares (node_at rows cols r c) (node_at rows cols r' c')))
  <-> Z.abs (r - r') <= 1 /\ Z.abs (c - c') <= 1.
Proof.
  intros Hrows Hcols Hr Hc Hr' Hc'. split.
  - intros (s & Hs). apply shared_squares_In in Hs. destruct Hs as [H1 H2].
    apply node_at_covered in H1; [|lia|lia]. apply node_at_covered in H2; [|lia|lia].
    destruct H1 as (sr & sc & Hsr & Hsc & Bsr & Bsc & ->).
    destruct H2 as (sr' & sc' & Hsr' & Hsc' & Bsr' & Bsc' & Heq).
    destruct (square_decomposition cols sr sc sr' sc' Bsc Bsc' Heq) as [-> ->]. lia.
  - intros [Hdr Hdc].
    exists ((if r =? r' then if r <? rows then r else r - 1 else Z.min r r') * cols
            + (if c =? c' then if c <? cols then c else c - 1 else Z.min c c')).
    apply shared_squares_In. split; apply node_at_covered; try lia;
      eexists; eexists; (split; [|split; [|split; [|split; [|reflexivity]]]]);
      destruct (Z.eqb_spec r r'), (Z.eqb_spec c c'),
        (Z.ltb_spec r rows), (Z.ltb_spec c cols); lia.
Qed.

Lemma shared_squares_nil (n1 n2 : Node.t) :
  shared_squares n1 n2 = [] <-> ~ exists s, In s (shared_squares n1 n2).
Proof.
  split.
  - intros -> (s & []).
  - intros H. destruct (shared_squares n1 n2) as [|s l]; [reflexivity|].
    exfalso. apply H. exists s. left. reflexivity.
Qed.

Lemma get_node_relationship_grid (rows cols : Z) (a b : Assignment.t) :
  1 <= rows -> 1 <= cols ->
  0 <= Assignment.node_id a < (rows + 1) * (cols + 1) ->
  0 <= Assignment.node_id b < (rows + 1) * (cols + 1) ->
  get_node_relationship (Environment_init rows cols) a b
  = Ok (grid_relationship cols (Assignment.node_id a) (Assignment.node_id b)).
Proof.
  intros Hrows Hcols Ha Hb.
  destruct a as [ida i fsa fea dta qa nca pta], b as [idb j fsb feb dtb qb ncb ptb].
  cbn [Assignment.node_id] in *.
  destruct (Z.eq_dec rows 1) as [Hr1|Hr1]; [destruct (Z.eq_dec cols 1) as [Hc1|Hc1]|].
  { (* the grid of one square *)
    subst rows cols.
    assert (Hi : i = 0 \/ i = 1 \/ i = 2 \/ i = 3) by lia.
    assert (Hj : j = 0 \/ j = 1 \/ j = 2 \/ j = 3) by lia.
    destruct Hi as [->|[->|[->| ->]]], Hj as [->|[->|[->| ->]]]; reflexivity. }
  all: unfold get_node_relationship; cbn [Environment.nodes Environment_init Assignment.node_id];
    rewrite !grid_index by lia; cbn [mbind result_bind];
    destruct (grid_position_bounds rows cols i ltac:(lia) ltac:(lia) Ha) as (Hri & Hci & Hdi);
    destruct (grid_position_bounds rows cols j ltac:(lia) ltac:(lia) Hb) as (Hrj & Hcj & Hdj);
    unfold grid_relationship;
    set (r := i / (cols + 1)) in *; set (c := i `mod` (cols + 1)) in *;
    set (r' := j / (cols + 1)) in *; set (c' := j `mod` (cols + 1)) in *;
    cbn [Node.node_id Node.row Node.col node_at Node_init];
    rewrite <- Hdi, <- Hdj;
    (destruct (Z.eqb_spec i j) as [Hij|Hij]; [reflexivity|]);
    match goal with
    | |- context [shared_squares ?x ?y] =>
      change (shared_squares x y)
        with (shared_squares (node_at rows cols r c) (node_at rows cols r' c'))
    end;
    match goal with
    | |- context [shared_squares ?x ?y] =>
      pose proof (node_at_shared rows cols r c r' c' Hrows Hcols Hri Hci Hrj Hcj) as Hsh;
      destruct (shared_squares x y) as [|s l] eqn:Esh
    end.
  all: try (destruct ((Z.abs (r - r') <=? 1) && (Z.abs (c - c') <=? 1)) eqn:E;
            [|reflexivity];
            exfalso; apply andb_true_iff in E; destruct E as [E1 E2];
            apply Z.leb_le in E1, E2;
            destruct (proj2 Hsh (conj E1 E2)) as (s & []); fail).
  all: assert (Hch : Z.abs (r - r') <= 1 /\ Z.abs (c - c') <= 1)
         by (apply Hsh; exists s; left; reflexivity);
    destruct Hch as [H1 H2];
    destruct (Z.leb_spec (Z.abs (r - r')) 1); [|lia];
    destruct (Z.leb_spec (Z.abs (c - c')) 1); [|lia]; cbn [andb];
    rewrite generate_nodes_length by lia;
    match goal with
    | |- context [((?n =? 4) && ?b)%bool] =>
      destruct (Z.eqb_spec n 4) as [E4|E4]; [exfalso; nia|]
    end; cbn [andb]; destruct (_ =? 1); reflexivity.
Qed.

(** X9.  On a generated grid with at least one row and one column of squares,
    for two assignments at node ids of the grid, get_node_relationship returns
    same for equal ids, none when the nodes are more than one row or more than
    one column apart, adjacent when they are at Manhattan distance 1 and
    opposite when they are diagonal; in particular the special case of the
    four-node grid agrees with the general distance rule. *)
Theorem get_node_relationship_on_grid (rows cols : Z) (a b : Assignment.t)
    (Hrows : 1 <= rows) (Hcols : 1 <= cols)
    (Ha : 0 <= Assignment.node_id a < (rows + 1) * (cols + 1))
    (Hb : 0 <= Assignment.node_id b < (rows + 1) * (cols + 1)) :
  get_node_relationship (Environment_init rows cols) a b
  = Ok (grid_relationship cols (Assignment.node_id a) (Assignment.node_id b)).
Proof. exact (get_node_relationship_grid rows cols a b Hrows Hcols Ha Hb). Qed.

Lemma get_node_relationship_on_grid_witness :
  get_node_relationship (Environment_init 2 2) (lease 0 4 0 0 "5G" 0) (lease 1 8 0 0 "5G" 0)
  = Ok (grid_relationship 2 4 8).
Proof.
  apply (get_node_relationship_on_grid 2 2 (lease 0 4 0 0 "5G" 0) (lease 1 8 0 0 "5G" 0));
    cbn; lia.
Defined.

(** The frequency intervals of two assignments overlap. *)
Definition overlap (a b : Assignment.t) : bool :=
  negb ((Assignment.freq_end a <=? Assignment.freq_start b)
        || (Assignment.freq_start a >=? Assignment.freq_end b)).

Lemma conflicts_with_grid (rows cols : Z) (a b : Assignment.t) :
  1 <= rows -> 1 <= cols ->
  0 <= Assignment.node_id a < (rows + 1) * (cols + 1) ->
  0 <= Assignment.node_id b < (rows + 1) * (cols + 1) ->
  conflicts_with (Environment_init rows cols) a b
  = Ok (overlap a b
        && (Z.abs (Assignment.node_id a / (cols + 1) - Assignment.node_id b / (cols + 1)) <=? 1)
        && (Z.abs (Assignment.node_id a `mod` (cols + 1)
                   - Assignment.node_id b `mod` (cols + 1)) <=? 1)).
Proof.
  intros Hrows Hcols Ha Hb. unfold conflicts_with, overlap.
  destruct (_ || _); [reflexivity|]. cbn [negb andb].
  cbn [Environment.nodes Environment_init]. rewrite !grid_index by lia.
  cbn [mbind result_bind]. f_equal.
  destruct (grid_position_bounds rows cols _ ltac:(lia) ltac:(lia) Ha) as (Hri & Hci & _).
  destruct (grid_position_bounds rows cols _ ltac:(lia) ltac:(lia) Hb) as (Hrj & Hcj & _).
  pose proof (node_at_shared rows cols _ _ _ _ Hrows Hcols Hri Hci Hrj Hcj) as Hsh.
  destruct (shared_squares _ _) as [|s l].
  - cbn. symmetry. apply andb_false_iff.
    destruct (Z.leb_spec (Z.abs (Assignment.node_id a / (cols + 1)
                                 - Assignment.node_id b / (cols + 1))) 1) as [H1|H1];
      [|left; reflexivity].
    destruct (Z.leb_spec (Z.abs (Assignment.node_id a `mod` (cols + 1)
                                 - Assignment.node_id b `mod` (cols + 1))) 1) as [H2|H2];
      [|right; reflexivity].
    destruct (proj2 Hsh (conj H1 H2)) as (s & []).
  - assert (Hch : Z.abs (Assignment.node_id a / (cols + 1)
                         - Assignment.node_id b / (cols + 1)) <= 1
                  /\ Z.abs (Assignment.node_id a `mod` (cols + 1)
                            - Assignment.node_id b `mod` (cols + 1)) <= 1)
      by (apply Hsh; exists s; left; reflexivity).
    destruct Hch as [H1 H2]. apply Z.leb_le in H1, H2. rewrite H1, H2.
    cbn [length andb]. apply Z.ltb_lt. lia.
Qed.

(** X10.  On a generated grid with at least one row and one column of squares,
    two assignments at node ids of the grid conflict exactly when their
    frequency ranges overlap and their nodes are at most one row and at most
    one column apart. *)
Theorem conflicts_with_on_grid (rows cols : Z) (a b : Assignment.t)
    (Hrows : 1 <= rows) (Hcols : 1 <= cols)
    (Ha : 0 <= Assignment.node_id a < (rows + 1) * (cols + 1))
    (Hb : 0 <= Assignment.node_id b < (rows + 1) * (cols + 1)) :
  conflicts_with (Environment_init rows cols) a b
  = Ok (overlap a b
        && (Z.abs (Assignment.node_id a / (cols + 1) - Assignment.node_id b / (cols + 1)) <=? 1)
        && (Z.abs (Assignment.node_id a `mod` (cols + 1)
                   - Assignment.node_id b `mod` (cols + 1)) <=? 1)).
Proof. exact (conflicts_with_grid rows cols a b Hrows Hcols Ha Hb). Qed.

Lemma conflicts_with_on_grid_witness :
  conflicts_with (Environment_init 2 2)
    (lease 0 0 37000 37100 "5G" 0) (lease 1 4 37050 37150 "IoT" 0)
  = Ok (overlap (lease 0 0 37000 37100 "5G" 0) (lease 1 4 37050 37150 "IoT" 0)
        && (Z.abs (0 / (2 + 1) - 4 / (2 + 1)) <=? 1)
        && (Z.abs (0 `mod` (2 + 1) - 4 `mod` (2 + 1)) <=? 1)).
Proof.
  apply (conflicts_with_on_grid 2 2
           (lease 0 0 37000 37100 "5G" 0) (lease 1 4 37050 37150 "IoT" 0)); cbn; lia.
Defined.

(** * Frequency candidates *)

(** ** [random.shuffle] rearranges *)

Lemma insert_swap_Permutation {A : Type} (l : list A) (j : nat) (b x : A) :
  l !! j = Some b -> b :: <[j := x]> l ≡ₚ x :: l.
Proof.
  revert j. induction l as [|y l IH]; intros [|j] Hj; try discriminate; simpl in *.
  - injection Hj as ->. apply Permutation_swap.
  - rewrite Permutation_swap. rewrite (IH j Hj). apply Permutation_swap.
Qed.

Lemma swap_Permutation {A : Type} (l : list A) (i j : nat) : swap l i j ≡ₚ l.
Proof.
  unfold swap.
  destruct (l !! i) as [a|] eqn:Hi; [|reflexivity].
  destruct (l !! j) as [b|] eqn:Hj; [|reflexivity].
  revert i j Hi Hj. induction l as [|x l IH]; intros [|i] [|j] Hi Hj;
    try discriminate; simpl in *.
  - injection Hi as ->. injection Hj as ->. reflexivity.
  - injection Hi as ->. apply insert_swap_Permutation. exact Hj.
  - injection Hj as ->. apply insert_swap_Permutation. exact Hi.
  - rewrite (IH i j Hi Hj). reflexivity.
Qed.

Lemma shuffle_from_Permutation {A : Type} (i : nat) (l : list A) (g : rng) :
  (shuffle_from i l g).1 ≡ₚ l.
Proof.
  revert l g. induction i as [|i IH]; intros l g; simpl; [reflexivity|].
  destruct (randbelow (S (S i)) g) as [j g'].
  rewrite IH. apply swap_Permutation.
Qed.

Lemma shuffle_Permutation {A : Type} (l : list A) (g : rng) : (shuffle l g).1 ≡ₚ l.
Proof. apply shuffle_from_Permutation. Qed.

(** X11.  _generate_frequency_candidates returns a permutation of the
    candidates that its loops build: the shuffle loses, adds and duplicates
    nothing. *)
Theorem candidates_are_shuffled (arch_policy : ArchitecturePolicy.t)
    (request : SpectrumRequest.t) (g : rng) :
  (_generate_frequency_candidates arch_policy request g).1
  ≡ₚ frequency_candidates arch_policy request.
Proof. unfold _generate_frequency_candidates. apply shuffle_Permutation. Qed.

(** ** The shape of a candidate *)

Lemma blocks_between_In (block_size lo hi fs fe : Z) :
  0 < block_size ->
  In (fs, fe) (blocks_between block_size lo hi) ->
  lo <= fs /\ fe <= hi /\ fe - fs = block_size /\ (fs - lo) `mod` block_size = 0.
Proof.
  intros Hb Hin. unfold blocks_between in Hin. apply in_map_iff in Hin.
  destruct Hin as (k & [= <- <-] & Hk). apply range_In in Hk.
  assert (Hle : (k + 1) * block_size <= hi - lo).
  { etrans; [apply Z.mul_le_mono_nonneg_r with (m := (hi - lo) / block_size); lia|].
    rewrite Z.mul_comm. apply Z.mul_div_le. lia. }
  split_and!; try nia.
  replace (lo + k * block_size - lo) with (k * block_size) by lia.
  apply Z_mod_mult.
Qed.

Lemma channel_runs_In (channel_size num_channels channels lo hi fs fe : Z) :
  0 < channel_size ->
  In (fs, fe) (channel_runs channel_size num_channels channels lo hi) ->
  lo <= fs /\ fe <= hi /\ fe - fs = num_channels * channel_size
  /\ (fs - lo) `mod` channel_size = 0.
Proof.
  intros Hc Hin. unfold channel_runs in Hin. apply in_flat_map in Hin.
  destruct Hin as (ch & Hch & Hin). apply range_In in Hch.
  destruct (Z.leb_spec (lo + ch * channel_size + num_channels * channel_size) hi);
    [|contradiction].
  destruct Hin as [[= <- <-]|[]]. split_and!; try nia.
  replace (lo + ch * channel_size - lo) with (ch * channel_size) by lia.
  apply Z_mod_mult.
Qed.

Lemma range2_In (lo hi x : Z) : In x (range2 lo hi) <-> lo <= x < hi.
Proof.
  unfold range2. rewrite in_map_iff. split.
  - intros (k & <- & Hk). apply range_In in Hk. lia.
  - intros Hx. exists (x - lo). split; [lia|]. apply range_In. lia.
Qed.

Lemma slices_In (requested_bw lo hi fs fe : Z) :
  In (fs, fe) (slices requested_bw lo hi) ->
  lo <= fs /\ fe <= hi /\ fe - fs = requested_bw.
Proof.
  unfold slices. rewrite in_map_iff. intros (x & [= <- <-] & Hx).
  apply range2_In in Hx. lia.
Qed.

(** The width that the frequency plan gives to every candidate. *)
Definition plan_width (arch_policy : ArchitecturePolicy.t) (requested_bw : Z) : Z :=
  if str_eqb (freq_plan arch_policy) "Large Blocks" then 200
  else if str_eqb (freq_plan arch_policy) "Sub Channels"
       then 40 * ((requested_bw + 39) / 40)
       else requested_bw.

Lemma frequency_candidates_shape (arch_policy : ArchitecturePolicy.t)
    (request : SpectrumRequest.t) (fs fe : Z) :
  In (fs, fe) (frequency_candidates arch_policy request) ->
  FREQ_BASE_MHZ <= fs /\ fe <= FREQ_BASE_MHZ + TOTAL_BANDWIDTH_MHZ
  /\ fe - fs = plan_width arch_policy (SpectrumRequest.requested_bw request).
Proof.
  unfold frequency_candidates, plan_width. cbv zeta.
  assert (Hpart : forall lo hi,
            band_partitions arch_policy !! SpectrumRequest.device_type request = Some (lo, hi) ->
            FREQ_BASE_MHZ <= lo /\ hi <= FREQ_BASE_MHZ + TOTAL_BANDWIDTH_MHZ).
  { intros lo hi H. apply band_partitions_lookup in H.
    unfold FREQ_BASE_MHZ, TOTAL_BANDWIDTH_MHZ. intuition lia. }
  replace (SpectrumRequest.requested_bw request + 40 - 1)
    with (SpectrumRequest.requested_bw request + 39) by lia.
  destruct (str_eqb (freq_plan arch_policy) "Large Blocks");
    [|destruct (str_eqb (freq_plan arch_policy) "Sub Channels")];
    (destruct (str_eqb (priority_mode arch_policy) "Exclusive");
     [destruct (band_partitions arch_policy !! SpectrumRequest.device_type request)
        as [[lo hi]|] eqn:Hp; [specialize (Hpart lo hi eq_refl)|intros []]|]);
    intros Hin;
    first [apply blocks_between_In in Hin; [|lia]
          |apply channel_runs_In in Hin; [|lia]
          |apply slices_In in Hin]; lia.
Qed.

(** X12.  Every candidate of _generate_frequency_candidates lies inside the
    band from FREQ_BASE_MHZ to FREQ_BASE_MHZ + TOTAL_BANDWIDTH_MHZ and has the
    width of the plan: 200 MHz under Large Blocks, the requested bandwidth
    rounded up to a multiple of 40 MHz under Sub Channels, and the requested
    bandwidth itself under any other plan. *)
Theorem candidates_fit_the_plan (arch_policy : ArchitecturePolicy.t)
    (request : SpectrumRequest.t) (g : rng) :
  Forall (fun c : Z * Z =>
            FREQ_BASE_MHZ <= c.1 /\ c.2 <= FREQ_BASE_MHZ + TOTAL_BANDWIDTH_MHZ
            /\ c.2 - c.1 = plan_width arch_policy (SpectrumRequest.requested_bw request))
         (_generate_frequency_candidates arch_policy request g).1.
Proof.
  apply List.Forall_forall. intros [fs fe] Hin. cbn [fst snd].
  apply (frequency_candidates_shape arch_policy request).
  apply list_elem_of_In. rewrite <- (shuffle_Permutation _ g). apply list_elem_of_In.
  exact Hin.
Qed.

(** * Invariants of the leases in the store *)

Section Leases.
Variable environment : Environment.t.
Variable arch_policy : ArchitecturePolicy.t.
Variable set_order : list Z -> list Z.

(** A property of leases that every grant establishes and that depends
    neither on the quality nor on the next check holds of every active
    assignment of a run. *)
Lemma reachable_active (P : Assignment.t -> Prop) :
  (forall a b, same_lease a b -> P a -> P b) ->
  (forall request current_tick fs fe assignment_id a,
     In (fs, fe) (frequency_candidates arch_policy request) ->
     granted_lease arch_policy request current_tick fs fe assignment_id a -> P a) ->
  forall m, reachable environment arch_policy set_order m ->
            Forall (fun l => P (objects m l)) (active m).
Proof.
  intros Hsame Hgrant.
  induction 1 as [|m m' requests requests' t g g' Hm IH Hp|m m' t Hm IH Hr].
  - constructor.
  - assert (H : store_wf m' /\ Forall (fun l => P (objects m' l)) (active m'));
      [|apply H].
    apply (process_arrivals_preserves environment arch_policy set_order
             (fun m => store_wf m /\ Forall (fun l => P (objects m l)) (active m)) t)
      in Hp; [exact Hp | | split; [eapply reachable_wf; exact Hm | exact IH]].
    clear Hm IH Hp. intros request request' m0 m0' g0 g0' H [Hwf HP].
    split; [eapply process_request_wf; eauto|].
    apply process_request_effect in H.
    destruct H as (outcome & m1 & tr & Heff & Hout).
    assert (Hkeep : forall kept, kept `sublist_of` active m0 ->
              Forall (fun l => P (objects m1 l)) kept).
    { intros kept Hsub. rewrite Forall_forall in *. intros l Hl.
      assert (Hin : l ∈ active m0) by (eapply elem_of_sublist; eauto).
      destruct Hwf as [_ Hall]. rewrite Forall_forall in Hall.
      destruct (Hall l Hin) as [Hlt _].
      destruct Heff as (_ & Hobj & _).
      eapply Hsame; [apply frozen_same_lease, Hobj, Hlt | auto]. }
    destruct outcome as [[fs fe]|]; destruct Hout as [-> _].
    + destruct Heff as (_ & _ & Hin & _ & gl & kept & Hact & Hsub & _ & Hlease & _).
      rewrite Hact. apply Forall_app. split; [auto|].
      apply Forall_singleton. eapply Hgrant; [|exact Hlease].
      apply list_elem_of_In. rewrite <- (shuffle_Permutation _ g0).
      apply list_elem_of_In. exact Hin.
    + destruct Heff as (_ & _ & Hsub & _). cbn. auto.
  - apply renew_assignments_effect in Hr; [|eapply reachable_wf; exact Hm].
    destruct Hr as (_ & Hsub & _ & _ & _ & _ & Hobj & _).
    rewrite Forall_forall in *.
    intros l Hl. eapply Hsame; [apply Hobj|].
    apply IH. eapply elem_of_sublist; eauto.
Qed.

(** The assignment lies in the band, on the raster of the frequency plan. *)
Definition on_raster (a : Assignment.t) : Prop :=
  FREQ_BASE_MHZ <= Assignment.freq_start a
  /\ Assignment.freq_end a <= FREQ_BASE_MHZ + TOTAL_BANDWIDTH_MHZ
  /\ (freq_plan arch_policy = "Large Blocks" ->
      Assignment.freq_end a = Assignment.freq_start a + 200
      /\ (Assignment.freq_start a = FREQ_BASE_MHZ
          \/ Assignment.freq_start a = FREQ_BASE_MHZ + 200
          \/ Assignment.freq_start a = FREQ_BASE_MHZ + 400))
  /\ (freq_plan arch_policy = "Sub Channels" ->
      (Assignment.freq_start a - FREQ_BASE_MHZ) `mod` 40 = 0
      /\ (Assignment.freq_end a - FREQ_BASE_MHZ) `mod` 40 = 0).

Lemma frequency_candidates_raster (request : SpectrumRequest.t) (fs fe : Z) :
  In (fs, fe) (frequency_candidates arch_policy request) ->
  (freq_plan arch_policy = "Large Blocks" ->
   fe = fs + 200
   /\ (fs = FREQ_BASE_MHZ \/ fs = FREQ_BASE_MHZ + 200 \/ fs = FREQ_BASE_MHZ + 400))
  /\ (freq_plan arch_policy = "Sub Channels" ->
      (fs - FREQ_BASE_MHZ) `mod` 40 = 0 /\ (fe - FREQ_BASE_MHZ) `mod` 40 = 0).
Proof.
  unfold frequency_candidates. cbv zeta. intros Hin.
  assert (Hpart : forall lo hi,
            band_partitions arch_policy !! SpectrumRequest.device_type request = Some (lo, hi) ->
            (lo = 37000 \/ lo = 37200 \/ lo = 37400) /\ hi = lo + 200).
  { intros lo hi H. apply band_partitions_lookup in H. intuition lia. }
  unfold FREQ_BASE_MHZ, TOTAL_BANDWIDTH_MHZ in *.
  split.
  - intros Hplan. rewrite Hplan in Hin.
    change (str_eqb "Large Blocks" "Large Blocks") with true in Hin. cbv iota in Hin.
    destruct (str_eqb (priority_mode arch_policy) "Exclusive").
    + destruct (band_partitions arch_policy !! SpectrumRequest.device_type request)
        as [[lo hi]|] eqn:Hp; [|destruct Hin].
      destruct (Hpart lo hi eq_refl) as [Hlo ->].
      apply blocks_between_In in Hin; [|lia].
      destruct Hin as (H1 & H2 & H3 & H4).
      assert (fs = lo) by (Z.to_euclidean_division_equations; lia). lia.
    + apply blocks_between_In in Hin; [|lia].
      destruct Hin as (H1 & H2 & H3 & H4).
      Z.to_euclidean_division_equations; lia.
  - intros Hplan. rewrite Hplan in Hin.
    change (str_eqb "Sub Channels" "Large Blocks") with false in Hin.
    change (str_eqb "Sub Channels" "Sub Channels") with true in Hin. cbv iota in Hin.
    destruct (str_eqb (priority_mode arch_policy) "Exclusive").
    + destruct (band_partitions arch_policy !! SpectrumRequest.device_type request)
        as [[lo hi]|] eqn:Hp; [|destruct Hin].
      destruct (Hpart lo hi eq_refl) as [Hlo ->].
      apply channel_runs_In in Hin; [|lia].
      destruct Hin as (H1 & H2 & H3 & H4).
      Z.to_euclidean_division_equations; lia.
    + apply channel_runs_In in Hin; [|lia].
      destruct Hin as (H1 & H2 & H3 & H4).
      Z.to_euclidean_division_equations; lia.
Qed.

Lemma reachable_on_raster (m : SpectrumManager.t) :
  reachable environment arch_policy set_order m ->
  Forall (fun l => on_raster (objects m l)) (active m).
Proof.
  apply reachable_active.
  - intros a b Hab (H1 & H2 & H3 & H4). apply same_lease_fields in Hab.
    destruct Hab as (_ & _ & Hs & He & _). unfold on_raster. rewrite Hs, He. auto.
  - intros request t fs fe id a Hin (_ & _ & Hs & He & _).
    unfold on_raster. rewrite Hs, He.
    pose proof (frequency_candidates_shape arch_policy request fs fe Hin) as (H1 & H2 & _).
    pose proof (frequency_candidates_raster request fs fe Hin) as (H3 & H4). auto.
Qed.

(** X13.  In every state reached from a fresh manager by process_arrivals and
    renew_assignments, every active assignment lies inside the band; under
    Large Blocks it is one of the three 200 MHz blocks and under Sub Channels
    both of its ends are on the 40 MHz raster. *)
Theorem active_assignments_on_raster (m : SpectrumManager.t)
    (Hm : reachable environment arch_policy set_order m) :
  Forall (fun l => on_raster (objects m l)) (active m).
Proof. exact (reachable_on_raster m Hm). Qed.

Lemma process_request_granted_width request request' current_tick m m' g g' :
  process_request environment arch_policy set_order request current_tick m g
  = Ok (m', request', g') ->
  SpectrumRequest.is_assigned request' = true ->
  exists fs fe : Z,
    SpectrumRequest.assigned_freq request' = Some (fs, fe)
    /\ FREQ_BASE_MHZ <= fs /\ fe <= FREQ_BASE_MHZ + TOTAL_BANDWIDTH_MHZ
    /\ fe - fs = plan_width arch_policy (SpectrumRequest.requested_bw request').
Proof.
  intros H Hass. apply process_request_effect in H.
  destruct H as (outcome & m1 & tr & Heff & Hout).
  destruct outcome as [[fs fe]|]; destruct Hout as [_ ->]; cbn in *; [|discriminate].
  destruct Heff as (_ & _ & Hin & _).
  exists fs, fe. split; [reflexivity|].
  apply (frequency_candidates_shape arch_policy request).
  apply list_elem_of_In. rewrite <- (shuffle_Permutation _ g).
  apply list_elem_of_In. exact Hin.
Qed.

(** X14.  When process_arrivals returns, every request that it leaves marked
    as assigned carries an assigned_freq range inside the band whose width is
    the width of the plan for the requested bandwidth (200 MHz, the bandwidth
    rounded up to a multiple of 40 MHz, or the bandwidth itself). *)
Theorem granted_width_follows_plan (requests requests' : list SpectrumRequest.t)
    (current_tick : Z) (m m' : SpectrumManager.t) (g g' : rng)
    (Hrun : process_arrivals environment arch_policy set_order requests current_tick m g
            = Ok (m', requests', g')) :
  Forall (fun request' =>
            SpectrumRequest.is_assigned request' = true ->
            exists fs fe : Z,
              SpectrumRequest.assigned_freq request' = Some (fs, fe)
              /\ FREQ_BASE_MHZ <= fs /\ fe <= FREQ_BASE_MHZ + TOTAL_BANDWIDTH_MHZ
              /\ fe - fs = plan_width arch_policy (SpectrumRequest.requested_bw request'))
         requests'.
Proof.
  revert Hrun. apply (process_arrivals_requests environment arch_policy set_order _ current_tick).
  intros request request' m0 m0' g0 g0' H0.
  eapply process_request_granted_width; eauto.
Qed.

End Leases.

Lemma active_assignments_on_raster_witness :
  Forall (fun l => on_raster exclusive_policy (objects exclusive_granted l))
         (active exclusive_granted).
Proof.
  apply (active_assignments_on_raster grid1 exclusive_policy insertion_order).
  apply reachable_manager_after, reachable_init.
Defined.

Lemma granted_width_follows_plan_witness :
  exists m' requests' g',
    process_arrivals grid1 exclusive_policy insertion_order
      [SpectrumRequest.init 0 0 0 20 "5G"] 0 new_manager [] = Ok (m', requests', g')
    /\ SpectrumRequest.assigned_freq <$> requests' = [Some (37000, 37200)]
    /\ Forall (fun request' =>
                 SpectrumRequest.is_assigned request' = true ->
                 exists fs fe : Z,
                   SpectrumRequest.assigned_freq request' = Some (fs, fe)
                   /\ FREQ_BASE_MHZ <= fs /\ fe <= FREQ_BASE_MHZ + TOTAL_BANDWIDTH_MHZ
                   /\ fe - fs
                      = plan_width exclusive_policy (SpectrumRequest.requested_bw request'))
              requests'.
Proof.
  destruct (process_arrivals grid1 exclusive_policy insertion_order
              [SpectrumRequest.init 0 0 0 20 "5G"] 0 new_manager [])
    as [[[m' requests'] g']|e] eqn:E.
  - exists m', requests', g'. split; [reflexivity|]. split.
    + vm_compute in E. injection E as _ <- _. reflexivity.
    + exact (granted_width_follows_plan grid1 exclusive_policy insertion_order _ _ _ _ _ _ _ E).
  - vm_compute in E. discriminate E.
Defined.

(** * Requests without candidates *)

Section NoCandidates.
Variable environment : Environment.t.
Variable arch_policy : ArchitecturePolicy.t.
Variable set_order : list Z -> list Z.

Lemma range_nonpos (n : Z) : n <= 0 -> range n = [].
Proof. intros Hn. unfold range. replace (Z.to_nat n) with 0%nat by lia. reflexivity. Qed.

Lemma frequency_candidates_too_wide (request : SpectrumRequest.t) :
  freq_plan arch_policy <> "Large Blocks" ->
  TOTAL_BANDWIDTH_MHZ < SpectrumRequest.requested_bw request ->
  frequency_candidates arch_policy request = [].
Proof.
  intros Hplan Hbw. unfold frequency_candidates. cbv zeta.
  apply str_eqb_false in Hplan. rewrite Hplan.
  assert (Hpart : forall lo hi,
            band_partitions arch_policy !! SpectrumRequest.device_type request = Some (lo, hi) ->
            hi = lo + 200).
  { intros lo hi H. apply band_partitions_lookup in H. intuition lia. }
  unfold TOTAL_BANDWIDTH_MHZ, FREQ_BASE_MHZ in *.
  assert (Hn : 16 <= (SpectrumRequest.requested_bw request + 40 - 1) / 40)
    by (apply Z.div_le_lower_bound; lia).
  destruct (str_eqb (freq_plan arch_policy) "Sub Channels");
    (destruct (str_eqb (priority_mode arch_policy) "Exclusive");
     [destruct (band_partitions arch_policy !! SpectrumRequest.device_type request)
        as [[lo hi]|] eqn:Hp; [rewrite (Hpart lo hi eq_refl)|reflexivity]|]).
  - unfold channel_runs. replace (lo + 200 - lo) with 200 by lia.
    change (200 / 40) with 5. rewrite range_nonpos by lia. reflexivity.
  - unfold channel_runs. change (600 / 40) with 15. rewrite range_nonpos by lia. reflexivity.
  - unfold slices, range2. rewrite range_nonpos by lia. reflexivity.
  - unfold slices, range2. rewrite range_nonpos by lia. reflexivity.
Qed.

(** A request without candidates is denied before any node is looked up. *)
Lemma no_candidates_denied (request : SpectrumRequest.t) (current_tick : Z)
    (m : SpectrumManager.t) (g : rng) :
  frequency_candidates arch_policy request = [] ->
  process_arrivals environment arch_policy set_order [request] current_tick m g
  = Ok (with_metrics
          (MetricsCollector.incr_requests_denied
             (MetricsCollector.incr_requests_total (metrics m))) m,
        [SpectrumRequest.denied
           ((SpectrumRequest.trace request ++ [Arrived]) ++ [Denied current_tick]) request],
        if str_eqb (coordination_mode arch_policy) "Hybrid" then (random_lt_half g).2 else g).
Proof.
  intros Hnone. cbn [process_arrivals]. unfold process_request, _generate_frequency_candidates.
  rewrite Hnone, shuffle_nil.
  destruct (str_eqb (coordination_mode arch_policy) "Hybrid");
    [destruct (random_lt_half g) as [b g2]|]; reflexivity.
Qed.

(** X15.  Under a plan other than Large Blocks, a request for more than
    TOTAL_BANDWIDTH_MHZ has no candidate: process_arrivals does not raise,
    whatever the node id of the request; it counts the request in
    requests_total and requests_denied, appends the denial to its trace and
    leaves the store unchanged. *)
Theorem too_wide_request_is_denied (request : SpectrumRequest.t) (current_tick : Z)
    (m : SpectrumManager.t) (g : rng)
    (Hplan : freq_plan arch_policy <> "Large Blocks")
    (Hbw : TOTAL_BANDWIDTH_MHZ < SpectrumRequest.requested_bw request) :
  process_arrivals environment arch_policy set_order [request] current_tick m g
  = Ok (with_metrics
          (MetricsCollector.incr_requests_denied
             (MetricsCollector.incr_requests_total (metrics m))) m,
        [SpectrumRequest.denied
           ((SpectrumRequest.trace request ++ [Arrived]) ++ [Denied current_tick]) request],
        if str_eqb (coordination_mode arch_policy) "Hybrid" then (random_lt_half g).2 else g).
Proof. apply no_candidates_denied, frequency_candidates_too_wide; assumption. Qed.

(** X16.  Under Exclusive priority, a request whose device type is none of 5G,
    IoT and Federal has no band partition and so no candidate:
    process_arrivals does not raise; it counts the request in requests_total
    and requests_denied, appends the denial to its trace and leaves the store
    unchanged. *)
Theorem unknown_device_class_is_denied (request : SpectrumRequest.t) (current_tick : Z)
    (m : SpectrumManager.t) (g : rng)
    (Hex : priority_mode arch_policy = "Exclusive")
    (Hclass : SpectrumRequest.device_type request <> "5G"
              /\ SpectrumRequest.device_type request <> "IoT"
              /\ SpectrumRequest.device_type request <> "Federal") :
  process_arrivals environment arch_policy set_order [request] current_tick m g
  = Ok (with_metrics
          (MetricsCollector.incr_requests_denied
             (MetricsCollector.incr_requests_total (metrics m))) m,
        [SpectrumRequest.denied
           ((SpectrumRequest.trace request ++ [Arrived]) ++ [Denied current_tick]) request],
        if str_eqb (coordination_mode arch_policy) "Hybrid" then (random_lt_half g).2 else g).
Proof.
  apply no_candidates_denied, no_partition_no_candidates; [exact Hex|].
  destruct (band_partitions arch_policy !! SpectrumRequest.device_type request)
    as [[lo hi]|] eqn:Hp; [|reflexivity].
  apply band_partitions_lookup in Hp. intuition congruence.
Qed.

End NoCandidates.

Lemma too_wide_request_is_denied_witness :
  process_arrivals grid1 blind_spot_policy insertion_order
    [SpectrumRequest.init 7 0 99 601 "5G"] 0 new_manager [3%nat]
  = Ok (with_metrics
          (MetricsCollector.incr_requests_denied
             (MetricsCollector.incr_requests_total (metrics new_manager))) new_manager,
        [SpectrumRequest.denied
           ((SpectrumRequest.trace (SpectrumRequest.init 7 0 99 601 "5G") ++ [Arrived])
            ++ [Denied 0]) (SpectrumRequest.init 7 0 99 601 "5G")],
        if str_eqb (coordination_mode blind_spot_policy) "Hybrid"
        then (random_lt_half [3%nat]).2 else [3%nat]).
Proof.
  apply (too_wide_request_is_denied grid1 blind_spot_policy insertion_order
           (SpectrumRequest.init 7 0 99 601 "5G") 0 new_manager [3%nat]).
  - discriminate.
  - reflexivity.
Defined.

Lemma unknown_device_class_is_denied_witness :
  process_arrivals grid1 exclusive_policy insertion_order
    [SpectrumRequest.init 7 0 0 20 "Radar"] 0 new_manager []
  = Ok (with_metrics
          (MetricsCollector.incr_requests_denied
             (MetricsCollector.incr_requests_total (metrics new_manager))) new_manager,
        [SpectrumRequest.denied
           ((SpectrumRequest.trace (SpectrumRequest.init 7 0 0 20 "Radar") ++ [Arrived])
            ++ [Denied 0]) (SpectrumRequest.init 7 0 0 20 "Radar")],
        if str_eqb (coordination_mode exclusive_policy) "Hybrid"
        then (random_lt_half []).2 else []).
Proof.
  apply (unknown_device_class_is_denied grid1 exclusive_policy insertion_order
           (SpectrumRequest.init 7 0 0 20 "Radar") 0 new_manager []).
  - reflexivity.
  - cbn. repeat split; discriminate.
Defined.

(** * The counters of the metrics collector *)

Section Counters.
Variable environment : Environment.t.
Variable arch_policy : ArchitecturePolicy.t.
Variable set_order : list Z -> list Z.

(** The metrics after one request's candidates were tried: untouched
    unless a candidate was granted. *)
Lemma try_candidates_metrics (request : SpectrumRequest.t) (current_tick : Z)
    (use_centralized : bool) (candidates : list (Z * Z))
    (m m' : SpectrumManager.t) (tr tr' : list trace_event) (outcome : option (Z * Z)) :
  try_candidates environment arch_policy set_order request current_tick use_centralized
    candidates m tr = Ok (m', tr', outcome) ->
  match outcome with
  | None => metrics m' = metrics m
  | Some _ =>
    exists q, metrics m'
              = MetricsCollector.add_quality_measurement q
                  (MetricsCollector.add_coord_queries (initial_query_cost arch_policy)
                     (MetricsCollector.incr_requests_total (metrics m)))
  end.
Proof.
  revert m tr. induction candidates as [|[fs fe] rest IH]; intros m tr; simpl.
  { intros [= <- <- <-]. reflexivity. }
  match goal with |- context [if ?b then _ else _] => destruct b end; [apply IH|].
  destruct (py_index _ _) as [node|e]; [|discriminate].
  destruct (possible_conflicts_of _ _ _ _ _) as [possible|e]; [|discriminate].
  destruct (check_conflicts _ _ _ _ _ _ _ _) as [[[m2 tr2] [|]]|e] eqn:Hcc; [| |discriminate];
    apply check_conflicts_shrinks in Hcc; destruct Hcc as [_ _ Hmet _ _ _]; cbn in Hmet.
  - intros H. apply IH in H. rewrite Hmet in H. exact H.
  - destruct (query_interval arch_policy) as [qi|]; cbn;
      (destruct (_add_assignment _ _ _) as [m4|e] eqn:Hadd; [|discriminate]);
      intros [= <- <- <-]; apply add_assignment_effect in Hadd;
      destruct Hadd as (_ & _ & _ & _ & _ & Hm4); cbn in Hm4 |- *;
      rewrite Hm4, ?Hmet; eexists; reflexivity.
Qed.

(** The accumulators that only a grant writes. *)
Definition quality_fields (s : MetricsCollector.t) : float * Z * float * Z :=
  (MetricsCollector.quality_sum s, MetricsCollector.quality_count s,
   MetricsCollector.avg_quality_sum s, MetricsCollector.avg_quality_count s).

Lemma renew_loop_quality (current_tick : Z) (snapshot : list loc)
    (m m' : SpectrumManager.t) (R R' : list loc) :
  renew_loop environment arch_policy current_tick snapshot m R = Ok (m', R') ->
  quality_fields (metrics m') = quality_fields (metrics m).
Proof.
  revert m R. induction snapshot as [|a rest IH]; intros m R; simpl.
  { intros [= <- <-]. reflexivity. }
  destruct (negb _); [apply IH|].
  destruct (py_index _ _) as [node|e]; [|discriminate].
  destruct (renew_check _ _ _ _ _ _) as [[h' [|]]|e]; [| |discriminate];
    intros H; apply IH in H; rewrite H; cbn; [reflexivity|].
  destruct (str_eqb _ _); reflexivity.
Qed.

Lemma remove_all_metrics (R : list loc) (m m' : SpectrumManager.t) :
  remove_all environment R m = Ok m' -> metrics m' = metrics m.
Proof.
  revert m. induction R as [|a R IH]; intros m; simpl; [intros [= <-]; reflexivity|].
  destruct (_remove_assignment environment m a) as [m1|e] eqn:Hr; cbn; [|discriminate].
  intros H. apply IH in H. rewrite H.
  apply remove_assignment_shrinks in Hr. apply Hr.
Qed.

Lemma coord_fold_quality (cost : float) (l : list loc) (s : MetricsCollector.t) :
  quality_fields (fold_left (fun s _ => MetricsCollector.add_coord_queries cost s) l s)
  = quality_fields s.
Proof.
  revert s. induction l as [|x l IH]; intros s; simpl; [reflexivity|].
  rewrite IH. reflexivity.
Qed.

Lemma renew_assignments_quality (current_tick : Z) (m m' : SpectrumManager.t) :
  renew_assignments environment arch_policy current_tick m = Ok m' ->
  quality_fields (metrics m') = quality_fields (metrics m).
Proof.
  unfold renew_assignments.
  destruct (renew_loop _ _ _ _ _ _) as [[ml R']|e] eqn:Hloop; cbn; [|discriminate].
  intros Hrm. apply remove_all_metrics in Hrm. rewrite Hrm.
  apply renew_loop_quality in Hloop. rewrite Hloop. cbn.
  destruct (str_eqb _ _); [apply coord_fold_quality | reflexivity].
Qed.

(** The grants account for the identifiers and for the quality
    accumulators. *)
Definition grants_accounted (m : SpectrumManager.t) : Prop :=
  next_assignment_id m = MetricsCollector.quality_count (metrics m)
  /\ MetricsCollector.avg_quality_count (metrics m)
     = MetricsCollector.quality_count (metrics m)
  /\ MetricsCollector.avg_quality_sum (metrics m) = MetricsCollector.quality_sum (metrics m)
  /\ 0 <= MetricsCollector.quality_count (metrics m)
       <= MetricsCollector.requests_total (metrics m)
  /\ MetricsCollector.requests_total (metrics m) - MetricsCollector.quality_count (metrics m)
     <= MetricsCollector.requests_denied (metrics m).

Lemma process_request_accounted request request' current_tick m m' g g' :
  process_request environment arch_policy set_order request current_tick m g
  = Ok (m', request', g') ->
  grants_accounted m -> grants_accounted m'.
Proof.
  unfold process_request.
  destruct (_generate_frequency_candidates arch_policy request g) as [candidates g1].
  match goal with
  | |- context [let '(_, _) := ?b in _] => destruct b as [use_centralized g2]
  end.
  destruct (try_candidates _ _ _ _ _ _ _ _ _) as [[[m1 tr1] outcome]|e] eqn:Ht;
    cbn; [|discriminate].
  pose proof (try_candidates_metrics _ _ _ _ _ _ _ _ _ Ht) as Hmet.
  apply try_candidates_effect in Ht. destruct Ht as (_ & _ & Heff).
  unfold grants_accounted.
  destruct outcome as [[fs fe]|]; intros [= <- <- <-] (H1 & H2 & H3 & H4 & H5).
  - destruct Hmet as [q Hq].
    destruct Heff as (_ & _ & gl & kept & _ & _ & _ & _ & _ & Hid & _).
    rewrite Hid, Hq. cbn. rewrite H1, H2, H3. split_and!; try reflexivity; lia.
  - destruct Heff as (_ & _ & Hid & _). cbn. rewrite Hid, Hmet.
    split_and!; auto; lia.
Qed.

Lemma reachable_accounted (m : SpectrumManager.t) :
  reachable environment arch_policy set_order m -> grants_accounted m.
Proof.
  induction 1 as [|m m' requests requests' t g g' Hm IH Hp|m m' t Hm IH Hr].
  - unfold grants_accounted. cbn. split_and!; try reflexivity; lia.
  - revert Hp IH. apply (process_arrivals_preserves environment arch_policy set_order
                           grants_accounted t).
    intros request request' m0 m0' g0 g0' H0. eapply process_request_accounted; eauto.
  - pose proof (renew_assignments_quality _ _ _ Hr) as Hq.
    apply renew_assignments_effect in Hr; [|eapply reachable_wf; eauto].
    destruct Hr as (_ & Hsub & _ & Hid & Ht & Hd & _).
    apply sublist_length in Hsub.
    unfold quality_fields in Hq. injection Hq as Hq1 Hq2 Hq3 Hq4.
    destruct IH as (H1 & H2 & H3 & H4 & H5). unfold grants_accounted.
    rewrite Hid, Ht, Hq1, Hq2, Hq3, Hq4. split_and!; auto; lia.
Qed.

(** X17.  In every state reached from a fresh manager and fresh metrics,
    next_assignment_id equals metrics.quality_count (one quality measurement
    per assignment id handed out), avg_quality_count and avg_quality_sum equal
    quality_count and quality_sum, quality_count is between 0 and
    requests_total, and requests_total - quality_count is at most
    requests_denied. *)
Theorem grants_are_accounted (m : SpectrumManager.t)
    (Hm : reachable environment arch_policy set_order m) :
  next_assignment_id m = MetricsCollector.quality_count (metrics m)
  /\ MetricsCollector.avg_quality_count (metrics m)
     = MetricsCollector.quality_count (metrics m)
  /\ MetricsCollector.avg_quality_sum (metrics m) = MetricsCollector.quality_sum (metrics m)
  /\ 0 <= MetricsCollector.quality_count (metrics m)
       <= MetricsCollector.requests_total (metrics m)
  /\ MetricsCollector.requests_total (metrics m) - MetricsCollector.quality_count (metrics m)
     <= MetricsCollector.requests_denied (metrics m).
Proof. exact (reachable_accounted m Hm). Qed.

(** ** Permanent assignments *)

Lemma renew_loop_none_due (current_tick : Z) (snapshot : list loc)
    (m : SpectrumManager.t) (R : list loc) :
  (forall l, In l snapshot -> is_due current_tick (objects m l) = false) ->
  renew_loop environment arch_policy current_tick snapshot m R = Ok (m, R).
Proof.
  induction snapshot as [|a rest IH]; intros Hnone; simpl; [reflexivity|].
  rewrite (Hnone a) by (left; reflexivity). cbn [negb].
  apply IH. intros l Hl. apply Hnone. right. exact Hl.
Qed.

Lemma with_metrics_same (m : SpectrumManager.t) : with_metrics (metrics m) m = m.
Proof. destruct m. reflexivity. Qed.

Lemma renew_none_due (current_tick : Z) (m : SpectrumManager.t) :
  licensing_mode arch_policy <> "Dynamic" ->
  (forall l, In l (active m) -> is_due current_tick (objects m l) = false) ->
  renew_assignments environment arch_policy current_tick m = Ok m.
Proof.
  intros Hlic Hnone. unfold renew_assignments.
  apply str_eqb_false in Hlic. rewrite Hlic. rewrite with_metrics_same.
  rewrite renew_loop_none_due by exact Hnone. reflexivity.
Qed.

Lemma manual_never_due (m : SpectrumManager.t) :
  licensing_mode arch_policy = "Manual" ->
  reachable environment arch_policy set_order m ->
  Forall (fun l => Assignment.next_check_tick (objects m l) = None) (active m).
Proof.
  intros Hman.
  assert (Hq : query_interval arch_policy = Inf)
    by (unfold query_interval; rewrite Hman; reflexivity).
  induction 1 as [|m m' requests requests' t g g' Hm IH Hp|m m' t Hm IH Hr].
  - constructor.
  - apply (process_arrivals_preserves environment arch_policy set_order
             (fun m => store_wf m
                       /\ Forall (fun l => Assignment.next_check_tick (objects m l) = None)
                                 (active m)) t)
      in Hp; [apply Hp | | split; [eapply reachable_wf; exact Hm | exact IH]].
    clear Hm IH Hp. intros request request' m0 m0' g0 g0' H [Hwf HP].
    split; [eapply process_request_wf; eauto|].
    apply process_request_effect in H.
    destruct H as (outcome & m1 & tr & Heff & Hout).
    assert (Hkeep : forall kept, kept `sublist_of` active m0 ->
              Forall (fun l => Assignment.next_check_tick (objects m1 l) = None) kept).
    { intros kept Hsub. rewrite Forall_forall in *. intros l Hl.
      assert (Hin : l ∈ active m0) by (eapply elem_of_sublist; eauto).
      destruct Hwf as [_ Hall]. rewrite Forall_forall in Hall.
      destruct (Hall l Hin) as [Hlt _].
      destruct Heff as (_ & Hobj & _).
      rewrite (frozen_next_check_tick _ _ (Hobj l Hlt)). auto. }
    destruct outcome as [[fs fe]|]; destruct Hout as [-> _].
    + destruct Heff as (_ & _ & Hin & _ & gl & kept & Hact & Hsub & _ & Hlease & _).
      rewrite Hact. apply Forall_app. split; [auto|].
      apply Forall_singleton. destruct Hlease as (_ & _ & _ & _ & _ & _ & Hn).
      rewrite Hq in Hn. exact Hn.
    + destruct Heff as (_ & _ & Hsub & _). cbn. auto.
  - rewrite renew_none_due in Hr.
    + injection Hr as <-. exact IH.
    + rewrite Hman. discriminate.
    + intros l Hl. unfold is_due. rewrite Forall_forall in IH.
      rewrite (IH l) by (apply list_elem_of_In; exact Hl). reflexivity.
Qed.

(** X18.  Under Manual licensing every active assignment of a reachable state
    has next_check_tick None, and renew_assignments at any tick returns and
    leaves the manager, store and metrics, unchanged. *)
Theorem manual_assignments_are_permanent (current_tick : Z) (m : SpectrumManager.t)
    (Hman : licensing_mode arch_policy = "Manual")
    (Hm : reachable environment arch_policy set_order m) :
  Forall (fun l => Assignment.next_check_tick (objects m l) = None) (active m)
  /\ renew_assignments environment arch_policy current_tick m = Ok m.
Proof.
  pose proof (manual_never_due m Hman Hm) as Hnone. split; [exact Hnone|].
  apply renew_none_due.
  - rewrite Hman. discriminate.
  - intros l Hl. unfold is_due. rewrite Forall_forall in Hnone.
    rewrite (Hnone l) by (apply list_elem_of_In; exact Hl). reflexivity.
Qed.

End Counters.

Lemma grants_are_accounted_witness :
  next_assignment_id blind_spot_renewed
  = MetricsCollector.quality_count (metrics blind_spot_renewed)
  /\ MetricsCollector.avg_quality_count (metrics blind_spot_renewed)
     = MetricsCollector.quality_count (metrics blind_spot_renewed)
  /\ MetricsCollector.avg_quality_sum (metrics blind_spot_renewed)
     = MetricsCollector.quality_sum (metrics blind_spot_renewed)
  /\ 0 <= MetricsCollector.quality_count (metrics blind_spot_renewed)
       <= MetricsCollector.requests_total (metrics blind_spot_renewed)
  /\ MetricsCollector.requests_total (metrics blind_spot_renewed)
     - MetricsCollector.quality_count (metrics blind_spot_renewed)
     <= MetricsCollector.requests_denied (metrics blind_spot_renewed).
Proof.
  apply (grants_are_accounted grid1 blind_spot_policy insertion_order).
  apply reachable_manager_renewed, reachable_manager_after, reachable_init.
Defined.

Lemma manual_assignments_are_permanent_witness :
  Forall (fun l => Assignment.next_check_tick (objects exclusive_granted l) = None)
         (active exclusive_granted)
  /\ renew_assignments grid1 exclusive_policy 1440 exclusive_granted = Ok exclusive_granted.
Proof.
  apply (manual_assignments_are_permanent grid1 exclusive_policy insertion_order).
  - reflexivity.
  - apply reachable_manager_after, reachable_init.
Defined.

(** * The index accounts for every active assignment *)

Lemma conflicts_with_true_shared (environment : Environment.t) (a b : Assignment.t) :
  conflicts_with environment a b = Ok true ->
  exists na nb s,
    py_index (Environment.nodes environment) (Assignment.node_id a) = Ok na
    /\ py_index (Environment.nodes environment) (Assignment.node_id b) = Ok nb
    /\ In s (Node.covered_squares na) /\ In s (Node.covered_squares nb).
Proof.
  unfold conflicts_with. destruct (_ || _); [discriminate|].
  destruct (py_index _ (Assignment.node_id a)) as [na|e]; cbn; [|discriminate].
  destruct (py_index _ (Assignment.node_id b)) as [nb|e]; cbn; [|discriminate].
  intros [= H]. apply Z.ltb_lt in H.
  destruct (shared_squares na nb) as [|s l] eqn:E; [cbn in H; lia|].
  assert (Hs : In s (shared_squares na nb)) by (rewrite E; left; reflexivity).
  apply shared_squares_In in Hs. exists na, nb, s. tauto.
Qed.

Lemma sorted_pair_sym (a b : Z) : sorted_pair a b = sorted_pair b a.
Proof.
  unfold sorted_pair.
  destruct (Z.leb_spec a b), (Z.leb_spec b a); try reflexivity; try lia.
  f_equal; lia.
Qed.

Section TightStore.
Variable environment : Environment.t.
Variable arch_policy : ArchitecturePolicy.t.
Variable set_order : list Z -> list Z.
Hypothesis covered_NoDup :
  Forall (fun node => List.NoDup (Node.covered_squares node)) (Environment.nodes environment).

(** The node of the assignment exists. *)
Definition has_node (a : Assignment.t) : Prop :=
  exists node, py_index (Environment.nodes environment) (Assignment.node_id a) = Ok node.

Definition nodes_ok (m : SpectrumManager.t) : Prop :=
  forall l, In l (active m) -> has_node (objects m l).

(** Every active assignment is listed under each square of its node. *)
Definition index_complete (m : SpectrumManager.t) : Prop :=
  forall l node square,
    In l (active m) ->
    py_index (Environment.nodes environment) (Assignment.node_id (objects m l)) = Ok node ->
    In square (Node.covered_squares node) ->
    In l (square_to_assignments m square).

(** Store and index agree in both directions. *)
Definition tight (m : SpectrumManager.t) : Prop :=
  consistent environment m /\ nodes_ok m /\ index_complete m.

(** No entry of the index of [m] was lost on the way to [m'], unless its
    assignment left [active]. *)
Definition kept (m m' : SpectrumManager.t) : Prop :=
  forall square y,
    In y (square_to_assignments m square) -> In y (active m') ->
    In y (square_to_assignments m' square).

(** Every pair of active assignments in conflict was mitigated. *)
Definition mitigated_ok (m : SpectrumManager.t) : Prop :=
  forall x y,
    In x (active m) -> In y (active m) -> x <> y ->
    conflicts_with environment (objects m x) (objects m y) = Ok true ->
    sorted_pair (Assignment.assignment_id (objects m x))
                (Assignment.assignment_id (objects m y)) ∈ mitigated_conflicts m.

Lemma tight_shrink (m m' : SpectrumManager.t) :
  tight m -> consistent environment m' ->
  (forall l, In l (active m') -> In l (active m)) ->
  (forall l, In l (active m) -> same_lease (objects m l) (objects m' l)) ->
  kept m m' ->
  tight m'.
Proof.
  intros (Hc & Hn & Hi) Hc' Hsub Hobj Hk. split; [exact Hc'|]. split.
  - intros l Hl. destruct (Hn l (Hsub l Hl)) as [node Hnode]. exists node.
    destruct (same_lease_fields _ _ (Hobj l (Hsub l Hl))) as (_ & -> & _). exact Hnode.
  - intros l node square Hl Hnode Hsq. apply Hk; [|exact Hl].
    apply (Hi l node square); auto.
    destruct (same_lease_fields _ _ (Hobj l (Hsub l Hl))) as (_ & <- & _). exact Hnode.
Qed.

Lemma mitigated_shrink (m m' : SpectrumManager.t) :
  mitigated_ok m ->
  (forall l, In l (active m') -> In l (active m)) ->
  (forall l, In l (active m) -> same_lease (objects m l) (objects m' l)) ->
  mitigated_conflicts m ⊆ mitigated_conflicts m' ->
  mitigated_ok m'.
Proof.
  intros Hm Hsub Hobj Hmono x y Hx Hy Hne Hc.
  pose proof (Hobj x (Hsub x Hx)) as Hsx. pose proof (Hobj y (Hsub y Hy)) as Hsy.
  rewrite (conflicts_with_same_lease _ _ _ _ _ Hsx Hsy) in Hc.
  destruct (same_lease_fields _ _ Hsx) as (-> & _).
  destruct (same_lease_fields _ _ Hsy) as (-> & _).
  apply Hmono. apply Hm; auto.
Qed.

Lemma remove_assignment_kept (m m' : SpectrumManager.t) (a : loc) :
  consistent environment m -> In a (active m) ->
  _remove_assignment environment m a = Ok m' ->
  kept m m' /\ ~ In a (active m') /\ mitigated_conflicts m' = mitigated_conflicts m.
Proof.
  intros [Hwf Hidx] Ha Hr.
  destruct (remove_assignment_present environment m m' a Hwf Ha Hr) as (_ & Hout & _).
  destruct (remove_assignment_index environment m m' a Hwf Hidx Ha Hr) as (_ & _ & Hkeep).
  split; [|split; [exact Hout|]].
  - intros square y Hy Hact. apply Hkeep; [|exact Hy]. intros ->. contradiction.
  - unfold _remove_assignment in Hr.
    destruct (py_index _ _); cbn in Hr; [|discriminate]. injection Hr as <-. reflexivity.
Qed.

(** What a preemption leaves: the index lost only the preempted
    assignment, and when no conflict remains, no other assignment of the
    scope conflicts with the candidate. *)
Lemma preempt_summary (possible_conflicts : list loc) (temp a : loc)
    (m m1 : SpectrumManager.t) (tr tr1 : list trace_event) (b : bool) :
  consistent environment m ->
  (forall x, In x possible_conflicts -> In x (active m)) ->
  In a possible_conflicts ->
  preempt environment possible_conflicts temp a m tr = Ok (m1, tr1, b) ->
  kept m m1 /\ ~ In a (active m1) /\ mitigated_conflicts m1 = mitigated_conflicts m
  /\ (b = false ->
      forall x, In x possible_conflicts -> x <> a ->
                conflicts_with environment (objects m1 temp) (objects m1 x) = Ok false).
Proof.
  intros Hc Hscope Ha. unfold preempt.
  destruct (_remove_assignment environment m a) as [m_r|e] eqn:Hr; cbn; [|discriminate].
  destruct (remove_assignment_kept m m_r a Hc (Hscope a Ha) Hr) as (Hk & Hout & Hmit).
  destruct (remove_assignment_shrinks environment m m_r a Hr) as [_ Ho].
  destruct (first_conflict _ _ _ _) as [[other|]|e] eqn:Hstill; cbn; try discriminate;
    intros [= <- _ <-]; (split; [exact Hk|]); (split; [exact Hout|]);
    (split; [exact Hmit|]); [discriminate|].
  intros _ x Hx Hne.
  apply (first_conflict_none _ _ _ _ Hstill).
  apply List.filter_In. split; [exact Hx|].
  apply negb_true_iff.
  destruct (py_eq (objects m_r) x a) eqn:Hpe; [|reflexivity].
  rewrite Ho in Hpe. apply store_wf_py_eq in Hpe; [contradiction | apply Hc | auto | auto].
Qed.

(** What the loop over the scope leaves when it ends: the index lost only
    assignments that left [active], the set of mitigated pairs only grew,
    and if the candidate survived, each assignment of the scope that is
    still active and conflicts with the candidate was mitigated against it. *)
Lemma check_conflicts_summary (possible_conflicts : list loc) (temp : loc)
    (todo seen : list loc) (m m' : SpectrumManager.t) (tr tr' : list trace_event) (c : bool) :
  consistent environment m ->
  (forall x, In x possible_conflicts -> In x (active m)) ->
  (forall x, In x todo -> In x possible_conflicts) ->
  (forall x, In x seen -> In x possible_conflicts) ->
  (forall x, In x seen -> In x (active m) ->
             conflicts_with environment (objects m temp) (objects m x) = Ok true ->
             sorted_pair (Assignment.assignment_id (objects m temp))
                         (Assignment.assignment_id (objects m x)) ∈ mitigated_conflicts m) ->
  check_conflicts environment arch_policy possible_conflicts temp todo seen m tr
  = Ok (m', tr', c) ->
  kept m m' /\ mitigated_conflicts m ⊆ mitigated_conflicts m'
  /\ (c = false ->
      forall x, In x todo \/ In x seen -> In x (active m') ->
                conflicts_with environment (objects m' temp) (objects m' x) = Ok true ->
                sorted_pair (Assignment.assignment_id (objects m' temp))
                            (Assignment.assignment_id (objects m' x))
                ∈ mitigated_conflicts m').
Proof.
  revert seen m tr.
  induction todo as [|a todo IH]; intros seen m tr Hc Hscope Htodo Hseenin Hseen; simpl.
  { intros [= <- <- <-]. split; [intros square y Hy _; exact Hy|].
    split; [reflexivity|]. intros _ x [[]|Hx]. apply Hseen. exact Hx. }
  assert (Htodo' : forall x, In x todo -> In x possible_conflicts)
    by (intros x Hx; apply Htodo; right; exact Hx).
  assert (Ha : In a possible_conflicts) by (apply Htodo; left; reflexivity).
  destruct (existsb (Nat.eqb a) seen) eqn:Hex.
  { intros H. apply IH in H; auto. destruct H as (H1 & H2 & H3).
    split; [exact H1|]. split; [exact H2|].
    intros Hcf x [[<-|Hx]|Hx]; apply H3; auto.
    right. apply List.existsb_exists in Hex. destruct Hex as (z & Hz & Heq).
    apply Nat.eqb_eq in Heq. subst z. exact Hz. }
  assert (Hseenin' : forall x, In x (a :: seen) -> In x possible_conflicts)
    by (intros x [<-|Hx]; auto).
  assert (Hquiet : forall (mq : SpectrumManager.t),
            ~ In a (active mq) ->
            (forall x, In x possible_conflicts -> x <> a ->
                       conflicts_with environment (objects mq temp) (objects mq x)
                       = Ok false) ->
            forall x, In x (a :: todo) \/ In x seen -> In x (active mq) ->
                      conflicts_with environment (objects mq temp) (objects mq x) = Ok true ->
                      sorted_pair (Assignment.assignment_id (objects mq temp))
                                  (Assignment.assignment_id (objects mq x))
                      ∈ mitigated_conflicts mq).
  { intros mq Hout Hfree x Hx Hact Hcf. exfalso.
    assert (Hne : x <> a) by (intros ->; contradiction).
    assert (Hp : In x possible_conflicts) by (destruct Hx as [Hx|Hx]; auto).
    rewrite (Hfree x Hp Hne) in Hcf. discriminate. }
  destruct (conflicts_with _ _ _) as [[|]|e] eqn:Hcw; [| |discriminate].
  2:{ (* no conflict with [a] *)
    intros H. apply IH in H; auto.
    - destruct H as (H1 & H2 & H3). split; [exact H1|]. split; [exact H2|].
      intros Hcf x [[<-|Hx]|Hx]; apply H3; auto; right; [left|right]; auto.
    - intros x [<-|Hx] Hact Hcf; [congruence | apply Hseen; auto]. }
  destruct (_ && (_ <? _)).
  { destruct (preempt _ _ _ _ _ _) as [[[m1 tr1] [|]]|e] eqn:Hp; try discriminate.
    - intros [= <- <- <-].
      destruct (preempt_summary _ _ _ _ _ _ _ _ Hc Hscope Ha Hp) as (Hk & _ & Hmit & _).
      split; [exact Hk|]. split; [rewrite Hmit; reflexivity | discriminate].
    - rewrite (preempt_then_quiet environment arch_policy _ _ _ _ _ _ _ tr1 _ _
                 (proj1 Hc) Hscope Ha Htodo' Hp).
      intros [= <- <- <-].
      destruct (preempt_summary _ _ _ _ _ _ _ _ Hc Hscope Ha Hp) as (Hk & Hout & Hmit & Hfree).
      split; [exact Hk|]. split; [rewrite Hmit; reflexivity|].
      intros _. apply Hquiet; auto. }
  destruct (_ && (_ >? _)).
  { intros [= <- <- <-]. split; [intros square y Hy _; exact Hy|].
    split; [reflexivity | discriminate]. }
  match goal with
  | |- context [match ?x with Ok _ => _ | Raise _ => _ end] =>
    destruct x as [[h' [|]]|e] eqn:Hm; try discriminate
  end.
  - (* mitigated *)
    assert (Hf : forall l, frozen (objects m l) (h' l)).
    { destruct (negb _); [eapply apply_mitigation_frozen; eauto|].
      injection Hm as <- _. auto using frozen_refl. }
    set (m2 := with_mitigated _ (with_objects h' m)).
    assert (Hc2 : consistent environment m2)
      by (apply with_objects_consistent; auto).
    intros H. apply IH in H; auto.
    + destruct H as (H1 & H2 & H3). split; [exact H1|].
      split; [etrans; [|exact H2]; cbn; apply union_subseteq_r|].
      intros Hcf x [[<-|Hx]|Hx]; apply H3; auto; right; [left|right]; auto.
    + intros x [<-|Hx] Hact Hcf; cbn.
      * apply elem_of_union_l, elem_of_singleton. reflexivity.
      * cbn in Hact, Hcf.
        rewrite (conflicts_with_same_lease environment _ _ _ _
                   (frozen_same_lease _ _ (Hf temp))
                   (frozen_same_lease _ _ (Hf x))) in Hcf.
        destruct (same_lease_fields _ _ (frozen_same_lease _ _ (Hf temp))) as (-> & _).
        destruct (same_lease_fields _ _ (frozen_same_lease _ _ (Hf x))) as (-> & _).
        apply elem_of_union_r. apply Hseen; auto.
  - (* not mitigated *)
    assert (Hf : h' = objects m).
    { destruct (negb _); [eapply apply_mitigation_frozen; eauto|]. congruence. }
    subst h'. pose proof (same_objects_consistent environment m Hc) as Hc1.
    destruct (_ <? _).
    { destruct (preempt _ _ _ _ _ _) as [[[m1 tr1] [|]]|e] eqn:Hp; try discriminate.
      - intros [= <- <- <-].
        destruct (preempt_summary _ _ _ _ _ _ _ _ Hc1 Hscope Ha Hp) as (Hk & _ & Hmit & _).
        split; [exact Hk|]. split; [rewrite Hmit; reflexivity | discriminate].
      - rewrite (preempt_then_quiet environment arch_policy _ _ _ _ _ _ _ tr1 _ _
                   (proj1 Hc1) Hscope Ha Htodo' Hp).
        intros [= <- <- <-].
        destruct (preempt_summary _ _ _ _ _ _ _ _ Hc1 Hscope Ha Hp)
          as (Hk & Hout & Hmit & Hfree).
        split; [exact Hk|]. split; [rewrite Hmit; reflexivity|].
        intros _. apply Hquiet; auto. }
    destruct (_ >? _); intros [= <- <- <-];
      (split; [intros square y Hy _; exact Hy|]); (split; [reflexivity | discriminate]).
Qed.

Lemma kept_refl (m : SpectrumManager.t) : kept m m.
Proof. intros square y Hy _. exact Hy. Qed.

Lemma kept_trans (m1 m2 m3 : SpectrumManager.t) :
  (forall l, In l (active m3) -> In l (active m2)) ->
  kept m1 m2 -> kept m2 m3 -> kept m1 m3.
Proof. intros Hsub H12 H23 square y Hy Hact. apply H23; auto. Qed.

(** A newly constructed object changes nothing of the store. *)
Lemma alloc_tight (a : Assignment.t) (m : SpectrumManager.t) :
  tight m ->
  tight (alloc a m).2
  /\ (mitigated_ok m -> mitigated_ok (alloc a m).2)
  /\ forall l, In l (active m) -> objects (alloc a m).2 l = objects m l.
Proof.
  intros Ht.
  assert (Hobj : forall l, In l (active m) -> objects (alloc a m).2 l = objects m l).
  { intros l Hl. cbn. apply (wf_below_next_loc m) in Hl; [|apply Ht].
    destruct (Nat.eqb_spec l (next_loc m)); [lia | reflexivity]. }
  assert (Hsame : forall l, In l (active m) ->
                            same_lease (objects m l) (objects (alloc a m).2 l)).
  { intros l Hl. rewrite (Hobj l Hl). apply same_lease_refl. }
  split; [|split; [|exact Hobj]].
  - apply (tight_shrink m).
    + exact Ht.
    + apply alloc_consistent, Ht.
    + intros l Hl. exact Hl.
    + exact Hsame.
    + intros square y Hy _. exact Hy.
  - intros Hm. apply (mitigated_shrink m).
    + exact Hm.
    + intros l Hl. exact Hl.
    + exact Hsame.
    + reflexivity.
Qed.

Lemma add_assignment_complete (m m' : SpectrumManager.t) (a : loc) :
  nodes_ok m -> index_complete m ->
  _add_assignment environment m a = Ok m' ->
  nodes_ok m' /\ index_complete m'.
Proof.
  intros Hn Hi. unfold _add_assignment.
  destruct (py_index _ _) as [node|e] eqn:Hnode; cbn; [|discriminate].
  intros [= <-]. split.
  - intros l Hl. cbn in *. apply in_app_or in Hl. destruct Hl as [Hl|[<-|[]]]; [auto|].
    exists node. exact Hnode.
  - intros l node' square Hl Hnode' Hsq. cbn in *. rewrite add_fold_lookup.
    apply in_or_app. apply in_app_or in Hl. destruct Hl as [Hl|[<-|[]]].
    + left. eapply Hi; eauto.
    + right. rewrite Hnode in Hnode'. injection Hnode' as <-.
      apply (count_occ_In Z.eq_dec) in Hsq.
      destruct (count_occ Z.eq_dec (Node.covered_squares node) square); [lia|].
      left. reflexivity.
Qed.

Lemma add_assignment_mitigated (m m' : SpectrumManager.t) (a : loc) :
  mitigated_ok m -> ~ In a (active m) ->
  (forall x, In x (active m) ->
             conflicts_with environment (objects m a) (objects m x) = Ok true ->
             sorted_pair (Assignment.assignment_id (objects m a))
                         (Assignment.assignment_id (objects m x)) ∈ mitigated_conflicts m) ->
  _add_assignment environment m a = Ok m' ->
  mitigated_ok m'.
Proof.
  intros Hm Hfresh Hnew. unfold _add_assignment.
  destruct (py_index _ _) as [node|e]; cbn; [|discriminate].
  intros [= <-] x y Hx Hy Hne Hc. cbn in *.
  apply in_app_or in Hx, Hy.
  destruct Hx as [Hx|[<-|[]]], Hy as [Hy|[<-|[]]].
  - apply Hm; auto.
  - rewrite sorted_pair_sym. apply Hnew; auto. rewrite conflicts_with_sym. exact Hc.
  - apply Hnew; auto.
  - contradiction.
Qed.

Lemma add_assignment_keeps_mitigated (m m' : SpectrumManager.t) (a : loc) :
  _add_assignment environment m a = Ok m' ->
  mitigated_conflicts m' = mitigated_conflicts m.
Proof.
  unfold _add_assignment. destruct (py_index _ _); cbn; [|discriminate].
  intros [= <-]. reflexivity.
Qed.

(** Every assignment that conflicts with an object at the node of a
    request is in the centralized scope. *)
Lemma centralized_scope_covers (m : SpectrumManager.t) (a : Assignment.t) (x : loc) :
  index_complete m -> In x (active m) ->
  conflicts_with environment a (objects m x) = Ok true ->
  In x (centralized_scope environment m).
Proof.
  intros Hi Hx Hc. apply conflicts_with_true_shared in Hc.
  destruct Hc as (na & nb & s & _ & Hnb & _ & Hs).
  unfold centralized_scope. apply in_flat_map. exists nb.
  split; [eapply py_index_In; eauto|].
  apply in_flat_map. exists s. split; [exact Hs|]. eapply Hi; eauto.
Qed.

(** What the candidates of one request leave. *)
Lemma try_candidates_tight (request : SpectrumRequest.t) (current_tick : Z)
    (use_centralized : bool) (candidates : list (Z * Z))
    (m m' : SpectrumManager.t) (tr tr' : list trace_event) (outcome : option (Z * Z)) :
  tight m ->
  try_candidates environment arch_policy set_order request current_tick use_centralized
    candidates m tr = Ok (m', tr', outcome) ->
  tight m'
  /\ mitigated_conflicts m ⊆ mitigated_conflicts m'
  /\ (use_centralized = true -> mitigated_ok m -> mitigated_ok m').
Proof using Type covered_NoDup.
  revert m tr. induction candidates as [|[fs fe] rest IH]; intros m tr Ht Heq.
  { simpl in Heq. injection Heq as <- <- <-. split; [exact Ht|]. split; [reflexivity | auto]. }
  pose proof (try_candidates_consistent environment arch_policy set_order covered_NoDup
                _ _ _ _ _ _ _ _ _ (proj1 Ht) Heq) as Hfinal.
  revert Heq. simpl.
  match goal with |- context [if ?b then _ else _] => destruct b end; [apply IH; exact Ht|].
  destruct (py_index _ _) as [node|e] eqn:Hnode; [|discriminate].
  destruct (possible_conflicts_of _ _ _ _ _) as [possible|e] eqn:Hscope; [|discriminate].
  match goal with
  | |- context [check_conflicts _ _ _ ?t _ _ ?m1 _] =>
    set (temp := t) in *; set (m1' := m1) in *
  end.
  assert (Halloc : tight m1' /\ (mitigated_ok m -> mitigated_ok m1')
                   /\ forall l, In l (active m) -> objects m1' l = objects m l)
    by exact (alloc_tight
                (Assignment.mk (next_assignment_id m) (SpectrumRequest.node_id request)
                   fs fe (SpectrumRequest.device_type request) 1%float None
                   (_get_priority_tier arch_policy (SpectrumRequest.device_type request)))
                m Ht).
  destruct Halloc as (Ht1 & Hm1 & Hobj1).
  assert (Hin1 : forall x, In x possible -> In x (active m1')).
  { intros x Hx. destruct (scope_in_index _ _ _ _ _ _ _ Hscope Hx) as [square Hsq].
    apply (proj2 (proj1 Ht1) square). exact Hsq. }
  destruct (check_conflicts _ _ _ _ _ _ _ _) as [[[m2 tr2] c]|e] eqn:Hcc; [|discriminate].
  pose proof (check_conflicts_consistent _ _ _ _ _ _ _ _ _ _ _ (proj1 Ht1) Hin1
                (fun x H => H) Hcc) as Hc2.
  pose proof (check_conflicts_shrinks environment arch_policy _ _ _ _ _ _ _ _ _ Hcc)
    as [Hl2 Hid2 _ Ha2 _ Ho2].
  destruct (check_conflicts_summary _ _ _ _ _ _ _ _ _ (proj1 Ht1) Hin1 (fun x H => H)
              (fun x (H : In x []) => match H with end)
              (fun x (H : In x []) => match H with end) Hcc) as (Hk2 & Hmono2 & Hcov2).
  assert (Hsub2 : forall l, In l (active m2) -> In l (active m1'))
    by (intros l Hl'; eapply sublist_In; eauto).
  assert (Hsame2 : forall l, In l (active m1') -> same_lease (objects m1' l) (objects m2 l))
    by (intros l _; apply frozen_same_lease, Ho2).
  assert (Ht2 : tight m2) by (apply (tight_shrink m1'); auto).
  assert (Hm2 : mitigated_ok m -> mitigated_ok m2)
    by (intros Hm; apply (mitigated_shrink m1'); auto).
  destruct c.
  { (* the candidate failed *)
    intros H. apply IH in H; [|exact Ht2]. destruct H as (H1 & H2 & H3).
    split; [exact H1|]. split; [etrans; [exact Hmono2 | exact H2] | auto]. }
  (* the candidate survived *)
  assert (Hbelow : forall l, In l (active m2) -> (l < next_loc m)%nat).
  { intros l Hl'. apply (wf_below_next_loc m); [apply Ht|]. apply Hsub2 in Hl'. exact Hl'. }
  assert (Hcover : use_centralized = true ->
            forall x, In x (active m2) ->
                      conflicts_with environment (objects m2 temp) (objects m2 x) = Ok true ->
                      sorted_pair (Assignment.assignment_id (objects m2 temp))
                                  (Assignment.assignment_id (objects m2 x))
                      ∈ mitigated_conflicts m2).
  { intros -> x Hx Hcw. apply Hcov2; auto. left.
    cbn in Hscope. injection Hscope as <-.
    apply (centralized_scope_covers m1' (objects m1' temp)); [apply Ht1 | auto |].
    rewrite <- Hcw. symmetry. apply conflicts_with_same_lease.
    - apply frozen_same_lease. exact (Ho2 temp).
    - apply Hsame2, Hsub2, Hx. }
  assert (Htemp : same_lease
                    (Assignment.mk (next_assignment_id m) (SpectrumRequest.node_id request)
                       fs fe (SpectrumRequest.device_type request) 1%float None
                       (_get_priority_tier arch_policy (SpectrumRequest.device_type request)))
                    (objects m2 temp)).
  { apply frozen_same_lease. specialize (Ho2 temp). cbn in Ho2.
    rewrite Nat.eqb_refl in Ho2. exact Ho2. }
  destruct (query_interval arch_policy) as [qi|]; cbn.
  - (* a new object with the next check *)
    match goal with
    | |- context [_add_assignment _ ?m3 ?g] => set (m3' := m3); set (granted := g)
    end.
    destruct (_add_assignment _ _ _) as [m4|e] eqn:Hadd; [|discriminate].
    intros [= <- <- <-].
    assert (Hobj3 : forall l, In l (active m2) -> objects m3' l = objects m2 l).
    { intros l Hl'. cbn. apply Hbelow in Hl'. cbn in Hl2.
      destruct (Nat.eqb_spec l (next_loc m2)); [lia | reflexivity]. }
    assert (Hn3 : nodes_ok m3' /\ index_complete m3').
    { split.
      - intros l Hl'. cbn in Hl'. rewrite (Hobj3 l Hl'). apply Ht2. exact Hl'.
      - intros l nd square Hl' Hnd Hsq. cbn in Hl'. rewrite (Hobj3 l Hl') in Hnd.
        cbn. eapply (proj2 (proj2 Ht2)); eauto. }
    destruct (add_assignment_complete _ _ _ (proj1 Hn3) (proj2 Hn3) Hadd) as [Hn4 Hi4].
    split; [split; [exact Hfinal | split; [exact Hn4 | exact Hi4]]|].
    split.
    { cbn. rewrite (add_assignment_keeps_mitigated _ _ _ Hadd). exact Hmono2. }
    intros Huc Hm. specialize (Hm2 Hm). specialize (Hcover Huc).
    apply (add_assignment_mitigated m3' m4 granted) in Hadd; [exact Hadd | | |].
    + intros x y Hx Hy Hne. cbn in Hx, Hy. rewrite (Hobj3 x Hx), (Hobj3 y Hy). cbn.
      apply Hm2; auto.
    + cbn. intros Hin. apply Hbelow in Hin. cbn in Hl2. lia.
    + intros x Hx. cbn in Hx. rewrite (Hobj3 x Hx).
      assert (Hg : same_lease (objects m2 temp) (objects m3' granted)).
      { cbn. rewrite Nat.eqb_refl. unfold same_lease in *. rewrite Htemp. reflexivity. }
      rewrite (conflicts_with_same_lease environment _ _ _ _ Hg
                 (same_lease_refl (objects m2 x))).
      destruct (same_lease_fields _ _ Hg) as (-> & _). cbn [mitigated_conflicts].
      apply Hcover. exact Hx.
  - (* the candidate itself is stored *)
    destruct (_add_assignment _ _ _) as [m4|e] eqn:Hadd; [|discriminate].
    intros [= <- <- <-].
    destruct (add_assignment_complete _ _ _ (proj1 (proj2 Ht2)) (proj2 (proj2 Ht2)) Hadd)
      as [Hn4 Hi4].
    split; [split; [exact Hfinal | split; [exact Hn4 | exact Hi4]]|].
    split.
    { cbn. rewrite (add_assignment_keeps_mitigated _ _ _ Hadd). exact Hmono2. }
    intros Huc Hm. specialize (Hm2 Hm). specialize (Hcover Huc).
    apply (add_assignment_mitigated m2 m4 temp) in Hadd; [exact Hadd | exact Hm2 | | exact Hcover].
    intros Hin. apply Hbelow in Hin. unfold temp in Hin. cbn in Hin. lia.
Qed.

Lemma with_metrics_tight (s : MetricsCollector.t) (m : SpectrumManager.t) :
  tight m -> tight (with_metrics s m).
Proof.
  intros Ht. apply (tight_shrink m).
  - exact Ht.
  - apply consistent_counters, Ht.
  - intros l Hl. exact Hl.
  - intros l _. apply same_lease_refl.
  - intros square y Hy _. exact Hy.
Qed.

Lemma process_request_tight request request' current_tick m m' g g' :
  tight m ->
  process_request environment arch_policy set_order request current_tick m g
  = Ok (m', request', g') ->
  tight m'
  /\ (coordination_mode arch_policy = "Centralized" -> mitigated_ok m -> mitigated_ok m').
Proof using Type covered_NoDup.
  intros Ht. unfold process_request.
  destruct (_generate_frequency_candidates arch_policy request g) as [candidates g1].
  destruct (str_eqb (coordination_mode arch_policy) "Hybrid") eqn:Hhy.
  - destruct (random_lt_half g1) as [use_centralized g2].
    destruct (try_candidates _ _ _ _ _ _ _ _ _) as [[[m1 tr1] outcome]|e] eqn:Htry;
      cbn; [|discriminate].
    apply try_candidates_tight in Htry; [|exact Ht]. destruct Htry as (Ht1 & _ & _).
    assert (Hno : coordination_mode arch_policy = "Centralized" -> False).
    { intros Hc. rewrite Hc in Hhy. discriminate. }
    destruct outcome as [freq|]; intros [= <- <- <-]; (split; [|intros Hc; destruct (Hno Hc)]).
    + exact Ht1.
    + apply with_metrics_tight, Ht1.
  - destruct (try_candidates _ _ _ _ _ _ _ _ _) as [[[m1 tr1] outcome]|e] eqn:Htry;
      cbn; [|discriminate].
    apply try_candidates_tight in Htry; [|exact Ht]. destruct Htry as (Ht1 & _ & Hm1).
    destruct outcome as [freq|]; intros [= <- <- <-]; split.
    + exact Ht1.
    + intros Hc. apply Hm1. rewrite Hc. reflexivity.
    + apply with_metrics_tight, Ht1.
    + intros Hc Hm. rewrite Hc in Hm1. specialize (Hm1 eq_refl Hm).
      intros x y Hx Hy Hne Hcw. cbn in *. apply Hm1; auto.
Qed.

Lemma remove_all_kept (R : list loc) (m m' : SpectrumManager.t) :
  consistent environment m -> List.NoDup R -> (forall a, In a R -> In a (active m)) ->
  remove_all environment R m = Ok m' ->
  kept m m' /\ mitigated_conflicts m' = mitigated_conflicts m.
Proof.
  revert m. induction R as [|a R IH]; intros m Hc Hnd Hin; simpl.
  { intros [= <-]. split; [apply kept_refl | reflexivity]. }
  destruct (_remove_assignment environment m a) as [m1|e] eqn:Hr; cbn; [|discriminate].
  intros Hall. inversion Hnd as [|? ? Ha HndR]; subst.
  assert (Hina : In a (active m)) by (apply Hin; left; reflexivity).
  destruct (remove_assignment_kept m m1 a Hc Hina Hr) as (Hk1 & _ & Hmit1).
  destruct Hc as [Hwf Hidx].
  destruct (remove_assignment_present environment m m1 a Hwf Hina Hr)
    as (_ & _ & Hkeep & Hs & _).
  destruct (remove_assignment_index environment m m1 a Hwf Hidx Hina Hr) as (Hidx1 & _ & _).
  assert (Hc1 : consistent environment m1)
    by (split; [eapply store_shrinks_wf; eauto | exact Hidx1]).
  assert (HinR : forall y, In y R -> In y (active m1)).
  { intros y Hy. apply Hkeep; [intros ->; contradiction | apply Hin; right; exact Hy]. }
  destruct (IH m1 Hc1 HndR HinR Hall) as [Hk Hmit].
  split; [|congruence].
  apply (kept_trans m m1 m'); auto.
  intros l Hl. eapply sublist_In; [|exact Hl].
  destruct (remove_all_effect environment R m1 m' (proj1 Hc1) HndR HinR Hall)
    as (_ & _ & _ & Hs' & _).
  apply Hs'.
Qed.

Lemma renew_loop_keeps_mitigated (current_tick : Z) (snapshot : list loc)
    (m m' : SpectrumManager.t) (R R' : list loc) :
  renew_loop environment arch_policy current_tick snapshot m R = Ok (m', R') ->
  mitigated_conflicts m' = mitigated_conflicts m.
Proof.
  revert m R. induction snapshot as [|a rest IH]; intros m R; simpl.
  { intros [= <- <-]. reflexivity. }
  destruct (negb _); [apply IH|].
  destruct (py_index _ _) as [node|e]; [|discriminate].
  destruct (renew_check _ _ _ _ _ _) as [[h' [|]]|e]; [| |discriminate];
    intros H; apply IH in H; rewrite H; reflexivity.
Qed.

Lemma renew_assignments_tight (current_tick : Z) (m m' : SpectrumManager.t) :
  tight m ->
  renew_assignments environment arch_policy current_tick m = Ok m' ->
  tight m' /\ (mitigated_ok m -> mitigated_ok m').
Proof.
  intros Ht Hr.
  destruct (renew_assignments_consistent environment arch_policy current_tick m m'
              (proj1 Ht) Hr) as [Hc' _].
  pose proof (renew_assignments_effect environment arch_policy current_tick m m'
                (proj1 (proj1 Ht)) Hr) as (_ & Hsub & _ & _ & _ & _ & Hobj & _).
  assert (Hsub' : forall l, In l (active m') -> In l (active m))
    by (intros l Hl; eapply sublist_In; eauto).
  assert (Hsame : forall l, In l (active m) -> same_lease (objects m l) (objects m' l))
    by (intros l _; apply Hobj).
  unfold renew_assignments in Hr.
  destruct (renew_loop _ _ _ _ _ _) as [[ml R']|e] eqn:Hloop; cbn in Hr; [|discriminate].
  pose proof (renew_loop_keeps_mitigated _ _ _ _ _ _ Hloop) as Hmitl. cbn in Hmitl.
  apply renew_loop_effect in Hloop. cbn in Hloop.
  destruct Hloop as (H1 & H2 & H3 & H4 & _ & H6 & R1 & HR & HsubR & _).
  cbn in HR. subst R'.
  assert (Hcl : consistent environment ml).
  { destruct Ht as ([Hwf Hidx] & _). split.
    - apply (store_wf_sublist m).
      + exact Hwf.
      + rewrite H1. reflexivity.
      + intros l _. apply H6.
      + lia.
      + lia.
    - apply (index_ok_transfer environment m).
      + exact Hwf.
      + exact Hidx.
      + intros square. rewrite H2. reflexivity.
      + intros l Hl. rewrite H1. exact Hl.
      + intros l _. apply H6. }
  assert (HinR : forall a, In a R1 -> In a (active ml)).
  { intros a Ha. rewrite H1. eapply sublist_In; [exact HsubR | exact Ha]. }
  assert (HndR : List.NoDup R1).
  { eapply sublist_NoDup_list; [exact HsubR|]. apply store_wf_NoDup, Ht. }
  destruct (remove_all_kept R1 ml m' Hcl HndR HinR Hr) as [Hk Hmit].
  split.
  - apply (tight_shrink m); auto.
    intros square y Hy Hact. apply Hk; [|exact Hact]. rewrite H2. exact Hy.
  - intros Hm. apply (mitigated_shrink m); auto. rewrite Hmit, Hmitl. reflexivity.
Qed.

Lemma init_tight : tight (SpectrumManager.init MetricsCollector.init).
Proof.
  split; [apply init_consistent|]. split.
  - intros l [].
  - intros l node square [].
Qed.

(** Every state of a run has a store and an index that agree in both
    directions. *)
Lemma reachable_tight (m : SpectrumManager.t) :
  reachable environment arch_policy set_order m -> tight m.
Proof using Type covered_NoDup.
  induction 1 as [|m m' requests requests' t g g' _ IH Hp|m m' t _ IH Hr].
  - exact init_tight.
  - revert Hp IH. apply (process_arrivals_preserves environment arch_policy set_order tight t).
    intros request request' m0 m0' g0 g0' H0 Ht0.
    eapply process_request_tight; eauto.
  - eapply renew_assignments_tight; eauto.
Qed.

(** Under centralized coordination, every pair of active assignments in
    conflict was mitigated. *)
Lemma reachable_mitigated (m : SpectrumManager.t) :
  coordination_mode arch_policy = "Centralized" ->
  reachable environment arch_policy set_order m -> mitigated_ok m.
Proof using Type covered_NoDup.
  intros Hcen.
  induction 1 as [|m m' requests requests' t g g' Hm IH Hp|m m' t Hm IH Hr].
  - intros x y [].
  - assert (H : tight m' /\ mitigated_ok m'); [|apply H].
    apply (process_arrivals_preserves environment arch_policy set_order
             (fun m => tight m /\ mitigated_ok m) t) in Hp;
      [exact Hp | | split; [apply reachable_tight; exact Hm | exact IH]].
    clear Hm IH Hp. intros request request' m0 m0' g0 g0' H0 [Ht0 Hm0].
    destruct (process_request_tight _ _ _ _ _ _ _ Ht0 H0) as [Ht1 Hm1]. auto.
  - eapply renew_assignments_tight; eauto. apply reachable_tight. exact Hm.
Qed.

End TightStore.

(** * core/metrics.py: the interference report *)

Section Interference.
Variable environment : Environment.t.

(** The body of the double loop of [compute_interference]: whether the
    pair counts as interfering. *)
Definition interferes (mitigated_conflicts : gset (Z * Z)) (a1 a2 : Assignment.t)
    : result bool :=
  let same_freq :=
    negb ((Assignment.freq_end a1 <=? Assignment.freq_start a2)
          || (Assignment.freq_end a2 <=? Assignment.freq_start a1)) in
  n1 ← py_index (Environment.nodes environment) (Assignment.node_id a1);
  n2 ← py_index (Environment.nodes environment) (Assignment.node_id a2);
  let overlap_squares := shared_squares n1 n2 in
  if same_freq && negb (bool_decide (overlap_squares = [])) then
    let pair := sorted_pair (Assignment.assignment_id a1) (Assignment.assignment_id a2) in
    if bool_decide (pair ∈ mitigated_conflicts) then Ok false else Ok true
  else Ok false.

(** The inner loop: [a1] against the assignments after it. *)
Fixpoint interference_row (mitigated_conflicts : gset (Z * Z)) (a1 : Assignment.t)
    (rest : list Assignment.t) (interfering : gset Z) : result (gset Z) :=
  match rest with
  | [] => Ok interfering
  | a2 :: rest' =>
    b ← interferes mitigated_conflicts a1 a2;
    interference_row mitigated_conflicts a1 rest'
      (if b : bool
       then {[Assignment.assignment_id a2]} ∪ ({[Assignment.assignment_id a1]} ∪ interfering)
       else interfering)
  end.

(** The outer loop. *)
Fixpoint interference_pairs (mitigated_conflicts : gset (Z * Z))
    (assignments : list Assignment.t) (interfering : gset Z) : result (gset Z) :=
  match assignments with
  | [] => Ok interfering
  | a1 :: rest =>
    interfering' ← interference_row mitigated_conflicts a1 rest interfering;
    interference_pairs mitigated_conflicts rest interfering'
  end.

(** [MetricsCollector.compute_interference]: the number of interfering
    assignments and the rate, [num_interfering / max(1, len(assignments))],
    as the exact quotient that the interpreter rounds to the nearest float. *)
Definition compute_interference (assignments : list Assignment.t)
    (mitigated_conflicts : option (gset (Z * Z))) : result (Z * Q) :=
  let mitigated_conflicts := default ∅ mitigated_conflicts in
  interfering ← interference_pairs mitigated_conflicts assignments ∅;
  let num_interfering := Z.of_nat (size interfering) in
  Ok (num_interfering,
      Qmake num_interfering (Z.to_pos (Z.max 1 (Z.of_nat (length assignments))))).

End Interference.

(** With both nodes in the grid, a pair interferes when it conflicts and
    was not mitigated. *)
Lemma interferes_conflicts (environment : Environment.t) (mitigated : gset (Z * Z))
    (a1 a2 : Assignment.t) (c : bool) :
  conflicts_with environment a1 a2 = Ok c ->
  (exists n1, py_index (Environment.nodes environment) (Assignment.node_id a1) = Ok n1) ->
  (exists n2, py_index (Environment.nodes environment) (Assignment.node_id a2) = Ok n2) ->
  interferes environment mitigated a1 a2
  = Ok (c && negb (bool_decide
                     (sorted_pair (Assignment.assignment_id a1) (Assignment.assignment_id a2)
                      ∈ mitigated))).
Proof.
  intros Hc [n1 Hn1] [n2 Hn2]. unfold interferes, conflicts_with in *.
  rewrite Hn1, Hn2 in *. cbn [mbind result_bind] in *.
  rewrite Z.geb_leb in Hc.
  destruct ((Assignment.freq_end a1 <=? Assignment.freq_start a2)
            || (Assignment.freq_end a2 <=? Assignment.freq_start a1)).
  - injection Hc as <-. reflexivity.
  - injection Hc as <-. cbn [negb andb].
    destruct (shared_squares n1 n2) as [|s l]; cbn [length]; [reflexivity|].
    rewrite bool_decide_eq_false_2 by discriminate.
    replace (0 <? Z.of_nat (S (length l))) with true by (symmetry; apply Z.ltb_lt; lia).
    cbn [negb andb]. destruct (bool_decide _); reflexivity.
Qed.

(** No pair of the list, taken in the order of the list, interferes. *)
Fixpoint pairs_quiet (environment : Environment.t) (mitigated : gset (Z * Z))
    (assignments : list Assignment.t) : Prop :=
  match assignments with
  | [] => True
  | a1 :: rest =>
    (forall a2, In a2 rest -> interferes environment mitigated a1 a2 = Ok false)
    /\ pairs_quiet environment mitigated rest
  end.

Lemma interference_row_quiet (environment : Environment.t) (mitigated : gset (Z * Z))
    (a1 : Assignment.t)
    (rest : list Assignment.t) (acc : gset Z) :
  (forall a2, In a2 rest -> interferes environment mitigated a1 a2 = Ok false) ->
  interference_row environment mitigated a1 rest acc = Ok acc.
Proof.
  induction rest as [|a2 rest IH]; intros H; simpl; [reflexivity|].
  rewrite (H a2) by (left; reflexivity). cbn. apply IH.
  intros a Ha. apply H. right. exact Ha.
Qed.

Lemma interference_pairs_quiet (environment : Environment.t) (mitigated : gset (Z * Z))
    (assignments : list Assignment.t)
    (acc : gset Z) :
  pairs_quiet environment mitigated assignments ->
  interference_pairs environment mitigated assignments acc = Ok acc.
Proof.
  induction assignments as [|a1 rest IH]; intros H; simpl; [reflexivity|].
  destruct H as [H1 H2]. rewrite interference_row_quiet by exact H1. cbn. apply IH, H2.
Qed.

(** The identifiers collected are identifiers of the list, and at least two
    once there is one. *)
Definition ids_of (assignments : list Assignment.t) : gset Z :=
  list_to_set (Assignment.assignment_id <$> assignments).

Lemma interference_row_bounds (environment : Environment.t) (mitigated : gset (Z * Z))
    (a1 : Assignment.t)
    (rest : list Assignment.t) (acc acc' : gset Z) :
  ~ In (Assignment.assignment_id a1) (Assignment.assignment_id <$> rest) ->
  interference_row environment mitigated a1 rest acc = Ok acc' ->
  acc' ⊆ acc ∪ ids_of (a1 :: rest)
  /\ (acc = ∅ \/ 2 <= size acc -> acc' = ∅ \/ 2 <= size acc')%nat.
Proof.
  revert acc. induction rest as [|a2 rest IH]; intros acc Hfresh; simpl.
  { intros [= <-]. split; [apply union_subseteq_l | auto]. }
  destruct (interferes environment mitigated a1 a2) as [b|e]; cbn; [|discriminate].
  intros H. apply IH in H.
  - destruct H as [H1 H2]. split.
    + clear IH H2 Hfresh. unfold ids_of in *. cbn in *.
      destruct b; set_unfold; intros x Hx; specialize (H1 x Hx); tauto.
    + intros Hacc. apply H2. destruct b; [right | exact Hacc].
      assert (Hne : Assignment.assignment_id a2 <> Assignment.assignment_id a1).
      { intros Heq. apply Hfresh. left. exact Heq. }
      etrans; [|apply subseteq_size
                  with (X := {[Assignment.assignment_id a2; Assignment.assignment_id a1]})].
      * rewrite size_union
          by (apply disjoint_singleton_l, not_elem_of_singleton; exact Hne).
        rewrite !size_singleton. lia.
      * set_unfold. tauto.
  - intros Hin. apply Hfresh. right. exact Hin.
Qed.

Lemma interference_pairs_bounds (environment : Environment.t) (mitigated : gset (Z * Z))
    (assignments : list Assignment.t)
    (acc acc' : gset Z) :
  List.NoDup (Assignment.assignment_id <$> assignments) ->
  interference_pairs environment mitigated assignments acc = Ok acc' ->
  acc' ⊆ acc ∪ ids_of assignments
  /\ (acc = ∅ \/ 2 <= size acc -> acc' = ∅ \/ 2 <= size acc')%nat.
Proof.
  revert acc. induction assignments as [|a1 rest IH]; intros acc Hnd; simpl.
  { intros [= <-]. split; [apply union_subseteq_l | auto]. }
  inversion Hnd as [|? ? Hfresh Hnd']; subst.
  destruct (interference_row environment mitigated a1 rest acc) as [acc1|e] eqn:Hrow;
    cbn; [|discriminate].
  apply interference_row_bounds in Hrow; [|exact Hfresh]. destruct Hrow as [R1 R2].
  intros H. apply IH in H; [|exact Hnd']. destruct H as [H1 H2]. split.
  - clear IH H2 R2 Hnd Hnd' Hfresh. unfold ids_of in *. cbn in *.
    set_unfold. intros x Hx. specialize (H1 x Hx).
    destruct H1 as [H1|H1]; [specialize (R1 x H1); tauto | tauto].
  - auto.
Qed.

Lemma size_ids_of (assignments : list Assignment.t) :
  (size (ids_of assignments) <= length assignments)%nat.
Proof.
  unfold ids_of. induction assignments as [|a l IH]; cbn.
  - rewrite size_empty. lia.
  - rewrite size_union_alt, size_singleton.
    pose proof (subseteq_size
                  (list_to_set (Assignment.assignment_id <$> l) ∖ {[Assignment.assignment_id a]})
                  (list_to_set (Assignment.assignment_id <$> l) : gset Z)
                  (subseteq_difference_l _ _ _ (reflexivity _))).
    lia.
Qed.

(** X19.  When compute_interference returns on assignments with pairwise
    distinct ids, the number of interfering assignments is between 0 and the
    number of assignments and is never 1, and the rate, taken as the exact
    quotient num_interfering / max(1, len(assignments)), is between 0 and 1. *)
Theorem compute_interference_bounds (environment : Environment.t)
    (assignments : list Assignment.t)
    (mitigated_conflicts : option (gset (Z * Z))) (num_interfering : Z) (rate : Q)
    (Hids : List.NoDup (Assignment.assignment_id <$> assignments))
    (Hrun : compute_interference environment assignments mitigated_conflicts
            = Ok (num_interfering, rate)) :
  0 <= num_interfering <= Z.of_nat (length assignments)
  /\ num_interfering <> 1
  /\ (0 <= rate <= 1)%Q.
Proof.
  unfold compute_interference in Hrun.
  destruct (interference_pairs _ _ _) as [s|e] eqn:Hp; cbn in Hrun; [|discriminate].
  injection Hrun as <- <-.
  apply interference_pairs_bounds in Hp; [|exact Hids]. destruct Hp as [H1 H2].
  assert (Hle : (size s <= length assignments)%nat).
  { etrans; [apply subseteq_size; exact H1|].
    rewrite union_empty_l_L. apply size_ids_of. }
  split; [lia|]. split.
  - destruct H2 as [->|H2]; [left; reflexivity | rewrite size_empty; lia | lia].
  - unfold Qle. cbn. split; [lia|].
    rewrite Z2Pos.id by lia. lia.
Qed.

Lemma compute_interference_bounds_witness :
  0 <= 2 <= Z.of_nat (length [lease 0 0 37000 37100 "5G" 0; lease 1 1 37050 37150 "5G" 0])
  /\ 2 <> 1
  /\ (0 <= 2 # 2 <= 1)%Q.
Proof.
  apply (compute_interference_bounds grid1
           [lease 0 0 37000 37100 "5G" 0; lease 1 1 37050 37150 "5G" 0] None 2 (2 # 2)).
  - repeat constructor; cbn; intuition discriminate.
  - vm_compute. reflexivity.
Defined.

Lemma conflicts_with_total (environment : Environment.t) (a b : Assignment.t) :
  has_node environment a -> has_node environment b ->
  exists c, conflicts_with environment a b = Ok c.
Proof.
  intros [na Ha] [nb Hb]. unfold conflicts_with. rewrite Ha, Hb.
  destruct (_ || _); eexists; reflexivity.
Qed.

Lemma mitigated_pairs_quiet (environment : Environment.t) (m : SpectrumManager.t)
    (l : list loc) :
  List.NoDup l -> (forall x, In x l -> In x (active m)) ->
  nodes_ok environment m -> mitigated_ok environment m ->
  pairs_quiet environment (mitigated_conflicts m) (objects m <$> l).
Proof.
  intros Hnd Hsub Hn Hm. induction l as [|x l IH]; cbn; [exact I|].
  inversion Hnd as [|? ? Hx Hnd']; subst. split.
  - intros a2 Ha2. apply in_map_iff in Ha2. destruct Ha2 as (y & <- & Hy).
    assert (Hxa : In x (active m)) by (apply Hsub; left; reflexivity).
    assert (Hya : In y (active m)) by (apply Hsub; right; exact Hy).
    destruct (conflicts_with_total environment (objects m x) (objects m y)
                (Hn x Hxa) (Hn y Hya)) as [c Hc].
    rewrite (interferes_conflicts environment _ _ _ c Hc (Hn x Hxa) (Hn y Hya)).
    destruct c; [|reflexivity].
    rewrite bool_decide_eq_true_2; [reflexivity|].
    apply Hm; auto. intros ->. contradiction.
  - apply IH; auto. intros y Hy. apply Hsub. right. exact Hy.
Qed.

(** X20.  In every state reachable on a generated grid, active holds no
    assignment twice, the node id of every active assignment indexes a node,
    and for every square the list square_to_assignments[square] holds no
    assignment twice and holds exactly the active assignments whose node
    covers the square. *)
Theorem index_matches_active (rows cols : Z) (arch_policy : ArchitecturePolicy.t)
    (set_order : list Z -> list Z) (m : SpectrumManager.t)
    (Hm : reachable (Environment_init rows cols) arch_policy set_order m) :
  List.NoDup (active m)
  /\ (forall l, In l (active m) ->
        exists node, py_index (Environment.nodes (Environment_init rows cols))
                       (Assignment.node_id (objects m l)) = Ok node)
  /\ forall square,
       List.NoDup (square_to_assignments m square)
       /\ forall l, In l (square_to_assignments m square)
                    <-> In l (active m)
                        /\ exists node,
                             py_index (Environment.nodes (Environment_init rows cols))
                               (Assignment.node_id (objects m l)) = Ok node
                             /\ In square (Node.covered_squares node).
Proof.
  pose proof (reachable_tight (Environment_init rows cols) arch_policy set_order
                (generated_covered_NoDup rows cols) m Hm) as ([Hwf Hidx] & Hn & Hi).
  split; [apply store_wf_NoDup; exact Hwf|]. split; [exact Hn|].
  intros square. destruct (Hidx square) as [Hnd Hl]. split; [exact Hnd|].
  intros l. split; [apply Hl|].
  intros (Hact & node & Hnode & Hsq). eapply Hi; eauto.
Qed.

Lemma index_matches_active_witness :
  List.NoDup (active exclusive_granted)
  /\ (forall l, In l (active exclusive_granted) ->
        exists node, py_index (Environment.nodes (Environment_init 1 1))
                       (Assignment.node_id (objects exclusive_granted l)) = Ok node)
  /\ forall square,
       List.NoDup (square_to_assignments exclusive_granted square)
       /\ forall l, In l (square_to_assignments exclusive_granted square)
                    <-> In l (active exclusive_granted)
                        /\ exists node,
                             py_index (Environment.nodes (Environment_init 1 1))
                               (Assignment.node_id (objects exclusive_granted l)) = Ok node
                             /\ In square (Node.covered_squares node).
Proof.
  apply (index_matches_active 1 1 exclusive_policy insertion_order).
  apply reachable_manager_after, reachable_init.
Defined.

(** X21.  Under Centralized coordination on a generated grid, in every
    reachable state each pair of distinct active assignments that conflict is
    recorded in mitigated_conflicts as the sorted pair of their ids, so
    compute_interference on the active assignments with that set reports 0
    interfering assignments and rate 0. *)
Theorem centralized_leaves_no_interference (rows cols : Z)
    (arch_policy : ArchitecturePolicy.t) (set_order : list Z -> list Z)
    (m : SpectrumManager.t)
    (Hcen : coordination_mode arch_policy = "Centralized")
    (Hm : reachable (Environment_init rows cols) arch_policy set_order m) :
  (forall x y, In x (active m) -> In y (active m) -> x <> y ->
     conflicts_with (Environment_init rows cols) (objects m x) (objects m y) = Ok true ->
     sorted_pair (Assignment.assignment_id (objects m x))
                 (Assignment.assignment_id (objects m y)) ∈ mitigated_conflicts m)
  /\ compute_interference (Environment_init rows cols) (objects m <$> active m)
       (Some (mitigated_conflicts m))
     = Ok (0, 0 # Z.to_pos (Z.max 1 (Z.of_nat (length (active m))))).
Proof.
  pose proof (reachable_tight (Environment_init rows cols) arch_policy set_order
                (generated_covered_NoDup rows cols) m Hm) as ([Hwf Hidx] & Hn & Hi).
  pose proof (reachable_mitigated (Environment_init rows cols) arch_policy set_order
                (generated_covered_NoDup rows cols) m Hcen Hm) as Hmit.
  split; [exact Hmit|].
  unfold compute_interference. cbn [default].
  rewrite interference_pairs_quiet.
  - cbn. rewrite size_empty, length_fmap. reflexivity.
  - apply mitigated_pairs_quiet; auto. apply store_wf_NoDup. exact Hwf.
Qed.

Lemma centralized_leaves_no_interference_witness :
  (forall x y, In x (active sharing_granted) -> In y (active sharing_granted) -> x <> y ->
     conflicts_with (Environment_init 1 1) (objects sharing_granted x)
       (objects sharing_granted y) = Ok true ->
     sorted_pair (Assignment.assignment_id (objects sharing_granted x))
                 (Assignment.assignment_id (objects sharing_granted y))
     ∈ mitigated_conflicts sharing_granted)
  /\ compute_interference (Environment_init 1 1) (objects sharing_granted <$> active sharing_granted)
       (Some (mitigated_conflicts sharing_granted))
     = Ok (0, 0 # Z.to_pos (Z.max 1 (Z.of_nat (length (active sharing_granted))))).
Proof.
  apply (centralized_leaves_no_interference 1 1 sharing_policy insertion_order).
  - reflexivity.
  - exact sharing_granted_reachable.
Defined.

(** * The engine returns *)

Section Returns.
Variable environment : Environment.t.
Variable arch_policy : ArchitecturePolicy.t.
Variable set_order : list Z -> list Z.
Hypothesis covered_NoDup :
  Forall (fun node => List.NoDup (Node.covered_squares node)) (Environment.nodes environment).
(** Iterating a set yields elements of the set. *)
Hypothesis set_order_In : forall l x, In x (set_order l) -> In x l.
(** The neighbours of a node are nodes. *)
Hypothesis neighbors_are_nodes :
  forall i l j, get_neighbors environment i = Ok l -> In j l ->
                exists node, py_index (Environment.nodes environment) j = Ok node.

Lemma has_node_frozen (a b : Assignment.t) :
  frozen a b -> has_node environment a -> has_node environment b.
Proof.
  intros Hf [node Hn]. exists node.
  destruct (same_lease_fields _ _ (frozen_same_lease _ _ Hf)) as (_ & -> & _). exact Hn.
Qed.

Lemma get_node_relationship_total (a b : Assignment.t) :
  has_node environment a -> has_node environment b ->
  exists r, get_node_relationship environment a b = Ok r.
Proof.
  intros [na Ha] [nb Hb]. unfold get_node_relationship. rewrite Ha, Hb.
  cbn [mbind result_bind].
  destruct (_ =? _); [eexists; reflexivity|].
  destruct (shared_squares na nb); [eexists; reflexivity|].
  destruct (_ && _); [destruct (existsb _ _) | destruct (_ =? 1)]; eexists; reflexivity.
Qed.

Lemma apply_mitigation_total (h : heap) (self other : loc) :
  has_node environment (h self) -> has_node environment (h other) ->
  exists r, apply_mitigation environment arch_policy h self other = Ok r.
Proof.
  intros Hs Ho. unfold apply_mitigation.
  destruct (str_eqb _ "No Mitigation"); [eexists; reflexivity|].
  destruct (get_node_relationship_total _ _ Hs Ho) as [r ->]. cbn [mbind result_bind].
  destruct (str_eqb _ "Power Control"); [destruct r; eexists; reflexivity|].
  destruct (str_eqb _ "Beamforming"); [destruct r; eexists; reflexivity|].
  destruct (str_eqb _ "Combination"); [destruct r; eexists; reflexivity|].
  destruct (str_eqb _ "Frequency Hopping"); eexists; reflexivity.
Qed.

Lemma remove_assignment_total (m : SpectrumManager.t) (a : loc) :
  has_node environment (objects m a) ->
  exists m', _remove_assignment environment m a = Ok m'.
Proof.
  intros [node Hn]. unfold _remove_assignment. rewrite Hn. eexists. reflexivity.
Qed.

Lemma add_assignment_total (m : SpectrumManager.t) (a : loc) :
  has_node environment (objects m a) ->
  exists m', _add_assignment environment m a = Ok m'.
Proof.
  intros [node Hn]. unfold _add_assignment. rewrite Hn. eexists. reflexivity.
Qed.

Lemma first_conflict_total (h : heap) (temp : loc) (l : list loc) :
  has_node environment (h temp) -> (forall x, In x l -> has_node environment (h x)) ->
  exists r, first_conflict environment h temp l = Ok r.
Proof.
  intros Ht. induction l as [|x l IH]; intros Hl; simpl; [eexists; reflexivity|].
  destruct (conflicts_with_total environment (h temp) (h x) Ht (Hl x (or_introl eq_refl)))
    as [c ->]. cbn [mbind result_bind].
  destruct c; [eexists; reflexivity|]. apply IH. intros y Hy. apply Hl. right. exact Hy.
Qed.

Lemma preempt_total (possible_conflicts : list loc) (temp a : loc)
    (m : SpectrumManager.t) (tr : list trace_event) :
  has_node environment (objects m temp) -> has_node environment (objects m a) ->
  (forall x, In x possible_conflicts -> has_node environment (objects m x)) ->
  exists m1 tr1 b, preempt environment possible_conflicts temp a m tr = Ok (m1, tr1, b)
                   /\ objects m1 = objects m.
Proof.
  intros Ht Ha Hp. unfold preempt.
  destruct (remove_assignment_total m a Ha) as [m_r Hr]. rewrite Hr.
  cbn [mbind result_bind].
  destruct (remove_assignment_shrinks environment m m_r a Hr) as [_ Ho].
  destruct (first_conflict_total (objects m_r) temp
              (List.filter (fun x => negb (py_eq (objects m_r) x a)) possible_conflicts))
    as [still Hs].
  { rewrite Ho. exact Ht. }
  { intros x Hx. apply List.filter_In in Hx. rewrite Ho. apply Hp, Hx. }
  rewrite Hs. cbn [mbind result_bind].
  destruct still; eexists; eexists; eexists; (split; [reflexivity | exact Ho]).
Qed.

Lemma check_conflicts_total (possible_conflicts : list loc) (temp : loc)
    (todo seen : list loc) (m : SpectrumManager.t) (tr : list trace_event) :
  has_node environment (objects m temp) ->
  (forall x, In x possible_conflicts -> has_node environment (objects m x)) ->
  (forall x, In x todo -> In x possible_conflicts) ->
  exists r, check_conflicts environment arch_policy possible_conflicts temp todo seen m tr
            = Ok r.
Proof.
  revert seen m tr. induction todo as [|a todo IH]; intros seen m tr Ht Hp Htodo; simpl.
  { eexists. reflexivity. }
  assert (Htodo' : forall x, In x todo -> In x possible_conflicts)
    by (intros x Hx; apply Htodo; right; exact Hx).
  assert (Ha : has_node environment (objects m a))
    by (apply Hp, Htodo; left; reflexivity).
  destruct (existsb (Nat.eqb a) seen); [apply IH; auto|].
  destruct (conflicts_with_total environment _ _ Ht Ha) as [c ->].
  destruct c; [|apply IH; auto].
  assert (Hpre : forall (mq : SpectrumManager.t) (trq : list trace_event),
            objects mq = objects m ->
            exists r,
              match preempt environment possible_conflicts temp a mq trq with
              | Ok (m', tr', true) => Ok (m', tr', true)
              | Ok (m', tr', false) =>
                check_conflicts environment arch_policy possible_conflicts temp todo
                  (a :: seen) m' tr'
              | Raise e => Raise e
              end = Ok r).
  { intros mq trq Hq.
    destruct (preempt_total possible_conflicts temp a mq trq) as (m1 & tr1 & b & Hpr & Ho1);
      try (rewrite Hq; auto; fail).
    rewrite Hpr. destruct b; [eexists; reflexivity|].
    apply IH; auto; rewrite Ho1, Hq; auto. }
  destruct (_ && (_ <? _)); [apply Hpre; reflexivity|].
  destruct (_ && (_ >? _)); [eexists; reflexivity|].
  destruct (negb _).
  - destruct (apply_mitigation_total (objects m) temp a Ht Ha) as [[h' b] Hm]. rewrite Hm.
    pose proof (apply_mitigation_frozen environment arch_policy _ _ _ _ _ Hm) as [Hf Hsame].
    destruct b.
    + apply IH; auto; cbn; intros; eapply has_node_frozen; eauto.
    + rewrite (Hsame eq_refl).
      destruct (_ <? _); [apply Hpre; reflexivity|].
      destruct (_ >? _); eexists; reflexivity.
  - destruct (_ <? _); [apply Hpre; reflexivity|].
    destruct (_ >? _); eexists; reflexivity.
Qed.

Lemma decentralized_collect_total (m : SpectrumManager.t) (ids : list Z) (acc : list loc) :
  (forall i, In i ids -> exists node, py_index (Environment.nodes environment) i = Ok node) ->
  exists r, decentralized_collect environment m ids acc = Ok r.
Proof.
  revert acc. induction ids as [|i ids IH]; intros acc Hids; simpl; [eexists; reflexivity|].
  destruct (Hids i (or_introl eq_refl)) as [node ->]. cbn [mbind result_bind].
  apply IH. intros j Hj. apply Hids. right. exact Hj.
Qed.

Lemma possible_conflicts_of_total (use_centralized : bool) (m : SpectrumManager.t)
    (node_id : Z) :
  (exists node, py_index (Environment.nodes environment) node_id = Ok node) ->
  exists r, possible_conflicts_of environment set_order use_centralized m node_id = Ok r.
Proof using Type set_order_In neighbors_are_nodes.
  intros [node Hn]. unfold possible_conflicts_of.
  destruct use_centralized; [eexists; reflexivity|].
  unfold decentralized_scope.
  destruct (get_neighbors environment node_id) as [neighbors|e] eqn:Hnb.
  - cbn [mbind result_bind]. apply decentralized_collect_total.
    intros i Hi. apply set_order_In in Hi. apply (proj1 (remove_dups_In _ _)) in Hi.
    cbn [In] in Hi. destruct Hi as [<-|Hi]; [eauto|]. eapply neighbors_are_nodes; eauto.
  - unfold get_neighbors in Hnb. rewrite Hn in Hnb. discriminate.
Qed.

(** The loop over the scope leaves a store that still agrees with its
    index. *)
Lemma check_conflicts_tight (possible : list loc) (temp : loc)
    (m1 m2 : SpectrumManager.t) (tr tr2 : list trace_event) (c : bool) :
  tight environment m1 ->
  (forall x, In x possible -> In x (active m1)) ->
  check_conflicts environment arch_policy possible temp possible [] m1 tr = Ok (m2, tr2, c) ->
  tight environment m2.
Proof.
  intros Ht1 Hin1 Hcc.
  pose proof (check_conflicts_consistent _ _ _ _ _ _ _ _ _ _ _ (proj1 Ht1) Hin1
                (fun x H => H) Hcc) as Hc2.
  pose proof (check_conflicts_shrinks environment arch_policy _ _ _ _ _ _ _ _ _ Hcc)
    as [_ _ _ Ha2 _ Ho2].
  destruct (check_conflicts_summary environment arch_policy _ _ _ _ _ _ _ _ _
              (proj1 Ht1) Hin1 (fun x H => H)
              (fun x (H : In x []) => match H with end)
              (fun x (H : In x []) => match H with end) Hcc) as (Hk2 & _ & _).
  apply (tight_shrink environment m1); auto.
  - intros l Hl. eapply sublist_In; eauto.
  - intros l _. apply frozen_same_lease, Ho2.
Qed.

Lemma try_candidates_total (request : SpectrumRequest.t) (current_tick : Z)
    (use_centralized : bool) (candidates : list (Z * Z))
    (m : SpectrumManager.t) (tr : list trace_event) :
  tight environment m ->
  (exists node, py_index (Environment.nodes environment) (SpectrumRequest.node_id request)
                = Ok node) ->
  exists r, try_candidates environment arch_policy set_order request current_tick
              use_centralized candidates m tr = Ok r.
Proof using Type covered_NoDup set_order_In neighbors_are_nodes.
  intros Ht [node Hnode]. revert m tr Ht.
  induction candidates as [|[fs fe] rest IH]; intros m tr Ht; simpl; [eexists; reflexivity|].
  match goal with |- context [if ?b then _ else _] => destruct b end; [apply IH; exact Ht|].
  rewrite Hnode.
  match goal with
  | |- context [possible_conflicts_of _ _ _ ?m1 _] => set (m1' := m1) in *
  end.
  assert (Ht1 : tight environment m1')
    by exact (proj1 (alloc_tight environment
                (Assignment.mk (next_assignment_id m) (SpectrumRequest.node_id request)
                   fs fe (SpectrumRequest.device_type request) 1%float None
                   (_get_priority_tier arch_policy (SpectrumRequest.device_type request)))
                m Ht)).
  destruct (possible_conflicts_of_total use_centralized m1' (SpectrumRequest.node_id request))
    as [possible Hscope]; [eauto|]. rewrite Hscope.
  assert (Hin1 : forall x, In x possible -> In x (active m1')).
  { intros x Hx. destruct (scope_in_index _ _ _ _ _ _ _ Hscope Hx) as [square Hsq].
    apply (proj2 (proj1 Ht1) square). exact Hsq. }
  assert (Htemp : has_node environment (objects m1' (next_loc m))).
  { exists node. cbn. rewrite Nat.eqb_refl. exact Hnode. }
  destruct (check_conflicts_total possible (next_loc m) possible [] m1' tr) as [[[m2 tr2] c] Hcc].
  { exact Htemp. }
  { intros x Hx. apply (proj1 (proj2 Ht1)). apply Hin1. exact Hx. }
  { auto. }
  rewrite Hcc.
  pose proof (check_conflicts_tight _ _ _ _ _ _ _ Ht1 Hin1 Hcc) as Ht2.
  destruct c; [apply IH; exact Ht2|].
  pose proof (check_conflicts_shrinks environment arch_policy _ _ _ _ _ _ _ _ _ Hcc)
    as [_ _ _ _ _ Ho2].
  destruct (query_interval arch_policy) as [qi|]; cbn.
  - match goal with
    | |- context [_add_assignment _ ?m3 ?g] =>
      destruct (add_assignment_total m3 g) as [m4 Hadd]
    end.
    { exists node. cbn. rewrite Nat.eqb_refl. exact Hnode. }
    rewrite Hadd. eexists. reflexivity.
  - destruct (add_assignment_total m2 (next_loc m)) as [m4 Hadd].
    { eapply has_node_frozen; [apply Ho2 | exact Htemp]. }
    rewrite Hadd. eexists. reflexivity.
Qed.

Lemma process_request_total (request : SpectrumRequest.t) (current_tick : Z)
    (m : SpectrumManager.t) (g : rng) :
  tight environment m ->
  (exists node, py_index (Environment.nodes environment) (SpectrumRequest.node_id request)
                = Ok node) ->
  exists r, process_request environment arch_policy set_order request current_tick m g = Ok r.
Proof using Type covered_NoDup set_order_In neighbors_are_nodes.
  intros Ht Hnode. unfold process_request.
  destruct (_generate_frequency_candidates arch_policy request g) as [candidates g1].
  match goal with
  | |- context [let '(_, _) := ?b in _] => destruct b as [use_centralized g2]
  end.
  destruct (try_candidates_total request current_tick use_centralized candidates m
              (SpectrumRequest.trace request ++ [Arrived]) Ht Hnode) as [[[m1 tr1] outcome] ->].
  cbn [mbind result_bind]. destruct outcome; eexists; reflexivity.
Qed.

Lemma process_arrivals_total (requests : list SpectrumRequest.t) (current_tick : Z)
    (m : SpectrumManager.t) (g : rng) :
  tight environment m ->
  Forall (fun request =>
            exists node, py_index (Environment.nodes environment)
                           (SpectrumRequest.node_id request) = Ok node) requests ->
  exists m' requests' g',
    process_arrivals environment arch_policy set_order requests current_tick m g
    = Ok (m', requests', g').
Proof using Type covered_NoDup set_order_In neighbors_are_nodes.
  revert m g. induction requests as [|request rest IH]; intros m g Ht Hall; simpl.
  { eexists; eexists; eexists. reflexivity. }
  inversion Hall as [|? ? Hreq Hrest]; subst.
  destruct (process_request_total request current_tick m g Ht Hreq) as [[[m1 r1] g1] H1].
  rewrite H1. cbn [mbind result_bind].
  destruct (process_request_tight environment arch_policy set_order covered_NoDup
              _ _ _ _ _ _ _ Ht H1) as [Ht1 _].
  destruct (IH m1 g1 Ht1 Hrest) as (m2 & r2 & g2 & H2). rewrite H2. cbn.
  eexists; eexists; eexists. reflexivity.
Qed.

(** ** Renewal returns *)

Lemma renew_check_total (assignment : loc) (todo seen : list loc) (h : heap) :
  has_node environment (h assignment) ->
  (forall x, In x todo -> has_node environment (h x)) ->
  exists h' c, renew_check environment arch_policy assignment todo seen h = Ok (h', c)
               /\ forall l, frozen (h l) (h' l).
Proof.
  revert seen h. induction todo as [|other todo IH]; intros seen h Ha Htodo; simpl.
  { eexists; eexists. split; [reflexivity | auto using frozen_refl]. }
  assert (Htodo' : forall x, In x todo -> has_node environment (h x))
    by (intros x Hx; apply Htodo; right; exact Hx).
  destruct (_ || _); [apply IH; auto|].
  assert (Ho : has_node environment (h other)) by (apply Htodo; left; reflexivity).
  destruct (conflicts_with_total environment _ _ Ha Ho) as [c ->].
  destruct c; [|apply IH; auto].
  destruct (apply_mitigation_total h assignment other Ha Ho) as [[h1 b] Hm]. rewrite Hm.
  pose proof (apply_mitigation_frozen environment arch_policy _ _ _ _ _ Hm) as [Hf _].
  destruct b.
  - destruct (IH (other :: seen) h1) as (h' & c & Hr & Hf').
    + eapply has_node_frozen; eauto.
    + intros x Hx. eapply has_node_frozen; eauto.
    + exists h', c. split; [exact Hr|]. intros l. eapply frozen_trans; eauto.
  - eexists; eexists. split; [reflexivity | exact Hf].
Qed.

Lemma renew_loop_total (current_tick : Z) (snapshot : list loc)
    (m : SpectrumManager.t) (R : list loc) :
  (forall l, In l snapshot -> has_node environment (objects m l)) ->
  (forall square l, In l (square_to_assignments m square) ->
                    has_node environment (objects m l)) ->
  exists m' R', renew_loop environment arch_policy current_tick snapshot m R = Ok (m', R').
Proof.
  revert m R. induction snapshot as [|a rest IH]; intros m R Hsnap Hidx; simpl.
  { eexists; eexists. reflexivity. }
  assert (Hrest : forall l, In l rest -> has_node environment (objects m l))
    by (intros l Hl; apply Hsnap; right; exact Hl).
  destruct (negb _); [apply IH; auto|].
  destruct (Hsnap a (or_introl eq_refl)) as [node Hnode]. rewrite Hnode.
  destruct (renew_check_total a
              (flat_map (square_to_assignments m) (Node.covered_squares node)) []
              (objects m)) as (h' & c & Hr & Hf).
  { exists node. exact Hnode. }
  { intros x Hx. apply in_flat_map in Hx. destruct Hx as (square & _ & Hx). eauto. }
  rewrite Hr.
  assert (Hkeep : forall (f : Assignment.t -> Assignment.t) l,
            (forall b, Assignment.node_id (f b) = Assignment.node_id b) ->
            has_node environment (objects m l) ->
            has_node environment (heap_update h' a f l)).
  { intros f l Hfid [nd Hnd]. exists nd. unfold heap_update.
    destruct (Nat.eqb_spec l a) as [->|_].
    - rewrite Hfid.
      destruct (same_lease_fields _ _ (frozen_same_lease _ _ (Hf a))) as (_ & -> & _).
      exact Hnd.
    - destruct (same_lease_fields _ _ (frozen_same_lease _ _ (Hf l))) as (_ & -> & _).
      exact Hnd. }
  destruct c.
  - apply IH; cbn; intros; eapply has_node_frozen; eauto.
  - apply IH; cbn; intros; apply Hkeep; eauto; intros b; destruct b; reflexivity.
Qed.

Lemma remove_all_total (l : list loc) (m : SpectrumManager.t) :
  (forall a, In a l -> has_node environment (objects m a)) ->
  exists m', remove_all environment l m = Ok m'.
Proof.
  revert m. induction l as [|a l IH]; intros m Hl; simpl; [eexists; reflexivity|].
  destruct (remove_assignment_total m a (Hl a (or_introl eq_refl))) as [m1 Hr].
  rewrite Hr. cbn [mbind result_bind]. apply IH.
  destruct (remove_assignment_shrinks environment m m1 a Hr) as [_ ->].
  intros x Hx. apply Hl. right. exact Hx.
Qed.

Lemma renew_assignments_total (current_tick : Z) (m : SpectrumManager.t) :
  tight environment m ->
  exists m', renew_assignments environment arch_policy current_tick m = Ok m'.
Proof.
  intros ([Hwf Hidx] & Hn & _). unfold renew_assignments.
  match goal with
  | |- context [renew_loop _ _ _ _ ?m0 _] =>
    destruct (renew_loop_total current_tick (active m) m0 []) as (ml & R' & Hloop)
  end.
  { intros l Hl. apply Hn. exact Hl. }
  { intros square l Hl. cbn in Hl |- *. apply Hn. apply (Hidx square). exact Hl. }
  rewrite Hloop. cbn [mbind result_bind].
  apply renew_loop_effect in Hloop. cbn in Hloop.
  destruct Hloop as (H1 & _ & _ & _ & _ & H6 & R1 & HR & Hsub & _).
  cbn in HR. subst R'. apply remove_all_total.
  intros a Ha. destruct (Hn a) as [node Hnode].
  { eapply sublist_In; [exact Hsub | exact Ha]. }
  exists node. destruct (same_lease_fields _ _ (proj1 (H6 a))) as (_ & -> & _). exact Hnode.
Qed.

End Returns.

(** ** On a generated grid *)

Lemma grid_node_exists (rows cols i : Z) :
  0 <= rows -> 0 <= cols ->
  - ((rows + 1) * (cols + 1)) <= i < (rows + 1) * (cols + 1) ->
  exists node, py_index (Environment.nodes (Environment_init rows cols)) i = Ok node.
Proof.
  intros Hrows Hcols Hi. cbn [Environment.nodes Environment_init].
  pose proof (generate_nodes_length rows cols Hrows Hcols) as Hlen.
  destruct (Z_lt_le_dec i 0) as [Hneg|Hpos].
  - rewrite py_index_negative by lia. rewrite Hlen.
    rewrite grid_index by lia. eexists. reflexivity.
  - rewrite grid_index by lia. eexists. reflexivity.
Qed.

Lemma grid_neighbors_are_nodes (rows cols : Z) :
  0 <= rows -> 0 <= cols ->
  forall i l j, get_neighbors (Environment_init rows cols) i = Ok l -> In j l ->
                exists node, py_index (Environment.nodes (Environment_init rows cols)) j
                             = Ok node.
Proof.
  intros Hrows Hcols i l j Hl Hj.
  destruct (get_neighbors_range rows cols i Hrows Hcols) as [Hout Hneg].
  assert (Hi : - ((rows + 1) * (cols + 1)) <= i < (rows + 1) * (cols + 1)).
  { destruct (Z_lt_le_dec i (- ((rows + 1) * (cols + 1)))) as [H|H];
      [rewrite Hout in Hl by lia; discriminate|].
    destruct (Z_lt_le_dec i ((rows + 1) * (cols + 1))) as [H'|H']; [lia|].
    rewrite Hout in Hl by lia. discriminate. }
  assert (Hk : exists k, 0 <= k < (rows + 1) * (cols + 1)
                         /\ get_neighbors (Environment_init rows cols) k = Ok l).
  { destruct (Z_lt_le_dec i 0) as [H|H].
    - exists (i + (rows + 1) * (cols + 1)). split; [lia|]. rewrite <- Hneg by lia. exact Hl.
    - exists i. split; [lia | exact Hl]. }
  destruct Hk as (k & Hk & Hlk).
  destruct (get_neighbors_grid rows cols k Hrows Hcols Hk) as (l0 & Hl0 & _ & Hmem).
  rewrite Hlk in Hl0. injection Hl0 as <-.
  apply Hmem in Hj. apply grid_node_exists; lia.
Qed.

(** X22.  On a generated grid with N nodes, from every reachable state,
    process_arrivals returns without raising for every batch of requests whose
    node ids are valid indices of the node list (at least -N and less than N),
    in whatever order Python iterates over a set. *)
Theorem process_arrivals_returns (rows cols : Z) (arch_policy : ArchitecturePolicy.t)
    (set_order : list Z -> list Z) (requests : list SpectrumRequest.t) (current_tick : Z)
    (m : SpectrumManager.t) (g : rng)
    (Hrows : 0 <= rows) (Hcols : 0 <= cols)
    (Hset : forall l x, In x (set_order l) -> In x l)
    (Hm : reachable (Environment_init rows cols) arch_policy set_order m)
    (Hnodes : Forall (fun request =>
                        - ((rows + 1) * (cols + 1)) <= SpectrumRequest.node_id request
                        < (rows + 1) * (cols + 1)) requests) :
  exists m' requests' g',
    process_arrivals (Environment_init rows cols) arch_policy set_order requests
      current_tick m g = Ok (m', requests', g').
Proof.
  apply process_arrivals_total.
  - apply generated_covered_NoDup.
  - exact Hset.
  - apply grid_neighbors_are_nodes; assumption.
  - apply (reachable_tight _ arch_policy set_order);
      [apply generated_covered_NoDup | exact Hm].
  - eapply Forall_impl; [exact Hnodes|]. cbn. intros request Hreq.
    apply grid_node_exists; assumption.
Qed.

Lemma process_arrivals_returns_witness :
  exists m' requests' g',
    process_arrivals (Environment_init 1 1) blind_spot_policy insertion_order
      [SpectrumRequest.init 2 10 (-1) 20 "IoT"; SpectrumRequest.init 3 10 2 600 "5G"]
      10 blind_spot_granted [] = Ok (m', requests', g').
Proof.
  apply (process_arrivals_returns 1 1 blind_spot_policy insertion_order).
  - lia.
  - lia.
  - intros l x Hx. exact Hx.
  - apply reachable_manager_after, reachable_init.
  - repeat constructor; cbn; lia.
Defined.

(** X23.  On a generated grid, from every reachable state and at every tick,
    renew_assignments returns without raising. *)
Theorem renew_assignments_returns (rows cols : Z) (arch_policy : ArchitecturePolicy.t)
    (set_order : list Z -> list Z) (current_tick : Z) (m : SpectrumManager.t)
    (Hm : reachable (Environment_init rows cols) arch_policy set_order m) :
  exists m', renew_assignments (Environment_init rows cols) arch_policy current_tick m
             = Ok m'.
Proof.
  apply renew_assignments_total.
  apply (reachable_tight (Environment_init rows cols) arch_policy set_order
           (generated_covered_NoDup rows cols) m Hm).
Qed.

Lemma renew_assignments_returns_witness :
  exists m', renew_assignments (Environment_init 1 1) blind_spot_policy 1440
               blind_spot_granted = Ok m'.
Proof.
  apply (renew_assignments_returns 1 1 blind_spot_policy insertion_order).
  apply reachable_manager_after, reachable_init.
Defined.

(** ** A request to a node that does not exist *)

Lemma frequency_candidates_in_partition (arch_policy : ArchitecturePolicy.t)
    (request : SpectrumRequest.t) (lo hi fs fe : Z) :
  priority_mode arch_policy = "Exclusive" ->
  band_partitions arch_policy !! SpectrumRequest.device_type request = Some (lo, hi) ->
  In (fs, fe) (frequency_candidates arch_policy request) ->
  lo <= fs /\ fe <= hi.
Proof.
  intros Hex Hp. unfold frequency_candidates. cbv zeta.
  rewrite Hex, str_eqb_refl, Hp.
  destruct (str_eqb (freq_plan arch_policy) "Large Blocks");
    [|destruct (str_eqb (freq_plan arch_policy) "Sub Channels")]; intros Hin;
    first [apply blocks_between_In in Hin; [|lia]
          |apply channel_runs_In in Hin; [|lia]
          |apply slices_In in Hin]; lia.
Qed.

Lemma first_candidate_raises (environment : Environment.t)
    (arch_policy : ArchitecturePolicy.t) (set_order : list Z -> list Z)
    (request : SpectrumRequest.t) (current_tick : Z) (use_centralized : bool)
    (candidates : list (Z * Z)) (m : SpectrumManager.t) (tr : list trace_event) :
  candidates <> [] ->
  (forall fs fe, In (fs, fe) candidates ->
                 In (fs, fe) (frequency_candidates arch_policy request)) ->
  py_index (Environment.nodes environment) (SpectrumRequest.node_id request)
  = Raise IndexError ->
  try_candidates environment arch_policy set_order request current_tick use_centralized
    candidates m tr = Raise IndexError.
Proof.
  intros Hne Hin Hnode. destruct candidates as [|[fs fe] rest]; [contradiction|]. simpl.
  assert (Hc : In (fs, fe) (frequency_candidates arch_policy request))
    by (apply Hin; left; reflexivity).
  destruct (str_eqb (priority_mode arch_policy) "Exclusive") eqn:Hex.
  - apply str_eqb_true in Hex.
    destruct (band_partitions arch_policy !! SpectrumRequest.device_type request)
      as [[lo hi]|] eqn:Hp.
    + destruct (frequency_candidates_in_partition _ _ _ _ _ _ Hex Hp Hc) as [H1 H2].
      destruct (Z.leb_spec lo fs); [|lia]. destruct (Z.leb_spec fe hi); [|lia].
      cbn [andb negb]. rewrite Hnode. reflexivity.
    + rewrite Hnode. reflexivity.
  - rewrite Hnode. reflexivity.
Qed.

(** X24.  When the first request of a batch has at least one frequency
    candidate and its node id is not an index of environment.nodes (at least
    the number of nodes, or less than its negation), process_arrivals raises
    IndexError. *)
Theorem request_outside_grid_raises (environment : Environment.t)
    (arch_policy : ArchitecturePolicy.t) (set_order : list Z -> list Z)
    (request : SpectrumRequest.t) (rest : list SpectrumRequest.t) (current_tick : Z)
    (m : SpectrumManager.t) (g : rng)
    (Hnode : SpectrumRequest.node_id request
             < - Z.of_nat (length (Environment.nodes environment))
             \/ Z.of_nat (length (Environment.nodes environment))
                <= SpectrumRequest.node_id request)
    (Hcand : frequency_candidates arch_policy request <> []) :
  process_arrivals environment arch_policy set_order (request :: rest) current_tick m g
  = Raise IndexError.
Proof.
  cbn [process_arrivals]. unfold process_request.
  pose proof (shuffle_Permutation (frequency_candidates arch_policy request) g) as Hperm.
  unfold _generate_frequency_candidates.
  destruct (shuffle (frequency_candidates arch_policy request) g) as [candidates g1].
  cbn [fst] in Hperm.
  match goal with
  | |- context [let '(_, _) := ?b in _] => destruct b as [use_centralized g2]
  end.
  rewrite first_candidate_raises; [reflexivity | | |].
  - intros ->. apply Permutation_nil_l in Hperm. symmetry in Hperm. contradiction.
  - intros fs fe Hin. apply list_elem_of_In. rewrite <- Hperm. apply list_elem_of_In.
    exact Hin.
  - apply py_index_out_of_range. exact Hnode.
Qed.

Lemma request_outside_grid_raises_witness :
  process_arrivals grid1 blind_spot_policy insertion_order
    [SpectrumRequest.init 0 0 4 20 "5G"; SpectrumRequest.init 1 0 0 20 "5G"] 0
    new_manager [] = Raise IndexError.
Proof.
  apply (request_outside_grid_raises grid1 blind_spot_policy insertion_order
           (SpectrumRequest.init 0 0 4 20 "5G") [SpectrumRequest.init 1 0 0 20 "5G"]
           0 new_manager []).
  - right. vm_compute. discriminate.
  - vm_compute. discriminate.
Defined.

(** * The enumeration of architectures *)

(** Every field of the policy is one of the options of its dimension. *)
Definition from_options (arch : ArchitecturePolicy.t) : Prop :=
  In (coordination_mode arch) COORDINATION_MODES
  /\ In (licensing_mode arch) LICENSING_MODES
  /\ In (freq_plan arch) FREQ_PLANS
  /\ In (interference_mitigation arch) INTERFERENCE_MITIGATIONS
  /\ In (sensing_mode arch) SENSING_MODES
  /\ In (pricing_mode arch) PRICING_MODES
  /\ In (enforcement_mode arch) ENFORCEMENT_MODES
  /\ In (priority_mode arch) PRIORITY_MODES.

Ltac unbind H :=
  repeat (let x := fresh "x" in let Hx := fresh "Hx" in
          apply list_elem_of_bind in H; destruct H as (x & H & Hx));
  apply list_elem_of_singleton in H.

Lemma all_combinations_In (arch : ArchitecturePolicy.t) :
  In arch all_combinations <-> from_options arch.
Proof.
  unfold all_combinations, from_options. rewrite <- !list_elem_of_In. split.
  - intros H. unbind H. subst arch. cbn [coordination_mode licensing_mode freq_plan
      interference_mitigation sensing_mode pricing_mode enforcement_mode priority_mode].
    tauto.
  - intros (H1 & H2 & H3 & H4 & H5 & H6 & H7 & H8). destruct arch as [c l f i s p e pr].
    cbn [coordination_mode licensing_mode freq_plan
      interference_mitigation sensing_mode pricing_mode enforcement_mode priority_mode] in *.
    apply list_elem_of_bind. exists c. split; [|exact H1].
    apply list_elem_of_bind. exists l. split; [|exact H2].
    apply list_elem_of_bind. exists f. split; [|exact H3].
    apply list_elem_of_bind. exists i. split; [|exact H4].
    apply list_elem_of_bind. exists s. split; [|exact H5].
    apply list_elem_of_bind. exists p. split; [|exact H6].
    apply list_elem_of_bind. exists e. split; [|exact H7].
    apply list_elem_of_bind. exists pr. split; [|exact H8].
    apply list_elem_of_singleton. reflexivity.
Qed.

Lemma options_NoDup :
  NoDup COORDINATION_MODES /\ NoDup LICENSING_MODES /\ NoDup FREQ_PLANS
  /\ NoDup INTERFERENCE_MITIGATIONS /\ NoDup SENSING_MODES /\ NoDup PRICING_MODES
  /\ NoDup ENFORCEMENT_MODES /\ NoDup PRIORITY_MODES.
Proof. split_and!; apply (bool_decide_unpack _); vm_compute; reflexivity. Qed.

Ltac bind_step Hnd :=
  apply NoDup_bind; [ | intros ? _ | exact Hnd ];
  [ let H1 := fresh "H" in let H2 := fresh "H" in
    intros ? ? ? _ _ H1 H2; unbind H1; unbind H2; congruence | ].

Lemma all_combinations_NoDup : NoDup all_combinations.
Proof.
  destruct options_NoDup as (N1 & N2 & N3 & N4 & N5 & N6 & N7 & N8).
  unfold all_combinations.
  bind_step N1. bind_step N2. bind_step N3. bind_step N4.
  bind_step N5. bind_step N6. bind_step N7. bind_step N8.
  apply NoDup_singleton.
Qed.

(** X25.  generate_all_architectures(False) lists exactly the policies whose
    eight fields are taken from the eight option lists, each policy once, 5832
    in all; generate_all_architectures(True) lists exactly those of them that
    is_feasible accepts, each once. *)
Theorem generate_all_architectures_enumerates :
  (forall arch, In arch (generate_all_architectures false) <-> from_options arch)
  /\ (forall arch, In arch (generate_all_architectures true)
                   <-> from_options arch /\ is_feasible arch = true)
  /\ NoDup (generate_all_architectures false)
  /\ NoDup (generate_all_architectures true)
  /\ Z.of_nat (length (generate_all_architectures false)) = 5832.
Proof.
  split_and!.
  - intros arch. apply all_combinations_In.
  - intros arch. cbn [generate_all_architectures]. rewrite List.filter_In, all_combinations_In.
    reflexivity.
  - exact all_combinations_NoDup.
  - cbn [generate_all_architectures]. apply NoDup_ListNoDup, List.NoDup_filter, NoDup_ListNoDup, all_combinations_NoDup.
  - vm_compute. reflexivity.
Qed.
